(** * fe::copy_on_write_vector: a shallow embedding and its properties

    The development follows [copy_on_write_vector.h] (second revision, the
    one with the value-search mutators).  A container object holds a
    [std::shared_ptr] to a [std::vector] and a [std::mutex]; every mutator
    locks the mutex, builds a private copy of the vector, changes the copy
    and stores the pointer to it into the container.  Readers go through
    [lock()], which copies the shared pointer into a [snapshot].

    Modelling choices:
    - shared pointers are locations of a heap whose cells carry the vector
      and the use count of its control block; a cell is removed when its
      use count drops to zero;
    - [std::vector] is a list of elements together with a capacity; how much
      capacity an allocation obtains is implementation-defined and is kept
      abstract in [CapacityPolicy];
    - undefined behaviour of the C++ standard (an iterator outside
      [begin(), end()], [operator[]] out of range, [pop_back] on an empty
      vector, locking a mutex the thread already owns, using a released
      object) is the outcome [Undefined]; exceptions are the outcome [Throw];
    - one thread of execution: the mutex is a flag, calls run to completion;
    - allocation does not fail: [bad_alloc] is not modelled.  [length_error]
      is modelled where the caller names a size: [reserve(new_cap)],
      [assign(count, value)], [resize(count)] and [insert_at(index, count,
      value)] throw it beyond [max_size()], which is a parameter of the
      model; a vector that exists is taken to be within [max_size()];
    - [std::sort] leaves the order of equivalent elements to the
      implementation and is a parameter of the model;
    - [operator==] of the element type is decidable equality;
    - of the constructors, the one from a list of elements, the copy
      constructor and the move constructor are modelled, the overloads with
      an allocator argument being the same functions; of the iterator, what
      a range-based for uses ([begin], [end], [operator*], pre-increment,
      [operator!=]) is modelled, its arithmetic is not; of the comparison
      operators [==] and [!=] are modelled, the ordering is not;
      [data] is not modelled. *)

From stdpp Require Import gmap list.

(** ** Element type, capacity policy and library parameters *)

Class Element (T : Type) := {
  elt_eq :: EqDecision T;        (* operator== *)
  elt_less : T → T → bool;       (* operator<  *)
  elt_default : T                (* T()        *)
}.

Class CapacityPolicy := {
  (* capacity of a vector constructed with n elements *)
  cap_construct : nat → nat;
  cap_construct_ge n : n ≤ cap_construct n;
  (* capacity after reserve(n) reallocated a vector of capacity c < n *)
  cap_reserve : nat → nat → nat;
  cap_reserve_ge c n : n ≤ cap_reserve c n;
  (* capacity after an insertion that needs n > c elements reallocated *)
  cap_grow : nat → nat → nat;
  cap_grow_ge c n : n ≤ cap_grow c n;
  (* capacity after shrink_to_fit (a non-binding request) with n elements *)
  cap_shrink : nat → nat → nat;
  cap_shrink_ge c n : n ≤ cap_shrink c n
}.

(** The policy of libstdc++: exact allocation on construction and reserve,
    doubling on growth, exact fit on shrink_to_fit. *)
Definition libstdcxx_policy : CapacityPolicy := {|
  cap_construct n := n;
  cap_construct_ge n := le_n n;
  cap_reserve _ n := n;
  cap_reserve_ge _ n := le_n n;
  cap_grow c n := n `max` (2 * c);
  cap_grow_ge c n := Nat.le_max_l n (2 * c);
  cap_shrink _ n := n;
  cap_shrink_ge _ n := le_n n
|}.

(** What else the standard leaves to the implementation of the library. *)
Class StdLibrary (T : Type) := {
  (* std::vector<T>::max_size(), a number of 64 bits *)
  max_size : N;
  (* std::sort: a sorting algorithm that need not be stable *)
  std_sort : (T → T → bool) → list T → list T
}.

Inductive exn := out_of_range | length_error.

(** ** std::vector *)

Section vector.
Context {T : Type} `{!Element T} `{!CapacityPolicy}.

Record container_type := Vec { elems : list T; vec_capacity : nat }.

Definition vec_size (v : container_type) : nat := length (elems v).

Definition vec_of_list (l : list T) : container_type :=
  Vec l (cap_construct (length l)).

(* vector(allocator) *)
Definition vec_empty : container_type := vec_of_list [].

(* vector(const vector&) *)
Definition vec_copy (v : container_type) : container_type :=
  vec_of_list (elems v).

(* new contents l in the storage of v, reallocating when l does not fit *)
Definition vec_fit (v : container_type) (l : list T) : container_type :=
  Vec l (if decide (length l ≤ vec_capacity v) then vec_capacity v
         else cap_grow (vec_capacity v) (length l)).

(* assign: new contents l in the storage of v; when l does not fit, a
   vector constructed from l takes its place *)
Definition vec_assign (l : list T) (v : container_type) : container_type :=
  Vec l (if decide (length l ≤ vec_capacity v) then vec_capacity v
         else cap_construct (length l)).

Definition vec_reserve (n : nat) (v : container_type) : container_type :=
  Vec (elems v) (if decide (n ≤ vec_capacity v) then vec_capacity v
                 else cap_reserve (vec_capacity v) n).

Definition vec_shrink_to_fit (v : container_type) : container_type :=
  Vec (elems v) (cap_shrink (vec_capacity v) (vec_size v)).

(* insert(begin() + i, ...): the iterator must lie in [begin(), end()] *)
Definition vec_insert (i : nat) (l : list T) (v : container_type)
    : option container_type :=
  if decide (i ≤ vec_size v)
  then Some (vec_fit v (take i (elems v) ++ l ++ drop i (elems v)))
  else None.

(* operator[] at i, assigned x *)
Definition vec_set (i : nat) (x : T) (v : container_type)
    : option container_type :=
  if decide (i < vec_size v)
  then Some (Vec (<[i := x]> (elems v)) (vec_capacity v))
  else None.

(* erase(begin() + i): the iterator must be dereferenceable *)
Definition vec_erase (i : nat) (v : container_type)
    : option container_type :=
  if decide (i < vec_size v)
  then Some (Vec (delete i (elems v)) (vec_capacity v))
  else None.

(* erase(begin() + first, begin() + last): a valid range of the vector *)
Definition vec_erase_range (first last : nat) (v : container_type)
    : option container_type :=
  if decide (first ≤ last ∧ last ≤ vec_size v)
  then Some (Vec (take first (elems v) ++ drop last (elems v)) (vec_capacity v))
  else None.

Definition vec_push_back (x : T) (v : container_type) : container_type :=
  vec_fit v (elems v ++ [x]).

Definition vec_pop_back (v : container_type) : option container_type :=
  if decide (vec_size v = 0) then None
  else Some (Vec (take (vec_size v - 1) (elems v)) (vec_capacity v)).

Definition vec_resize (n : nat) (x : T) (v : container_type)
    : container_type :=
  if decide (n ≤ vec_size v) then Vec (take n (elems v)) (vec_capacity v)
  else vec_fit v (elems v ++ replicate (n - vec_size v) x).

(* at(n) *)
Definition vec_at (n : nat) (v : container_type) : exn + T :=
  match elems v !! n with Some x => inr x | None => inl out_of_range end.

(** *** <algorithm> on the element sequence; iterators are indices *)

(* std::find_if: the index of the first match, or the length (end()) *)
Fixpoint std_find_if (pred : T → bool) (l : list T) : nat :=
  match l with
  | [] => 0
  | x :: l' => if pred x then 0 else S (std_find_if pred l')
  end.

Definition equal_to (value : T) : T → bool := λ x, bool_decide (x = value).

Definition std_find (value : T) (l : list T) : nat :=
  std_find_if (equal_to value) l.

(* std::remove_if: the kept elements are moved to the front in order; the
   result is the sequence after the call and the index of the new end.
   The slots from there on keep what they held. *)
Definition std_remove_if (pred : T → bool) (l : list T) : list T * nat :=
  let kept := List.filter (λ x, negb (pred x)) l in
  (kept ++ drop (length kept) l, length kept).

(* std::stable_sort, by insertion from the right: the result of a stable
   sort is determined by the sequence and the ordering.  A comparison that
   is no strict weak ordering is undefined behaviour; the model still
   returns the result of the insertions. *)
Fixpoint sorted_insert (comp : T → T → bool) (x : T) (l : list T) : list T :=
  match l with
  | [] => [x]
  | y :: l' => if comp y x then y :: sorted_insert comp x l' else x :: l
  end.

Definition std_stable_sort (comp : T → T → bool) (l : list T) : list T :=
  foldr (sorted_insert comp) [] l.
End vector.

Global Arguments container_type T : clear implicits.
Global Arguments Vec {T} _ _.

(** *** The member functions of std::vector that receive a size: they
    throw length_error beyond max_size() and leave the vector as it is *)

Section vector_length.
Context {T : Type} `{!Element T} `{!CapacityPolicy} `{!StdLibrary T}.

Definition within_max_size (n : nat) : Prop := (N.of_nat n ≤ max_size)%N.

#[global] Instance within_max_size_dec n : Decision (within_max_size n).
Proof. unfold within_max_size. apply _. Defined.

(* reserve(n) *)
Definition vec_reserve_checked (n : nat) (v : container_type T)
    : option (exn + container_type T) :=
  Some (if decide (within_max_size n) then inr (vec_reserve n v)
        else inl length_error).

(* assign(count, value) *)
Definition vec_assign_fill (count : nat) (value : T) (v : container_type T)
    : option (exn + container_type T) :=
  Some (if decide (within_max_size count)
        then inr (vec_assign (replicate count value) v)
        else inl length_error).

(* resize(n, x): only growth can fail *)
Definition vec_resize_checked (n : nat) (x : T) (v : container_type T)
    : option (exn + container_type T) :=
  Some (if decide (n ≤ vec_size v ∨ within_max_size n)
        then inr (vec_resize n x v)
        else inl length_error).

(* insert(begin() + i, count, value): the iterator must lie in
   [begin(), end()]; the size after the insertion is checked *)
Definition vec_insert_fill (i count : nat) (value : T) (v : container_type T)
    : option (exn + container_type T) :=
  if decide (i ≤ vec_size v) then
    if decide (count = 0 ∨ within_max_size (vec_size v + count))
    then inr <$> vec_insert i (replicate count value) v
    else Some (inl length_error)
  else None.
End vector_length.

(** ** The store: shared blocks, container objects, and the monad of calls *)

Abbreviation loc := nat (only parsing).
Abbreviation cid := nat (only parsing).

Section store.
Context {T : Type} `{!Element T} `{!CapacityPolicy}.

(* what std::make_shared allocates: the vector and its use count *)
Record shared_block := Block { object : container_type T; use_count : nat }.

(* the data members of class copy_on_write_vector; the mutex is held or not *)
Record copy_on_write_vector :=
  Cow { _shared_container : loc; _mutex : bool }.

(* the data member of class snapshot *)
Record snapshot := Snapshot { snapshot_shared_container : loc }.

Record world := World {
  heap : gmap loc shared_block;
  vectors : gmap cid copy_on_write_vector
}.

Inductive outcome (A : Type) :=
| Ok (a : A) (w : world)
| Throw (e : exn) (w : world)
| Undefined.
Global Arguments Ok {A} _ _.
Global Arguments Throw {A} _ _.
Global Arguments Undefined {A}.

Definition M (A : Type) : Type := world → outcome A.

Definition ret {A} (a : A) : M A := λ w, Ok a w.

Definition bind {A B} (m : M A) (k : A → M B) : M B := λ w,
  match m w with
  | Ok a w' => k a w'
  | Throw e w' => Throw e w'
  | Undefined => Undefined
  end.

Definition throw {A} (e : exn) : M A := λ w, Throw e w.

Definition undefined {A} : M A := λ _, Undefined.

(* run the cleanup when m is left, by return or by exception *)
Definition finally {A} (m : M A) (cleanup : M unit) : M A := λ w,
  match m w with
  | Ok a w' => bind cleanup (λ _, ret a) w'
  | Throw e w' => bind cleanup (λ _, throw e) w'
  | Undefined => Undefined
  end.

(* stack unwinding: the cleanup runs when m is left by an exception *)
Definition unwinding {A} (m : M A) (cleanup : M unit) : M A := λ w,
  match m w with
  | Ok a w' => Ok a w'
  | Throw e w' => bind cleanup (λ _, throw e) w'
  | Undefined => Undefined
  end.

Global Instance M_ret : MRet M := @ret.
Global Instance M_bind : MBind M := λ A B k m, bind m k.
End store.

Global Arguments shared_block T : clear implicits.
Global Arguments world T : clear implicits.
Global Arguments outcome T A : clear implicits.
Global Arguments M T A : clear implicits.


(** ** Shared pointers, object access and the mutex *)

Section primitives.
Context {T : Type} `{!Element T} `{!CapacityPolicy}.

(* std::make_shared<container_type>(v): a new block with use count 1 *)
Definition make_shared (v : container_type T) : M T loc := λ w,
  let p := fresh (dom (heap w)) in
  Ok p (World (<[p := Block v 1]> (heap w)) (vectors w)).

(* copy construction of a shared_ptr from p *)
Definition shared_ptr_copy (p : loc) : M T loc := λ w,
  match heap w !! p with
  | Some b =>
      Ok p (World (<[p := Block (object b) (S (use_count b))]> (heap w))
                  (vectors w))
  | None => Undefined
  end.

(* a shared_ptr to p gives up its reference: the last one frees the block *)
Definition shared_ptr_release (p : loc) : M T unit := λ w,
  match heap w !! p with
  | Some b =>
      Ok tt (World (if decide (use_count b ≤ 1) then delete p (heap w)
                    else <[p := Block (object b) (use_count b - 1)]> (heap w))
                   (vectors w))
  | None => Undefined
  end.

(* *p, read *)
Definition deref (p : loc) : M T (container_type T) := λ w,
  match heap w !! p with
  | Some b => Ok (object b) w
  | None => Undefined
  end.

(* a member function of std::vector called on *p; None is a violated
   precondition *)
Definition modify (p : loc)
    (f : container_type T → option (container_type T)) : M T unit := λ w,
  match heap w !! p with
  | Some b =>
      match f (object b) with
      | Some v => Ok tt (World (<[p := Block v (use_count b)]> (heap w))
                               (vectors w))
      | None => Undefined
      end
  | None => Undefined
  end.

(* a member function of std::vector called on *p that can throw: it
   leaves the vector as it is then *)
Definition modify_or_throw (p : loc)
    (f : container_type T → option (exn + container_type T))
    : M T unit := λ w,
  match heap w !! p with
  | Some b =>
      match f (object b) with
      | Some (inr v) => Ok tt (World (<[p := Block v (use_count b)]> (heap w))
                                     (vectors w))
      | Some (inl e) => Throw e w
      | None => Undefined
      end
  | None => Undefined
  end.

(* the container object c *)
Definition this (c : cid) : M T copy_on_write_vector := λ w,
  match vectors w !! c with
  | Some o => Ok o w
  | None => Undefined
  end.

Definition get_shared_container (c : cid) : M T loc :=
  o ← this c; mret (_shared_container o).

(* _shared_container = std::move(p): the member takes p over, then the
   block it referred to before is released *)
Definition set_shared_container (c : cid) (p : loc) : M T unit :=
  o ← this c;
  (λ w, Ok tt (World (heap w) (<[c := Cow p (_mutex o)]> (vectors w))));;
  shared_ptr_release (_shared_container o).

(* _mutex.lock(): locking a mutex the thread owns is undefined *)
Definition mutex_lock (c : cid) : M T unit := λ w,
  match vectors w !! c with
  | Some o =>
      if _mutex o then Undefined
      else Ok tt (World (heap w)
                        (<[c := Cow (_shared_container o) true]> (vectors w)))
  | None => Undefined
  end.

Definition mutex_unlock (c : cid) : M T unit := λ w,
  match vectors w !! c with
  | Some o =>
      if _mutex o
      then Ok tt (World (heap w)
                        (<[c := Cow (_shared_container o) false]> (vectors w)))
      else Undefined
  | None => Undefined
  end.

(* std::lock_guard<std::mutex> lock(_mutex); body *)
Definition lock_guard {A} (c : cid) (body : M T A) : M T A :=
  mutex_lock c;; finally body (mutex_unlock c).

(* an iterator of a vector: the vector it points into and the position *)
Record iterator := Iter { it_container : loc; it_index : nat }.

(* *it: the iterator must be dereferenceable *)
Definition iter_read (it : iterator) : M T T :=
  v ← deref (it_container it);
  match elems v !! it_index it with
  | Some x => mret x
  | None => undefined
  end.

(* it - p->begin(): both iterators must belong to the same vector *)
Definition iter_offset (it : iterator) (p : loc) : M T nat :=
  if decide (it_container it = p) then mret (it_index it) else undefined.
End primitives.

(** ** More of std::vector: unchecked access and equality *)

Section vector_access.
Context {T : Type} `{!Element T}.

(* operator[]: n must be below the size *)
Definition vec_subscript (n : nat) (v : container_type T) : option T :=
  elems v !! n.

(* front() and back(): the vector must not be empty *)
Definition vec_front (v : container_type T) : option T := head (elems v).

Definition vec_back (v : container_type T) : option T := last (elems v).

(* operator== of std::vector: same size and equal elements *)
Definition vec_equal (a b : container_type T) : bool :=
  bool_decide (elems a = elems b).
End vector_access.

Module fe.
Section members.
Context {T : Type} `{!Element T} `{!CapacityPolicy} `{!StdLibrary T}.

(** ** class snapshot *)

Definition snapshot_destroy (s : snapshot) : M T unit :=
  shared_ptr_release (snapshot_shared_container s).

Definition snapshot_at (s : snapshot) (n : nat) : M T T :=
  v ← deref (snapshot_shared_container s);
  match vec_at n v with
  | inr x => mret x
  | inl e => throw e
  end.

Definition snapshot_size (s : snapshot) : M T nat :=
  v ← deref (snapshot_shared_container s); mret (vec_size v).

Definition snapshot_capacity (s : snapshot) : M T nat :=
  v ← deref (snapshot_shared_container s); mret (vec_capacity v).

Definition snapshot_max_size (s : snapshot) : M T N :=
  v ← deref (snapshot_shared_container s); mret max_size.

Definition snapshot_get_allocator (s : snapshot) : M T unit :=
  v ← deref (snapshot_shared_container s); mret tt.

(* the elements met by an iteration from begin() to end() *)
Definition snapshot_elements (s : snapshot) : M T (list T) :=
  v ← deref (snapshot_shared_container s); mret (elems v).

(** ** class copy_on_write_vector: read access *)

(* snapshot lock() const noexcept *)
Definition lock (c : cid) : M T snapshot :=
  p ← get_shared_container c;
  q ← shared_ptr_copy p;
  mret (Snapshot q).

(* lock().f(): the temporary snapshot dies at the end of the expression *)
Definition with_lock {A} (c : cid) (f : snapshot → M T A) : M T A :=
  s ← lock c; finally (f s) (snapshot_destroy s).

Definition at_ (c : cid) (n : nat) : M T T :=
  with_lock c (λ s, snapshot_at s n).

Definition size (c : cid) : M T nat := with_lock c snapshot_size.

Definition capacity (c : cid) : M T nat := with_lock c snapshot_capacity.

Definition max_size (c : cid) : M T N := with_lock c snapshot_max_size.

Definition get_allocator (c : cid) : M T unit :=
  with_lock c snapshot_get_allocator.

(** ** class copy_on_write_vector: construction *)

(* copy_on_write_vector(first, last), copy_on_write_vector(initializer_list):
   a new container object with a block of its own *)
Definition construct (l : list T) : M T cid :=
  p ← make_shared (vec_of_list l);
  ((λ w, let c := fresh (dom (vectors w)) in
         Ok c (World (heap w) (<[c := Cow p false]> (vectors w))))
   : M T cid).

(* copy_on_write_vector(copy_on_write_vector &&other): the vector of the new
   block is move-constructed from the vector of the block of other, read
   through other.lock(); the move leaves that vector empty *)
Definition move_construct (other : cid) : M T cid :=
  with_lock other (λ s,
    v ← deref (snapshot_shared_container s);
    p ← make_shared v;
    modify (snapshot_shared_container s) (λ _, Some (Vec [] 0));;
    ((λ w, let c := fresh (dom (vectors w)) in
           Ok c (World (heap w) (<[c := Cow p false]> (vectors w))))
     : M T cid)).

(** ** class copy_on_write_vector: mutators

    Overloads that differ in taking [const T&] or [T&&] coincide here;
    a range [first, last) and an initializer list are the list of their
    elements; [emplace] receives the constructed element. *)

(* The four statements of a plain mutator:
     std::lock_guard<std::mutex> lock(_mutex);
     auto copied_container = std::make_shared<container_type>( *_shared_container);
     copied_container->f(...);
     _shared_container = std::move(copied_container);  *)
Definition copy_modify_publish (c : cid)
    (f : container_type T → option (container_type T)) : M T unit :=
  lock_guard c (
    p ← get_shared_container c;
    v ← deref p;
    copied_container ← make_shared (vec_copy v);
    modify copied_container f;;
    set_shared_container c copied_container).

(* The same four statements around a member function of std::vector that
   can throw.  The exception leaves the mutator through the destructor of
   copied_container, which frees the copy, and through the destructor of
   the lock_guard. *)
Definition copy_modify_publish_or_throw (c : cid)
    (f : container_type T → option (exn + container_type T)) : M T unit :=
  lock_guard c (
    p ← get_shared_container c;
    v ← deref p;
    copied_container ← make_shared (vec_copy v);
    unwinding (modify_or_throw copied_container f)
              (shared_ptr_release copied_container);;
    set_shared_container c copied_container).

Definition assign_fill (c : cid) (count : nat) (value : T) : M T unit :=
  copy_modify_publish_or_throw c (vec_assign_fill count value).

Definition assign (c : cid) (l : list T) : M T unit :=
  copy_modify_publish c (λ v, Some (vec_assign l v)).

Definition reserve (c : cid) (new_cap : nat) : M T unit :=
  copy_modify_publish_or_throw c (vec_reserve_checked new_cap).

Definition shrink_to_fit (c : cid) : M T unit :=
  copy_modify_publish c (λ v, Some (vec_shrink_to_fit v)).

Definition clear (c : cid) : M T unit :=
  lock_guard c (
    get_allocator c;;
    copied_container ← make_shared vec_empty;
    p ← get_shared_container c;
    v ← deref p;
    modify copied_container (λ e, Some (vec_reserve (vec_capacity v) e));;
    set_shared_container c copied_container).

Definition insert_at (c : cid) (index : nat) (value : T) : M T unit :=
  copy_modify_publish c (vec_insert index [value]).

Definition insert_at_fill (c : cid) (index count : nat) (value : T)
    : M T unit :=
  copy_modify_publish_or_throw c (vec_insert_fill index count value).

Definition insert_at_range (c : cid) (index : nat) (l : list T) : M T unit :=
  copy_modify_publish c (vec_insert index l).

Definition emplace_at (c : cid) (index : nat) (value : T) : M T unit :=
  copy_modify_publish c (vec_insert index [value]).

Definition replace (c : cid) (old_value new_value : T) : M T bool :=
  lock_guard c (
    p ← get_shared_container c;
    v ← deref p;
    let it := std_find old_value (elems v) in
    if decide (it = vec_size v) then mret false
    else
      copied_container ← make_shared (vec_copy v);
      modify copied_container (vec_set it new_value);;
      set_shared_container c copied_container;;
      mret true).

(* The loop of replace_all and replace_all_if.  n is last - first, which
   the copy leaves as it is; test is the condition on *first. *)
Fixpoint replace_all_loop (shared : loc) (test : T → bool) (value : T)
    (n : nat) (first : iterator) (copied_container : loc) (result : nat)
    : M T (loc * nat) :=
  match n with
  | 0 => mret (copied_container, result)
  | S n' =>
      x ← iter_read first;
      '(first, copied_container, result) ←
        (if test x then
           '(first, copied_container) ←
             (if decide (result = 0) then
                v ← deref copied_container;
                fresh_container ← make_shared (vec_copy v);
                shared_ptr_release copied_container;;
                i ← iter_offset first shared;
                mret (Iter fresh_container i, fresh_container)
              else mret (first, copied_container));
           i ← iter_offset first copied_container;
           modify copied_container (vec_set i value);;
           mret (first, copied_container, S result)
         else mret (first, copied_container, result));
      replace_all_loop shared test value n'
        (Iter (it_container first) (S (it_index first)))
        copied_container result
  end.

Definition replace_all (c : cid) (old_value new_value : T) : M T nat :=
  lock_guard c (
    p ← get_shared_container c;
    copied_container ← shared_ptr_copy p;
    v ← deref p;
    '(copied_container, result) ←
      replace_all_loop p (equal_to old_value) new_value (vec_size v)
        (Iter p 0) copied_container 0;
    set_shared_container c copied_container;;
    mret result).

Definition replace_at (c : cid) (index : nat) (value : T) : M T unit :=
  copy_modify_publish c (vec_set index value).

Definition replace_if (c : cid) (pred : T → bool) (value : T) : M T bool :=
  lock_guard c (
    p ← get_shared_container c;
    v ← deref p;
    let it := std_find_if pred (elems v) in
    if decide (it = vec_size v) then mret false
    else
      copied_container ← make_shared (vec_copy v);
      modify copied_container (vec_set it value);;
      set_shared_container c copied_container;;
      mret true).

Definition replace_all_if (c : cid) (pred : T → bool) (value : T)
    : M T nat :=
  lock_guard c (
    p ← get_shared_container c;
    copied_container ← shared_ptr_copy p;
    v ← deref p;
    '(copied_container, result) ←
      replace_all_loop p pred value (vec_size v)
        (Iter p 0) copied_container 0;
    set_shared_container c copied_container;;
    mret result).

Definition erase (c : cid) (value : T) : M T bool :=
  lock_guard c (
    p ← get_shared_container c;
    v ← deref p;
    let it := std_find value (elems v) in
    if decide (it = vec_size v) then mret false
    else
      copied_container ← make_shared (vec_copy v);
      modify copied_container (vec_erase it);;
      set_shared_container c copied_container;;
      mret true).

(* std::remove_if on the copy, then erase(it, end()) *)
Definition remove_erase (c : cid) (test : T → bool) : M T nat :=
  lock_guard c (
    p ← get_shared_container c;
    v ← deref p;
    copied_container ← make_shared (vec_copy v);
    u ← deref copied_container;
    let '(moved, it) := std_remove_if test (elems u) in
    modify copied_container (λ u, Some (Vec moved (vec_capacity u)));;
    u ← deref copied_container;
    let result := vec_size u - it in
    modify copied_container (λ u, vec_erase_range it (vec_size u) u);;
    set_shared_container c copied_container;;
    mret result).

Definition erase_all (c : cid) (value : T) : M T nat :=
  remove_erase c (equal_to value).

Definition erase_at (c : cid) (index : nat) : M T unit :=
  copy_modify_publish c (vec_erase index).

Definition erase_range (c : cid) (first last : nat) : M T unit :=
  copy_modify_publish c (vec_erase_range first last).

Definition erase_if (c : cid) (pred : T → bool) : M T bool :=
  lock_guard c (
    p ← get_shared_container c;
    v ← deref p;
    let it := std_find_if pred (elems v) in
    if decide (it = vec_size v) then mret false
    else
      copied_container ← make_shared (vec_copy v);
      modify copied_container (vec_erase it);;
      set_shared_container c copied_container;;
      mret true).

Definition erase_all_if (c : cid) (pred : T → bool) : M T nat :=
  remove_erase c pred.

Definition push_back (c : cid) (value : T) : M T unit :=
  copy_modify_publish c (λ v, Some (vec_push_back value v)).

Definition push_back_range (c : cid) (l : list T) : M T unit :=
  copy_modify_publish c
    (λ v, Some (foldl (λ v x, vec_push_back x v) v l)).

Definition push_back_if_absent (c : cid) (value : T) : M T bool :=
  lock_guard c (
    p ← get_shared_container c;
    v ← deref p;
    let it := std_find value (elems v) in
    if decide (it ≠ vec_size v) then mret false
    else
      copied_container ← make_shared (vec_copy v);
      modify copied_container (λ v, Some (vec_push_back value v));;
      set_shared_container c copied_container;;
      mret true).

(* the loop of the ranged push_back_if_absent over the input [first, last) *)
Fixpoint push_back_if_absent_loop (input : list T) (copied_container : loc)
    (result : nat) : M T (loc * nat) :=
  match input with
  | [] => mret (copied_container, result)
  | x :: input' =>
      v ← deref copied_container;
      let it := std_find x (elems v) in
      '(copied_container, result) ←
        (if decide (it = vec_size v) then
           copied_container ←
             (if decide (result = 0) then
                fresh_container ← make_shared (vec_copy v);
                shared_ptr_release copied_container;;
                mret fresh_container
              else mret copied_container);
           modify copied_container (λ v, Some (vec_push_back x v));;
           mret (copied_container, S result)
         else mret (copied_container, result));
      push_back_if_absent_loop input' copied_container result
  end.

Definition push_back_if_absent_range (c : cid) (l : list T) : M T nat :=
  lock_guard c (
    p ← get_shared_container c;
    copied_container ← shared_ptr_copy p;
    '(copied_container, result) ←
      push_back_if_absent_loop l copied_container 0;
    set_shared_container c copied_container;;
    mret result).

Definition emplace_back (c : cid) (value : T) : M T unit :=
  copy_modify_publish c (λ v, Some (vec_push_back value v)).

Definition pop_back (c : cid) : M T unit :=
  copy_modify_publish c vec_pop_back.

Definition resize (c : cid) (count : nat) : M T unit :=
  copy_modify_publish_or_throw c (vec_resize_checked count elt_default).

Definition resize_fill (c : cid) (count : nat) (value : T) : M T unit :=
  copy_modify_publish_or_throw c (vec_resize_checked count value).

Definition swap (c other : cid) : M T unit :=
  lock_guard c (
    lock_guard other (
      p ← get_shared_container c;
      v ← deref p;
      copied_container ← make_shared (vec_copy v);
      q ← get_shared_container other;
      u ← deref q;
      other_copied_container ← make_shared (vec_copy u);
      a ← deref copied_container;
      b ← deref other_copied_container;
      modify copied_container (λ _, Some b);;
      modify other_copied_container (λ _, Some a);;
      set_shared_container c copied_container;;
      set_shared_container other other_copied_container)).

(* swap with a std::vector of the caller; the result is that vector after
   the call *)
Definition swap_raw (c : cid) (other : container_type T)
    : M T (container_type T) :=
  lock_guard c (
    p ← get_shared_container c;
    v ← deref p;
    copied_container ← make_shared (vec_copy v);
    a ← deref copied_container;
    modify copied_container (λ _, Some other);;
    set_shared_container c copied_container;;
    mret a).

Definition sort_by (c : cid) (comp : T → T → bool) : M T unit :=
  copy_modify_publish c
    (λ v, Some (Vec (std_sort comp (elems v)) (vec_capacity v))).

Definition sort (c : cid) : M T unit :=
  copy_modify_publish c
    (λ v, Some (Vec (std_sort elt_less (elems v)) (vec_capacity v))).

Definition stable_sort_by (c : cid) (comp : T → T → bool) : M T unit :=
  copy_modify_publish c
    (λ v, Some (Vec (std_stable_sort comp (elems v)) (vec_capacity v))).

Definition stable_sort (c : cid) : M T unit :=
  copy_modify_publish c
    (λ v, Some (Vec (std_stable_sort elt_less (elems v)) (vec_capacity v))).

(** ** class snapshot and class copy_on_write_vector: unchecked access *)

Definition snapshot_subscript (s : snapshot) (n : nat) : M T T :=
  v ← deref (snapshot_shared_container s);
  match vec_subscript n v with
  | Some x => mret x
  | None => undefined
  end.

Definition snapshot_front (s : snapshot) : M T T :=
  v ← deref (snapshot_shared_container s);
  match vec_front v with
  | Some x => mret x
  | None => undefined
  end.

Definition snapshot_back (s : snapshot) : M T T :=
  v ← deref (snapshot_shared_container s);
  match vec_back v with
  | Some x => mret x
  | None => undefined
  end.

Definition snapshot_empty (s : snapshot) : M T bool :=
  v ← deref (snapshot_shared_container s);
  mret (bool_decide (vec_size v = 0)).

Definition subscript (c : cid) (n : nat) : M T T :=
  with_lock c (λ s, snapshot_subscript s n).

Definition front (c : cid) : M T T := with_lock c snapshot_front.

Definition back (c : cid) : M T T := with_lock c snapshot_back.

Definition empty (c : cid) : M T bool := with_lock c snapshot_empty.

(** ** class copy_on_write_vector: copy construction and assignment

    None of these takes the mutex. *)

Definition new_container (p : loc) : M T cid := λ w,
  let c := fresh (dom (vectors w)) in
  Ok c (World (heap w) (<[c := Cow p false]> (vectors w))).

(* copy_on_write_vector(const copy_on_write_vector &other) *)
Definition copy_construct (other : cid) : M T cid :=
  with_lock other (λ s,
    v ← deref (snapshot_shared_container s);
    p ← make_shared (vec_copy v);
    new_container p).


(* operator=(copy_on_write_vector &&other): the vector of the new block is
   move-constructed from the vector of the block of other, which is left
   empty *)
Definition move_assign (c other : cid) : M T unit :=
  with_lock other (λ s,
    v ← deref (snapshot_shared_container s);
    p ← make_shared v;
    modify (snapshot_shared_container s) (λ _, Some (Vec [] 0));;
    set_shared_container c p).


(** ** operator== and operator!= of two containers: the vectors of the two
    blocks are compared as they are, without a snapshot *)

Definition compare (f : container_type T → container_type T → bool)
    (lhs rhs : cid) : M T bool :=
  p ← get_shared_container lhs;
  a ← deref p;
  q ← get_shared_container rhs;
  b ← deref q;
  mret (f a b).

Definition equal (lhs rhs : cid) : M T bool := compare vec_equal lhs rhs.

Definition not_equal (lhs rhs : cid) : M T bool :=
  compare (λ a b, negb (vec_equal a b)) lhs rhs.

(** ** class const_random_access_iterator

    An iterator owns a reference to the block, next to its position in the
    vector of that block. *)

Record const_random_access_iterator :=
  Cursor { cursor_shared_container : loc; cursor_itr : iterator }.

(* snapshot::begin(): iterator::begin receives a copy of the shared
   pointer *)
Definition snapshot_begin (s : snapshot) : M T const_random_access_iterator :=
  p ← shared_ptr_copy (snapshot_shared_container s);
  mret (Cursor p (Iter p 0)).

Definition snapshot_end (s : snapshot) : M T const_random_access_iterator :=
  p ← shared_ptr_copy (snapshot_shared_container s);
  v ← deref p;
  mret (Cursor p (Iter p (vec_size v))).

Definition cursor_destroy (it : const_random_access_iterator) : M T unit :=
  shared_ptr_release (cursor_shared_container it).

(* operator*() *)
Definition cursor_read (it : const_random_access_iterator) : M T T :=
  iter_read (cursor_itr it).

(* operator++(): the position must be before end() *)
Definition cursor_increment (it : const_random_access_iterator)
    : M T const_random_access_iterator :=
  v ← deref (it_container (cursor_itr it));
  if decide (it_index (cursor_itr it) < vec_size v)
  then mret (Cursor (cursor_shared_container it)
                    (Iter (it_container (cursor_itr it))
                          (S (it_index (cursor_itr it)))))
  else undefined.

(* operator!=: the two positions must be in the same vector *)
Definition cursor_not_equal (lhs rhs : const_random_access_iterator)
    : M T bool :=
  if decide (it_container (cursor_itr lhs) = it_container (cursor_itr rhs))
  then mret (bool_decide
               (it_index (cursor_itr lhs) ≠ it_index (cursor_itr rhs)))
  else undefined.

(* The loop of  for (elem : snapshot) body(elem);  from the position it to
   last.  n is the number of elements from it to the end of the vector:
   after n rounds it stands at end(), where one more round would
   dereference end().  The result lists the elements the body was run
   on. *)
Fixpoint range_for_loop (n : nat)
    (it last : const_random_access_iterator) (body : T → M T unit)
    (seen : list T) : M T (list T) :=
  more ← cursor_not_equal it last;
  if more : bool then
    match n with
    | 0 => undefined
    | S n' =>
        elem ← cursor_read it;
        body elem;;
        it' ← cursor_increment it;
        range_for_loop n' it' last body (seen ++ [elem])
    end
  else mret seen.

Definition range_for (s : snapshot) (body : T → M T unit)
    : M T (list T) :=
  it ← snapshot_begin s;
  last ← snapshot_end s;
  v ← deref (snapshot_shared_container s);
  seen ← range_for_loop (vec_size v) it last body [];
  cursor_destroy last;;
  cursor_destroy it;;
  mret seen.
End members.
End fe.

(** ** The mutators as data, for statements about sequences of calls *)

Section calls.
Context {T : Type} `{!Element T} `{!CapacityPolicy} `{!StdLibrary T}.

(* every member function of copy_on_write_vector that takes _mutex *)
Inductive mutator :=
| AssignFill (count : nat) (value : T)
| Assign (l : list T)
| Reserve (new_cap : nat)
| ShrinkToFit
| Clear
| InsertAt (index : nat) (value : T)
| InsertAtFill (index count : nat) (value : T)
| InsertAtRange (index : nat) (l : list T)
| EmplaceAt (index : nat) (value : T)
| Replace (old_value new_value : T)
| ReplaceAll (old_value new_value : T)
| ReplaceAt (index : nat) (value : T)
| ReplaceIf (pred : T → bool) (value : T)
| ReplaceAllIf (pred : T → bool) (value : T)
| Erase (value : T)
| EraseAll (value : T)
| EraseAt (index : nat)
| EraseRange (first last : nat)
| EraseIf (pred : T → bool)
| EraseAllIf (pred : T → bool)
| PushBack (value : T)
| PushBackRange (l : list T)
| PushBackIfAbsent (value : T)
| PushBackIfAbsentRange (l : list T)
| EmplaceBack (value : T)
| PopBack
| Resize (count : nat)
| ResizeFill (count : nat) (value : T)
| Swap (other : cid)
| SwapRaw (other : container_type T)
| Sort
| SortBy (comp : T → T → bool)
| StableSort
| StableSortBy (comp : T → T → bool).

(* the call c.m(...), its result dropped *)
Definition call (c : cid) (m : mutator) : M T unit :=
  match m with
  | AssignFill count value => fe.assign_fill c count value
  | Assign l => fe.assign c l
  | Reserve new_cap => fe.reserve c new_cap
  | ShrinkToFit => fe.shrink_to_fit c
  | Clear => fe.clear c
  | InsertAt index value => fe.insert_at c index value
  | InsertAtFill index count value => fe.insert_at_fill c index count value
  | InsertAtRange index l => fe.insert_at_range c index l
  | EmplaceAt index value => fe.emplace_at c index value
  | Replace old_value new_value => fe.replace c old_value new_value;; mret tt
  | ReplaceAll old_value new_value =>
      fe.replace_all c old_value new_value;; mret tt
  | ReplaceAt index value => fe.replace_at c index value
  | ReplaceIf pred value => fe.replace_if c pred value;; mret tt
  | ReplaceAllIf pred value => fe.replace_all_if c pred value;; mret tt
  | Erase value => fe.erase c value;; mret tt
  | EraseAll value => fe.erase_all c value;; mret tt
  | EraseAt index => fe.erase_at c index
  | EraseRange first last => fe.erase_range c first last
  | EraseIf pred => fe.erase_if c pred;; mret tt
  | EraseAllIf pred => fe.erase_all_if c pred;; mret tt
  | PushBack value => fe.push_back c value
  | PushBackRange l => fe.push_back_range c l
  | PushBackIfAbsent value => fe.push_back_if_absent c value;; mret tt
  | PushBackIfAbsentRange l => fe.push_back_if_absent_range c l;; mret tt
  | EmplaceBack value => fe.emplace_back c value
  | PopBack => fe.pop_back c
  | Resize count => fe.resize c count
  | ResizeFill count value => fe.resize_fill c count value
  | Swap other => fe.swap c other
  | SwapRaw other => fe.swap_raw c other;; mret tt
  | Sort => fe.sort c
  | SortBy comp => fe.sort_by c comp
  | StableSort => fe.stable_sort c
  | StableSortBy comp => fe.stable_sort_by c comp
  end.

(* a sequence of calls, each on a container of the store *)
Fixpoint calls (ops : list (cid * mutator)) : M T unit :=
  match ops with
  | [] => mret tt
  | (c, m) :: ops' => call c m;; calls ops'
  end.

(** ** Observations of a store *)

(* c is idle and refers to the live block p, which holds the vector v *)
Definition current (w : world T) (c : cid) (p : loc) (v : container_type T)
    : Prop :=
  ∃ k, vectors w !! c = Some (Cow p false)
       ∧ heap w !! p = Some (Block v (S k)).

(* the block the container refers to *)
Definition buffer (w : world T) (c : cid) : option loc :=
  _shared_container <$> vectors w !! c.

(* the element sequence of the container *)
Definition contents (w : world T) (c : cid) : option (list T) :=
  p ← buffer w c; b ← heap w !! p; Some (elems (object b)).

(* every container refers to a live block of its own: what the
   constructors establish, each by its own make_shared *)
Definition owned (w : world T) : Prop :=
  (∀ c o, vectors w !! c = Some o →
     ∃ v k, heap w !! _shared_container o = Some (Block v (S k)))
  ∧ (∀ c1 c2 o1 o2,
       vectors w !! c1 = Some o1 → vectors w !! c2 = Some o2 →
       _shared_container o1 = _shared_container o2 → c1 = c2).

(* the block p holds v and has a reference that no container accounts
   for: the one of a snapshot *)
Definition held (w : world T) (p : loc) (v : container_type T) : Prop :=
  ∃ k, heap w !! p = Some (Block v (S k))
       ∧ ((∃ c o, vectors w !! c = Some o ∧ _shared_container o = p)
          → 0 < k).

(* every mutex is released *)
Definition idle (w : world T) : Prop :=
  ∀ c o, vectors w !! c = Some o → _mutex o = false.

(* every block is the block of a container and has exactly one reference:
   no snapshot or iterator is alive and no block is leaked *)
Definition tight (w : world T) : Prop :=
  ∀ p b, heap w !! p = Some b →
    use_count b = 1
    ∧ ∃ c o, vectors w !! c = Some o ∧ _shared_container o = p.

(* the block p holds v and has m references that no container accounts
   for: those of snapshots and iterators *)
Definition held_by (m : nat) (w : world T) (p : loc) (v : container_type T)
    : Prop :=
  ∃ k, heap w !! p = Some (Block v k)
       ∧ m ≤ k
       ∧ ((∃ c o, vectors w !! c = Some o ∧ _shared_container o = p)
          → m < k).

(* a shared_ptr to p is dropped from the heap h *)
Definition release_block (p : loc) (h : gmap loc (shared_block T))
    : gmap loc (shared_block T) :=
  match h !! p with
  | Some b =>
      if decide (use_count b ≤ 1) then delete p h
      else <[p := Block (object b) (use_count b - 1)]> h
  | None => h
  end.

(* the store after c, which referred to p, was given the new block n
   holding v *)
Definition publish_at (n : loc) (c : cid) (p : loc) (v : container_type T)
    (w : world T) : world T :=
  World (release_block p (<[n := Block v 1]> (heap w)))
        (<[c := Cow n false]> (vectors w)).

Definition published (c : cid) (p : loc) (v : container_type T)
    (w : world T) : world T :=
  publish_at (fresh (dom (heap w))) c p v w.

(* what calls do to a store: nothing, or a container is given a new block
   and drops the one it referred to, or several such steps *)
Inductive effect : world T → world T → Prop :=
| effect_none w : effect w w
| effect_publish w n c p b v :
    vectors w !! c = Some (Cow p false) →
    heap w !! p = Some b →
    heap w !! n = None →
    effect w (publish_at n c p v w)
| effect_then w1 w2 w3 : effect w1 w2 → effect w2 w3 → effect w1 w3.

(* the store after a call on c that published at most one copy *)
Definition republished (c : cid) (w w' : world T) : Prop :=
  w' = w
  ∨ ∃ p b v', vectors w !! c = Some (Cow p false)
              ∧ heap w !! p = Some b
              ∧ w' = published c p v' w.

(* what one round of the loop of replace_all does to an element *)
Definition replaced (test : T → bool) (value x : T) : T :=
  if test x then value else x.

(* what one round of the loop of the ranged push_back_if_absent does to
   the vector and to the count *)
Definition add_absent (s : container_type T * nat) (x : T)
    : container_type T * nat :=
  if decide (std_find x (elems s.1) = vec_size s.1)
  then (vec_push_back x s.1, S s.2) else s.
End calls.

(** ** Concrete stores, over int elements and the libstdc++ policy *)

Definition Z_element : Element Z :=
  {| elt_eq := Z.eq_dec; elt_less := Z.ltb; elt_default := 0%Z |}.

(* libstdc++ on a 64-bit target, for an element of 4 bytes: max_size() is
   PTRDIFF_MAX / sizeof(int) = 2^61 - 1; the order std::sort gives
   equivalent elements is taken from the sort by insertion, which is what
   libstdc++ runs on ranges of at most 16 elements *)
Definition libstdcxx_library : StdLibrary Z :=
  {| max_size := 2305843009213693951; std_sort := std_stable_sort |}.

Section stores.
#[local] Existing Instance Z_element.
#[local] Existing Instance libstdcxx_policy.

(* one container, number 0, constructed from the list l *)
Definition store (l : list Z) : world Z :=
  World {[ 0%nat := Block (vec_of_list l) 1 ]} {[ 0%nat := Cow 0 false ]}.

(* two containers, 0 and 1, constructed from la and lb *)
Definition store2 (la lb : list Z) : world Z :=
  World {[ 0%nat := Block (vec_of_list la) 1;
           1%nat := Block (vec_of_list lb) 1 ]}
        {[ 0%nat := Cow 0 false; 1%nat := Cow 1 false ]}.

End stores.

(** ** Running the calls: equations for each shape of mutator *)

Section theory.
Context {T : Type} `{!Element T} `{!CapacityPolicy} `{!StdLibrary T}.
Implicit Types (w : world T) (v u : container_type T) (b : shared_block T).
Implicit Types (h : gmap loc (shared_block T)) (p q n : loc) (c : cid).

Local Abbreviation lookup_same := (lookup_insert_eq (K:=nat) (M:=gmap nat)).
Local Abbreviation lookup_other := (lookup_insert_ne (K:=nat) (M:=gmap nat)).
Local Abbreviation insert_twice := (insert_insert_eq (K:=nat) (M:=gmap nat)).
Local Abbreviation insert_same := (insert_id (K:=nat) (M:=gmap nat)).

Lemma fresh_ne (X : gset nat) p : p ∈ X → fresh X ≠ p.
Proof. intros Hp Heq. apply (is_fresh X). by rewrite Heq. Qed.

Lemma fresh_heap_None h : h !! fresh (dom h) = None.
Proof. apply not_elem_of_dom, is_fresh. Qed.

Lemma fresh_heap_ne h p b : h !! p = Some b → fresh (dom h) ≠ p.
Proof. intros Hp. apply fresh_ne. by eapply elem_of_dom_2. Qed.

Lemma dom_insert_live h p b b' :
  h !! p = Some b → dom (<[p := b']> h) = dom h.
Proof.
  intros Hp%elem_of_dom_2. rewrite dom_insert_L.
  apply set_eq. intros i. rewrite elem_of_union, elem_of_singleton.
  split; [by intros [->|?]|by right].
Qed.

Lemma release_block_insert_ne h p n b :
  n ≠ p → release_block p (<[n := b]> h) = <[n := b]> (release_block p h).
Proof.
  intros Hne. unfold release_block. rewrite lookup_other by done.
  destruct (h !! p) as [b'|]; [|done].
  case_decide.
  - by rewrite delete_insert_ne.
  - by rewrite insert_insert_ne.
Qed.

Lemma release_after_copy h p v k :
  release_block p (<[p := Block v (S (S k))]> h) = <[p := Block v (S k)]> h.
Proof.
  unfold release_block. rewrite lookup_same. cbn [use_count object].
  destruct (decide (S (S k) ≤ 1)); [lia|]. rewrite insert_twice.
  by replace (S (S k) - 1) with (S k) by lia.
Qed.

(** Each primitive, run on a store where it succeeds. *)

Lemma bind_Ok {A B} (m : M T A) (k : A → M T B) w a w' :
  m w = Ok a w' → (m ≫= k) w = k a w'.
Proof. intros Hm. unfold mbind, M_bind, bind. by rewrite Hm. Qed.

Lemma bind_Undefined {A B} (m : M T A) (k : A → M T B) w :
  m w = Undefined → (m ≫= k) w = Undefined.
Proof. intros Hm. unfold mbind, M_bind, bind. by rewrite Hm. Qed.

Lemma bind_assoc {A B C} (m : M T A) (k : A → M T B) (k' : B → M T C) w :
  ((m ≫= k) ≫= k') w = (m ≫= λ a, k a ≫= k') w.
Proof. unfold mbind, M_bind, bind. by destruct (m w). Qed.

Lemma mret_Ok {A} (a : A) w : (mret a : M T A) w = Ok a w.
Proof. done. Qed.

Lemma this_Ok c o w : vectors w !! c = Some o → this c w = Ok o w.
Proof. intros Hc. unfold this. by rewrite Hc. Qed.

Lemma get_shared_container_Ok c o w :
  vectors w !! c = Some o →
  get_shared_container c w = Ok (_shared_container o) w.
Proof.
  intros Hc. unfold get_shared_container.
  by rewrite (bind_Ok _ _ _ _ _ (this_Ok _ _ _ Hc)).
Qed.

Lemma deref_Ok p b w : heap w !! p = Some b → deref p w = Ok (object b) w.
Proof. intros Hp. unfold deref. by rewrite Hp. Qed.

Lemma make_shared_Ok v w :
  make_shared v w =
    Ok (fresh (dom (heap w)))
       (World (<[fresh (dom (heap w)) := Block v 1]> (heap w)) (vectors w)).
Proof. done. Qed.

Lemma modify_Ok p f b v' w :
  heap w !! p = Some b → f (object b) = Some v' →
  modify p f w =
    Ok tt (World (<[p := Block v' (use_count b)]> (heap w)) (vectors w)).
Proof. intros Hp Hf. unfold modify. by rewrite Hp, Hf. Qed.

Lemma modify_Undefined p f b w :
  heap w !! p = Some b → f (object b) = None → modify p f w = Undefined.
Proof. intros Hp Hf. unfold modify. by rewrite Hp, Hf. Qed.

Lemma shared_ptr_copy_Ok p b w :
  heap w !! p = Some b →
  shared_ptr_copy p w =
    Ok p (World (<[p := Block (object b) (S (use_count b))]> (heap w))
                (vectors w)).
Proof. intros Hp. unfold shared_ptr_copy. by rewrite Hp. Qed.

Lemma shared_ptr_release_Ok p b w :
  heap w !! p = Some b →
  shared_ptr_release p w =
    Ok tt (World (release_block p (heap w)) (vectors w)).
Proof.
  intros Hp. unfold shared_ptr_release, release_block. by rewrite Hp.
Qed.

Lemma set_shared_container_Ok c n o b w :
  vectors w !! c = Some o → heap w !! _shared_container o = Some b →
  set_shared_container c n w =
    Ok tt (World (release_block (_shared_container o) (heap w))
                 (<[c := Cow n (_mutex o)]> (vectors w))).
Proof.
  intros Hc Hp. unfold set_shared_container.
  rewrite (bind_Ok _ _ _ _ _ (this_Ok _ _ _ Hc)).
  unfold mbind, M_bind, bind, shared_ptr_release, release_block.
  cbn [heap vectors]. by rewrite Hp.
Qed.

Lemma mutex_lock_Ok c p w :
  vectors w !! c = Some (Cow p false) →
  mutex_lock c w =
    Ok tt (World (heap w) (<[c := Cow p true]> (vectors w))).
Proof. intros Hc. unfold mutex_lock. by rewrite Hc. Qed.

Lemma mutex_unlock_Ok c p w :
  vectors w !! c = Some (Cow p true) →
  mutex_unlock c w =
    Ok tt (World (heap w) (<[c := Cow p false]> (vectors w))).
Proof. intros Hc. unfold mutex_unlock. by rewrite Hc. Qed.

Lemma finally_Ok {A} (m : M T A) cleanup w a w' w'' :
  m w = Ok a w' → cleanup w' = Ok tt w'' → finally m cleanup w = Ok a w''.
Proof.
  intros Hm Hc. unfold finally, bind. by rewrite Hm, Hc.
Qed.

Lemma finally_Throw {A} (m : M T A) cleanup w e w' w'' :
  m w = Throw e w' → cleanup w' = Ok tt w'' →
  finally m cleanup w = Throw e w''.
Proof.
  intros Hm Hc. unfold finally, bind. by rewrite Hm, Hc.
Qed.

Lemma finally_Undefined {A} (m : M T A) cleanup w :
  m w = Undefined → finally m cleanup w = Undefined.
Proof. intros Hm. unfold finally. by rewrite Hm. Qed.

(* the body of a lock_guard scope runs with the mutex held and leaves it
   released *)
Lemma lock_guard_Ok {A} c (body : M T A) p p' a w w' :
  vectors w !! c = Some (Cow p false) →
  body (World (heap w) (<[c := Cow p true]> (vectors w))) = Ok a w' →
  vectors w' !! c = Some (Cow p' true) →
  lock_guard c body w =
    Ok a (World (heap w') (<[c := Cow p' false]> (vectors w'))).
Proof.
  intros Hc Hbody Hc'. unfold lock_guard.
  rewrite (bind_Ok _ _ _ _ _ (mutex_lock_Ok _ _ _ Hc)).
  eapply finally_Ok; [done|]. by apply mutex_unlock_Ok.
Qed.

Lemma lock_guard_Undefined {A} c (body : M T A) p w :
  vectors w !! c = Some (Cow p false) →
  body (World (heap w) (<[c := Cow p true]> (vectors w))) = Undefined →
  lock_guard c body w = Undefined.
Proof.
  intros Hc Hbody. unfold lock_guard.
  rewrite (bind_Ok _ _ _ _ _ (mutex_lock_Ok _ _ _ Hc)).
  by apply finally_Undefined.
Qed.

(* a call returns only on a store where the container is idle *)
Lemma lock_guard_returns {A} c (body : M T A) w a w' :
  lock_guard c body w = Ok a w' →
  ∃ p, vectors w !! c = Some (Cow p false).
Proof.
  unfold lock_guard, mbind, M_bind, bind, mutex_lock.
  destruct (vectors w !! c) as [[p []]|]; try done. eauto.
Qed.

Lemma lock_guard_body_returns {A} c (body : M T A) p w a w' :
  vectors w !! c = Some (Cow p false) →
  lock_guard c body w = Ok a w' →
  ∃ w'', body (World (heap w) (<[c := Cow p true]> (vectors w))) = Ok a w''.
Proof.
  intros Hc. unfold lock_guard.
  rewrite (bind_Ok _ _ _ _ _ (mutex_lock_Ok _ _ _ Hc)).
  unfold finally, bind.
  destruct (body _) as [a' w''|e w''|]; [|by destruct (mutex_unlock c w'')|done].
  destruct (mutex_unlock c w'') as [[] w3| |]; [|done..].
  intros [= -> _]. eauto.
Qed.

Lemma iter_read_Ok p i x b w :
  heap w !! p = Some b → elems (object b) !! i = Some x →
  iter_read (Iter p i) w = Ok x w.
Proof.
  intros Hp Hx. unfold iter_read.
  cbn [it_container it_index].
  rewrite (bind_Ok _ _ _ _ _ (deref_Ok _ _ _ Hp)). by rewrite Hx.
Qed.

Lemma iter_offset_Ok p i w : iter_offset (Iter p i) p w = Ok i w.
Proof.
  unfold iter_offset. cbn [it_container it_index]. by rewrite decide_True.
Qed.

Lemma vec_set_middle (pre : list T) x rest value cap :
  vec_set (length pre) value (Vec (pre ++ x :: rest) cap)
    = Some (Vec ((pre ++ [value]) ++ rest) cap).
Proof.
  unfold vec_set, vec_size. cbn [elems vec_capacity].
  rewrite decide_True by (rewrite length_app; simpl; lia).
  do 2 f_equal. rewrite insert_app_r_alt by lia.
  replace (length pre - length pre) with 0 by lia. simpl.
  by rewrite <- app_assoc.
Qed.

Create HintDb vector_ops.
#[local] Hint Resolve vec_set_middle : vector_ops.
#[local] Hint Resolve list_lookup_middle : vector_ops.

Ltac projections :=
  cbn [heap vectors object use_count _shared_container _mutex
       snapshot_shared_container it_container it_index elems vec_capacity].

Ltac lookups :=
  projections;
  repeat first
    [ rewrite lookup_same
    | rewrite insert_twice
    | rewrite lookup_other by solve_ne ];
  projections
with solve_ne :=
  first
    [ done
    | eapply fresh_heap_ne; lookups; first [eassumption | reflexivity]
    | apply not_eq_sym; eapply fresh_heap_ne; lookups;
      first [eassumption | reflexivity] ].

Ltac side :=
  lookups;
  first [eassumption | reflexivity | done | solve [eauto with vector_ops]].

Ltac prim :=
  first
    [ apply mret_Ok
    | apply make_shared_Ok
    | eapply get_shared_container_Ok; side
    | eapply this_Ok; side
    | eapply deref_Ok; side
    | eapply modify_Ok; [side | side]
    | apply iter_offset_Ok
    | eapply iter_read_Ok; [side | side]
    | eapply shared_ptr_copy_Ok; side
    | eapply shared_ptr_release_Ok; side
    | eapply set_shared_container_Ok; [side | side] ].

(* one statement of a body, run *)
Ltac mstep :=
  first [rewrite bind_assoc | erewrite bind_Ok by prim]; projections.
Ltac mrun := repeat mstep; try prim.

Lemma copy_modify_publish_eq c f w p v k :
  vectors w !! c = Some (Cow p false) →
  heap w !! p = Some (Block v k) →
  fe.copy_modify_publish c f w =
    match f (vec_copy v) with
    | Some v' => Ok tt (published c p v' w)
    | None => Undefined
    end.
Proof.
  intros Hc Hp. unfold fe.copy_modify_publish.
  destruct (f (vec_copy v)) as [v'|] eqn:Hf.
  - erewrite lock_guard_Ok; [|done| |].
    2:{ mrun. }
    2:{ side. }
    unfold published, publish_at. lookups. done.
  - eapply lock_guard_Undefined; [done|]. mrun. apply bind_Undefined.
    eapply modify_Undefined; [side|done].
Qed.


Lemma unlock_idle c p w :
  vectors w !! c = Some (Cow p false) →
  World (heap w) (<[c := Cow p false]> (<[c := Cow p true]> (vectors w))) = w.
Proof.
  intros Hc. rewrite insert_twice, insert_same by done. by destruct w.
Qed.

(** *** The mutators that can throw length_error *)

Lemma bind_Throw {A B} (m : M T A) (k : A → M T B) w e w' :
  m w = Throw e w' → (m ≫= k) w = Throw e w'.
Proof. intros Hm. unfold mbind, M_bind, bind. by rewrite Hm. Qed.

Lemma unwinding_Ok {A} (m : M T A) cleanup w a w' :
  m w = Ok a w' → unwinding m cleanup w = Ok a w'.
Proof. intros Hm. unfold unwinding. by rewrite Hm. Qed.

Lemma unwinding_Throw {A} (m : M T A) cleanup w e w' w'' :
  m w = Throw e w' → cleanup w' = Ok tt w'' →
  unwinding m cleanup w = Throw e w''.
Proof. intros Hm Hc. unfold unwinding, bind. by rewrite Hm, Hc. Qed.

Lemma unwinding_Undefined {A} (m : M T A) cleanup w :
  m w = Undefined → unwinding m cleanup w = Undefined.
Proof. intros Hm. unfold unwinding. by rewrite Hm. Qed.

Lemma modify_or_throw_Ok p f b v' w :
  heap w !! p = Some b → f (object b) = Some (inr v') →
  modify_or_throw p f w =
    Ok tt (World (<[p := Block v' (use_count b)]> (heap w)) (vectors w)).
Proof. intros Hp Hf. unfold modify_or_throw. by rewrite Hp, Hf. Qed.

Lemma modify_or_throw_Throw p f b e w :
  heap w !! p = Some b → f (object b) = Some (inl e) →
  modify_or_throw p f w = Throw e w.
Proof. intros Hp Hf. unfold modify_or_throw. by rewrite Hp, Hf. Qed.

Lemma modify_or_throw_Undefined p f b w :
  heap w !! p = Some b → f (object b) = None →
  modify_or_throw p f w = Undefined.
Proof. intros Hp Hf. unfold modify_or_throw. by rewrite Hp, Hf. Qed.

Lemma lock_guard_Throw {A} c (body : M T A) p e w :
  vectors w !! c = Some (Cow p false) →
  body (World (heap w) (<[c := Cow p true]> (vectors w)))
    = Throw e (World (heap w) (<[c := Cow p true]> (vectors w))) →
  lock_guard c body w = Throw e w.
Proof.
  intros Hc Hbody. unfold lock_guard.
  rewrite (bind_Ok _ _ _ _ _ (mutex_lock_Ok _ _ _ Hc)).
  erewrite finally_Throw; [|exact Hbody|].
  2:{ apply mutex_unlock_Ok. projections. apply lookup_same. }
  projections. f_equal. by apply unlock_idle.
Qed.

(* the copy that was made last is freed again *)
Lemma fresh_block_freed h v :
  release_block (fresh (dom h)) (<[fresh (dom h) := Block v 1]> h) = h.
Proof.
  unfold release_block. rewrite lookup_same. cbn [use_count].
  rewrite decide_True by lia.
  rewrite (delete_insert_eq (M:=gmap nat)).
  apply (delete_id (M:=gmap nat)), fresh_heap_None.
Qed.

Lemma copy_modify_publish_or_throw_eq c f w p v k :
  vectors w !! c = Some (Cow p false) →
  heap w !! p = Some (Block v k) →
  fe.copy_modify_publish_or_throw c f w =
    match f (vec_copy v) with
    | Some (inr v') => Ok tt (published c p v' w)
    | Some (inl e) => Throw e w
    | None => Undefined
    end.
Proof.
  intros Hc Hp. unfold fe.copy_modify_publish_or_throw.
  destruct (f (vec_copy v)) as [[e|v']|] eqn:Hf.
  - eapply lock_guard_Throw; [done|].
    do 3 mstep. apply bind_Throw.
    eapply unwinding_Throw.
    + eapply modify_or_throw_Throw; [side|done].
    + erewrite shared_ptr_release_Ok by side. projections.
      by rewrite fresh_block_freed.
  - erewrite lock_guard_Ok; [|done| |].
    2:{ do 3 mstep.
        erewrite bind_Ok
          by (apply unwinding_Ok; eapply modify_or_throw_Ok; [side|done]).
        projections. mrun. }
    2:{ side. }
    unfold published, publish_at. lookups. done.
  - eapply lock_guard_Undefined; [done|]. do 3 mstep. apply bind_Undefined.
    apply unwinding_Undefined.
    eapply modify_or_throw_Undefined; [side|done].
Qed.

Lemma std_find_if_le (pred : T → bool) (l : list T) :
  std_find_if pred l ≤ length l.
Proof. induction l as [|x l IH]; simpl; [lia|]. destruct (pred x); lia. Qed.

Lemma std_find_if_end (pred : T → bool) (l : list T) :
  std_find_if pred l = length l ↔ ∀ x, x ∈ l → pred x = false.
Proof.
  induction l as [|x l IH]; simpl.
  - split; [|done]. intros _ x Hx. by apply elem_of_nil in Hx.
  - destruct (pred x) eqn:Hx.
    + split; [done|]. intros Hall.
      specialize (Hall x (list_elem_of_here _ _)). congruence.
    + split.
      * intros Heq y [->|Hy]%elem_of_cons; [done|].
        apply IH; [lia|done].
      * intros Hall. f_equal. apply IH. intros y Hy. apply Hall.
        by apply list_elem_of_further.
Qed.

Lemma std_find_end (value : T) (l : list T) :
  std_find value l = length l ↔ value ∉ l.
Proof.
  unfold std_find. rewrite std_find_if_end. unfold equal_to. split.
  - intros Hall Hin. specialize (Hall _ Hin).
    by rewrite bool_decide_eq_false in Hall.
  - intros Hnin x Hx. apply bool_decide_eq_false. by intros ->.
Qed.

(* the mutators that search first and copy on a hit share this proof *)
Ltac search_then_copy Hc :=
  erewrite lock_guard_Ok; [|exact Hc| |];
  [|mstep; mstep; cbv zeta; case_decide; try (exfalso; done); mrun|side];
  first
    [ projections; f_equal; by apply unlock_idle
    | unfold published, publish_at; lookups; done ].

Lemma vec_set_copy i x v :
  i < vec_size v →
  vec_set i x (vec_copy v) =
    Some (Vec (<[i := x]> (elems v)) (vec_capacity (vec_copy v))).
Proof. intros Hi. unfold vec_set. by rewrite decide_True. Qed.

Lemma vec_erase_copy i v :
  i < vec_size v →
  vec_erase i (vec_copy v) =
    Some (Vec (delete i (elems v)) (vec_capacity (vec_copy v))).
Proof. intros Hi. unfold vec_erase. by rewrite decide_True. Qed.

Lemma erase_if_eq c pred w p v k :
  vectors w !! c = Some (Cow p false) →
  heap w !! p = Some (Block v k) →
  fe.erase_if c pred w =
    let it := std_find_if pred (elems v) in
    if decide (it = vec_size v) then Ok false w
    else Ok true (published c p
                    (Vec (delete it (elems v)) (vec_capacity (vec_copy v))) w).
Proof.
  intros Hc Hp. unfold fe.erase_if. cbv zeta.
  pose proof (std_find_if_le pred (elems v)) as Hle.
  pose proof (vec_erase_copy (std_find_if pred (elems v)) v) as Hcopy.
  case_decide; [|specialize (Hcopy ltac:(unfold vec_size in *; lia))];
    search_then_copy Hc.
Qed.

Lemma erase_eq c value w p v k :
  vectors w !! c = Some (Cow p false) →
  heap w !! p = Some (Block v k) →
  fe.erase c value w =
    let it := std_find value (elems v) in
    if decide (it = vec_size v) then Ok false w
    else Ok true (published c p
                    (Vec (delete it (elems v)) (vec_capacity (vec_copy v))) w).
Proof.
  intros Hc Hp. unfold fe.erase. cbv zeta.
  pose proof (std_find_if_le (equal_to value) (elems v)) as Hle.
  pose proof (vec_erase_copy (std_find value (elems v)) v) as Hcopy.
  unfold std_find in *.
  case_decide; [|specialize (Hcopy ltac:(unfold vec_size in *; lia))];
    search_then_copy Hc.
Qed.

Lemma replace_if_eq c pred value w p v k :
  vectors w !! c = Some (Cow p false) →
  heap w !! p = Some (Block v k) →
  fe.replace_if c pred value w =
    let it := std_find_if pred (elems v) in
    if decide (it = vec_size v) then Ok false w
    else Ok true (published c p
                    (Vec (<[it := value]> (elems v))
                         (vec_capacity (vec_copy v))) w).
Proof.
  intros Hc Hp. unfold fe.replace_if. cbv zeta.
  pose proof (std_find_if_le pred (elems v)) as Hle.
  pose proof (vec_set_copy (std_find_if pred (elems v)) value v) as Hcopy.
  case_decide; [|specialize (Hcopy ltac:(unfold vec_size in *; lia))];
    search_then_copy Hc.
Qed.

Lemma replace_eq c old_value new_value w p v k :
  vectors w !! c = Some (Cow p false) →
  heap w !! p = Some (Block v k) →
  fe.replace c old_value new_value w =
    let it := std_find old_value (elems v) in
    if decide (it = vec_size v) then Ok false w
    else Ok true (published c p
                    (Vec (<[it := new_value]> (elems v))
                         (vec_capacity (vec_copy v))) w).
Proof.
  intros Hc Hp. unfold fe.replace. cbv zeta.
  pose proof (std_find_if_le (equal_to old_value) (elems v)) as Hle.
  pose proof (vec_set_copy (std_find old_value (elems v)) new_value v)
    as Hcopy.
  unfold std_find in *.
  case_decide; [|specialize (Hcopy ltac:(unfold vec_size in *; lia))];
    search_then_copy Hc.
Qed.

Lemma push_back_if_absent_eq c value w p v k :
  vectors w !! c = Some (Cow p false) →
  heap w !! p = Some (Block v k) →
  fe.push_back_if_absent c value w =
    if decide (std_find value (elems v) ≠ vec_size v) then Ok false w
    else Ok true (published c p (vec_push_back value (vec_copy v)) w).
Proof.
  intros Hc Hp. unfold fe.push_back_if_absent. cbv zeta.
  case_decide; search_then_copy Hc.
Qed.

Lemma filter_split_length (test : T → bool) (l : list T) :
  length (List.filter test l)
    + length (List.filter (λ x, negb (test x)) l) = length l.
Proof.
  induction l as [|x l IH]; simpl; [done|]. destruct (test x); simpl; lia.
Qed.

(* erase(it, end()) after std::remove_if leaves the kept elements *)
Lemma erase_removed (test : T → bool) (l : list T) (cap : nat) :
  let kept := List.filter (λ x, negb (test x)) l in
  let moved := Vec (kept ++ drop (length kept) l) cap in
  vec_erase_range (length kept) (vec_size moved) moved = Some (Vec kept cap)
  ∧ vec_size moved - length kept = length (List.filter test l).
Proof.
  intros kept moved. pose proof (filter_split_length test l) as Hlen.
  fold kept in Hlen.
  assert (vec_size moved = length l) as Hsize.
  { unfold vec_size, moved. simpl. rewrite length_app, length_drop. lia. }
  split; [|lia]. unfold vec_erase_range.
  rewrite decide_True by lia. rewrite Hsize. subst moved.
  cbn [elems vec_capacity]. do 2 f_equal. rewrite take_app_length.
  rewrite drop_ge; [by rewrite app_nil_r|].
  rewrite length_app, length_drop. lia.
Qed.

Lemma remove_erase_eq c test w p v k :
  vectors w !! c = Some (Cow p false) →
  heap w !! p = Some (Block v k) →
  fe.remove_erase c test w =
    Ok (length (List.filter test (elems v)))
       (published c p
          (Vec (List.filter (λ x, negb (test x)) (elems v))
               (vec_capacity (vec_copy v))) w).
Proof.
  intros Hc Hp. unfold fe.remove_erase.
  destruct (erase_removed test (elems v) (vec_capacity (vec_copy v)))
    as [Herase Hcount].
  erewrite lock_guard_Ok; [|exact Hc| |].
  2:{ do 4 mstep. change (elems (vec_copy v)) with (elems v).
      unfold std_remove_if. cbv beta iota zeta.
      do 2 mstep. cbv zeta.
      erewrite bind_Ok by (eapply modify_Ok; [side|lookups; exact Herase]).
      projections. rewrite Hcount. mrun. }
  2:{ side. }
  unfold published, publish_at; lookups; done.
Qed.

(** *** The loop of replace_all and replace_all_if *)

Ltac heap_eq :=
  apply (map_eq (M:=gmap nat)); intros ?;
  repeat rewrite (lookup_insert (K:=nat) (M:=gmap nat));
  repeat case_decide; simplify_eq; done.

(* once the copy exists, the rest of the range is rewritten in the copy *)
Lemma replace_all_loop_copied shared test value n cap cnt (rest : list T) :
  ∀ (pre : list T) r w,
    r ≠ 0 →
    heap w !! n = Some (Block (Vec (pre ++ rest) cap) cnt) →
    fe.replace_all_loop shared test value (length rest)
        (Iter n (length pre)) n r w =
      Ok (n, r + length (List.filter test rest))
         (World (<[n := Block (Vec (pre ++ map (replaced test value) rest)
                                   cap) cnt]> (heap w))
                (vectors w)).
Proof.
  induction rest as [|x rest IH]; intros pre r w Hr Hn.
  - simpl. rewrite insert_same by done. rewrite Nat.add_0_r. by destruct w.
  - cbn [length fe.replace_all_loop]. mstep.
    cbn [map List.filter]. unfold replaced at 1.
    destruct (test x) eqn:Hx.
    + destruct (decide (r = 0)) as [?|_]; [done|]. mrun.
      replace (S (length pre)) with (length (pre ++ [value]))
        by (rewrite length_app; simpl; lia).
      erewrite IH; [|done|by lookups]. projections.
      rewrite insert_twice. rewrite <- app_assoc. simpl.
      do 2 f_equal. lia.
    + mrun.
      replace (S (length pre)) with (length (pre ++ [x]))
        by (rewrite length_app; simpl; lia).
      erewrite IH; [|done|by rewrite <- app_assoc].
      by rewrite <- app_assoc.
Qed.

Lemma release_shared h p n b v k :
  h !! p = Some (Block v (S (S k))) → n ≠ p →
  release_block p (<[n := b]> h) = <[p := Block v (S k)]> (<[n := b]> h).
Proof.
  intros Hp Hne. unfold release_block. rewrite lookup_other by done.
  rewrite Hp. cbn [use_count object].
  destruct (decide (S (S k) ≤ 1)); [lia|].
  by replace (S (S k) - 1) with (S k) by lia.
Qed.

(* before the first hit the range is read from the shared vector; the first
   hit makes the copy, and the extra reference to the shared block is
   given up *)
Lemma replace_all_loop_shared p test value cap k (rest : list T) :
  ∀ (pre : list T) w,
    heap w !! p = Some (Block (Vec (pre ++ rest) cap) (S (S k))) →
    fe.replace_all_loop p test value (length rest)
        (Iter p (length pre)) p 0 w =
      if decide (length (List.filter test rest) = 0) then Ok (p, 0) w
      else
        let n := fresh (dom (heap w)) in
        Ok (n, length (List.filter test rest))
           (World (<[n := Block
                       (Vec (pre ++ map (replaced test value) rest)
                            (cap_construct (length (pre ++ rest)))) 1]>
                     (<[p := Block (Vec (pre ++ rest) cap) (S k)]> (heap w)))
                  (vectors w)).
Proof.
  induction rest as [|x rest IH]; intros pre w Hp; [done|].
  cbn [length fe.replace_all_loop]. mstep. cbn [List.filter].
  destruct (test x) eqn:Hx.
  - cbn [length].
    destruct (decide (S _ = 0)) as [?|_]; [lia|].
    destruct (decide (0 = 0)) as [_|?]; [|done]. cbv zeta.
    pose proof (fresh_heap_ne _ _ _ Hp) as Hne.
    mrun. erewrite release_shared by done.
    unfold vec_copy, vec_of_list. projections. mrun.
    replace (S (length pre)) with (length (pre ++ [value]))
      by (rewrite length_app; simpl; lia).
    erewrite replace_all_loop_copied; [|done|by lookups]. projections.
    cbn [map]. unfold replaced at 2. rewrite Hx.
    rewrite <- app_assoc. simpl. do 2 f_equal. heap_eq.
  - mrun.
    replace (S (length pre)) with (length (pre ++ [x]))
      by (rewrite length_app; simpl; lia).
    erewrite IH by (by rewrite <- app_assoc).
    cbn [map]. unfold replaced at 2. rewrite Hx.
    by rewrite <- !app_assoc.
Qed.

Lemma replace_all_if_eq c test value w p v k :
  vectors w !! c = Some (Cow p false) →
  heap w !! p = Some (Block v (S k)) →
  fe.replace_all_if c test value w =
    let r := length (List.filter test (elems v)) in
    if decide (r = 0) then Ok 0 w
    else Ok r (published c p
                 (Vec (map (replaced test value) (elems v))
                      (vec_capacity (vec_copy v))) w).
Proof.
  intros Hc Hp. unfold fe.replace_all_if. cbv zeta.
  destruct v as [xs cap]. unfold vec_size. projections.
  pose proof (replace_all_loop_shared p test value cap k xs []
    (World (<[p := Block (Vec xs cap) (S (S k))]> (heap w))
           (<[c := Cow p true]> (vectors w)))) as Hloop.
  cbn [length app heap vectors] in Hloop.
  rewrite (dom_insert_live _ _ _ _ Hp) in Hloop.
  specialize (Hloop (lookup_same _ _ _)).
  pose proof (fresh_heap_ne _ _ _ Hp) as Hne.
  case_decide.
  - erewrite lock_guard_Ok; [|exact Hc| |].
    2:{ do 3 mstep. rewrite (bind_Ok _ _ _ _ _ Hloop). mrun. }
    2:{ side. }
    lookups. erewrite release_after_copy.
    rewrite !insert_same by done. by destruct w.
  - erewrite lock_guard_Ok; [|exact Hc| |].
    2:{ do 3 mstep. rewrite (bind_Ok _ _ _ _ _ Hloop). mrun. }
    2:{ side. }
    unfold published, publish_at. lookups.
    by rewrite (insert_same (heap w) p) by done.
Qed.

Lemma replace_all_eq c old_value new_value w p v k :
  vectors w !! c = Some (Cow p false) →
  heap w !! p = Some (Block v (S k)) →
  fe.replace_all c old_value new_value w =
    let r := length (List.filter (equal_to old_value) (elems v)) in
    if decide (r = 0) then Ok 0 w
    else Ok r (published c p
                 (Vec (map (replaced (equal_to old_value) new_value)
                           (elems v))
                      (vec_capacity (vec_copy v))) w).
Proof. apply replace_all_if_eq. Qed.

(** *** The loop of the ranged push_back_if_absent *)

Lemma add_absent_count (l : list T) :
  ∀ (s : container_type T * nat), s.2 ≤ (foldl add_absent s l).2.
Proof.
  induction l as [|x l IH]; intros s; simpl; [done|].
  etrans; [|apply IH]. unfold add_absent. case_decide; simpl; lia.
Qed.

Lemma push_back_if_absent_loop_copied n cnt (l : list T) :
  ∀ v r w,
    r ≠ 0 →
    heap w !! n = Some (Block v cnt) →
    fe.push_back_if_absent_loop l n r w =
      Ok (n, (foldl add_absent (v, r) l).2)
         (World (<[n := Block (foldl add_absent (v, r) l).1 cnt]> (heap w))
                (vectors w)).
Proof.
  induction l as [|x l IH]; intros v r w Hr Hn.
  - simpl. rewrite insert_same by done. by destruct w.
  - cbn [fe.push_back_if_absent_loop foldl]. mstep. cbv zeta.
    unfold add_absent at 2 4. cbn [fst snd].
    case_decide.
    + destruct (decide (r = 0)) as [?|_]; [done|]. mrun.
      erewrite IH; [|done|by lookups]. projections.
      by rewrite insert_twice.
    + mrun. by erewrite IH.
Qed.

Lemma push_back_if_absent_loop_shared p v k (l : list T) :
  ∀ w,
    heap w !! p = Some (Block v (S (S k))) →
    fe.push_back_if_absent_loop l p 0 w =
      let s := foldl add_absent (vec_copy v, 0) l in
      if decide (s.2 = 0) then Ok (p, 0) w
      else
        let n := fresh (dom (heap w)) in
        Ok (n, s.2)
           (World (<[n := Block s.1 1]> (<[p := Block v (S k)]> (heap w)))
                  (vectors w)).
Proof.
  induction l as [|x l IH]; intros w Hp; [done|].
  cbn [fe.push_back_if_absent_loop foldl]. mstep. cbv zeta.
  destruct (decide (std_find x (elems v) = vec_size v)) as [Hx|Hx].
  - assert (add_absent (vec_copy v, 0) x
            = (vec_push_back x (vec_copy v), 1)) as ->.
    { unfold add_absent. cbn [fst snd]. by rewrite decide_True. }
    destruct (decide (0 = 0)) as [_|?]; [|done].
    pose proof (fresh_heap_ne _ _ _ Hp) as Hne.
    pose proof (add_absent_count l (vec_push_back x (vec_copy v), 1))
      as Hcount. cbn [snd] in Hcount.
    destruct (decide (_ = 0)) as [?|_]; [lia|].
    mrun. erewrite release_shared by done. mrun.
    erewrite push_back_if_absent_loop_copied; [|done|by lookups].
    projections. do 2 f_equal. heap_eq.
  - assert (add_absent (vec_copy v, 0) x = (vec_copy v, 0)) as ->.
    { unfold add_absent. cbn [fst snd]. by rewrite decide_False. }
    mrun. by erewrite IH.
Qed.

Lemma push_back_if_absent_range_eq c l w p v k :
  vectors w !! c = Some (Cow p false) →
  heap w !! p = Some (Block v (S k)) →
  fe.push_back_if_absent_range c l w =
    let s := foldl add_absent (vec_copy v, 0) l in
    if decide (s.2 = 0) then Ok 0 w else Ok s.2 (published c p s.1 w).
Proof.
  intros Hc Hp. unfold fe.push_back_if_absent_range. cbv zeta.
  pose proof (push_back_if_absent_loop_shared p v k l
    (World (<[p := Block v (S (S k))]> (heap w))
           (<[c := Cow p true]> (vectors w)))) as Hloop.
  cbn [heap vectors] in Hloop.
  rewrite (dom_insert_live _ _ _ _ Hp) in Hloop.
  specialize (Hloop (lookup_same _ _ _)). cbv zeta in Hloop.
  pose proof (fresh_heap_ne _ _ _ Hp) as Hne.
  case_decide.
  - erewrite lock_guard_Ok; [|exact Hc| |].
    2:{ do 2 mstep. rewrite (bind_Ok _ _ _ _ _ Hloop). mrun. }
    2:{ side. }
    lookups. erewrite release_after_copy.
    rewrite !insert_same by done. by destruct w.
  - erewrite lock_guard_Ok; [|exact Hc| |].
    2:{ do 2 mstep. rewrite (bind_Ok _ _ _ _ _ Hloop). mrun. }
    2:{ side. }
    unfold published, publish_at. lookups.
    by rewrite (insert_same (heap w) p) by done.
Qed.

(** *** Reading through lock() *)

Lemma lock_Ok c o v k w :
  vectors w !! c = Some o →
  heap w !! _shared_container o = Some (Block v k) →
  fe.lock c w =
    Ok (Snapshot (_shared_container o))
       (World (<[_shared_container o := Block v (S k)]> (heap w))
              (vectors w)).
Proof. intros Hc Hp. unfold fe.lock. by mrun. Qed.

(* the temporary snapshot of lock().f() leaves the store as it was *)
Lemma with_lock_Ok {A} c (f : snapshot → M T A) o v k a w :
  vectors w !! c = Some o →
  heap w !! _shared_container o = Some (Block v (S k)) →
  (∀ w', heap w' !! _shared_container o = Some (Block v (S (S k))) →
         f (Snapshot (_shared_container o)) w' = Ok a w') →
  fe.with_lock c f w = Ok a w.
Proof.
  intros Hc Hp Hf. unfold fe.with_lock.
  rewrite (bind_Ok _ _ _ _ _ (lock_Ok _ _ _ _ _ Hc Hp)).
  erewrite finally_Ok; [done|by apply Hf, lookup_same|].
  unfold fe.snapshot_destroy. projections.
  erewrite shared_ptr_release_Ok by apply lookup_same. projections.
  rewrite release_after_copy, insert_same by done. by destruct w.
Qed.

Lemma with_lock_Throw {A} c (f : snapshot → M T A) o v k e w :
  vectors w !! c = Some o →
  heap w !! _shared_container o = Some (Block v (S k)) →
  (∀ w', heap w' !! _shared_container o = Some (Block v (S (S k))) →
         f (Snapshot (_shared_container o)) w' = Throw e w') →
  fe.with_lock c f w = Throw e w.
Proof.
  intros Hc Hp Hf. unfold fe.with_lock.
  rewrite (bind_Ok _ _ _ _ _ (lock_Ok _ _ _ _ _ Hc Hp)).
  erewrite finally_Throw; [done|by apply Hf, lookup_same|].
  unfold fe.snapshot_destroy. projections.
  erewrite shared_ptr_release_Ok by apply lookup_same. projections.
  rewrite release_after_copy, insert_same by done. by destruct w.
Qed.

Lemma snapshot_at_eq s n b w :
  heap w !! snapshot_shared_container s = Some b →
  fe.snapshot_at s n w =
    match elems (object b) !! n with
    | Some x => Ok x w
    | None => Throw out_of_range w
    end.
Proof.
  intros Hs. unfold fe.snapshot_at. mstep. unfold vec_at.
  by destruct (elems (object b) !! n).
Qed.

Lemma snapshot_size_eq s b w :
  heap w !! snapshot_shared_container s = Some b →
  fe.snapshot_size s w = Ok (vec_size (object b)) w.
Proof. intros Hs. unfold fe.snapshot_size. by mrun. Qed.

Lemma snapshot_capacity_eq s b w :
  heap w !! snapshot_shared_container s = Some b →
  fe.snapshot_capacity s w = Ok (vec_capacity (object b)) w.
Proof. intros Hs. unfold fe.snapshot_capacity. by mrun. Qed.

Lemma snapshot_elements_eq s b w :
  heap w !! snapshot_shared_container s = Some b →
  fe.snapshot_elements s w = Ok (elems (object b)) w.
Proof. intros Hs. unfold fe.snapshot_elements. by mrun. Qed.

Lemma size_eq c o v k w :
  vectors w !! c = Some o →
  heap w !! _shared_container o = Some (Block v (S k)) →
  fe.size c w = Ok (vec_size v) w.
Proof.
  intros Hc Hp. unfold fe.size. eapply (with_lock_Ok c _ o v k); [exact Hc|exact Hp|].
  intros w' Hw'. by rewrite (snapshot_size_eq (Snapshot _) _ _ Hw').
Qed.

Lemma capacity_eq c o v k w :
  vectors w !! c = Some o →
  heap w !! _shared_container o = Some (Block v (S k)) →
  fe.capacity c w = Ok (vec_capacity v) w.
Proof.
  intros Hc Hp. unfold fe.capacity. eapply (with_lock_Ok c _ o v k); [exact Hc|exact Hp|].
  intros w' Hw'. by rewrite (snapshot_capacity_eq (Snapshot _) _ _ Hw').
Qed.

Lemma get_allocator_eq c o v k w :
  vectors w !! c = Some o →
  heap w !! _shared_container o = Some (Block v (S k)) →
  fe.get_allocator c w = Ok tt w.
Proof.
  intros Hc Hp. unfold fe.get_allocator. eapply (with_lock_Ok c _ o v k); [exact Hc|exact Hp|].
  intros w' Hw'. unfold fe.snapshot_get_allocator. by mrun.
Qed.

Lemma clear_eq c w p v k :
  vectors w !! c = Some (Cow p false) →
  heap w !! p = Some (Block v (S k)) →
  fe.clear c w =
    Ok tt (published c p (vec_reserve (vec_capacity v) vec_empty) w).
Proof.
  intros Hc Hp. unfold fe.clear.
  erewrite lock_guard_Ok; [|exact Hc| |].
  2:{ erewrite bind_Ok
        by (eapply (get_allocator_eq _ (Cow p true)); by lookups).
      mrun. }
  2:{ side. }
  unfold published, publish_at. by lookups.
Qed.

(** *** swap *)

Ltac vectors_eq :=
  apply (map_eq (M:=gmap nat)); intros ?;
  repeat rewrite (lookup_insert (K:=nat) (M:=gmap nat));
  repeat case_decide; simplify_eq; done.

(* the two copies are built and exchanged, and the store after that *)
Lemma swap_copies c other w p q v u k1 k2 :
  c ≠ other →
  vectors w !! c = Some (Cow p false) →
  vectors w !! other = Some (Cow q false) →
  heap w !! p = Some (Block v k1) →
  heap w !! q = Some (Block u k2) →
  let n1 := fresh (dom (heap w)) in
  let n2 := fresh (dom (<[n1 := Block (vec_copy v) 1]> (heap w))) in
  ∀ A (rest : loc → M T A),
    (p' ← get_shared_container c;
     v' ← deref p';
     copied_container ← make_shared (vec_copy v');
     q' ← get_shared_container other;
     u' ← deref q';
     other_copied_container ← make_shared (vec_copy u');
     a ← deref copied_container;
     b ← deref other_copied_container;
     modify copied_container (λ _, Some b);;
     modify other_copied_container (λ _, Some a);;
     set_shared_container c copied_container;;
     rest other_copied_container)
      (World (heap w)
             (<[other := Cow q true]> (<[c := Cow p true]> (vectors w))))
    = rest n2
        (World (<[n2 := Block (vec_copy v) 1]>
                  (<[n1 := Block (vec_copy u) 1]>
                     (release_block p (heap w))))
               (<[c := Cow n1 true]>
                  (<[other := Cow q true]>
                     (<[c := Cow p true]> (vectors w))))).
Proof.
  intros Hne Hc Ho Hp Hq n1 n2 A rest.
  assert (other ≠ c) as Hne' by done.
  pose proof (fresh_heap_ne _ _ _ Hp) as Hn1p.
  pose proof (fresh_heap_ne _ _ _ Hq) as Hn1q.
  assert (n2 ≠ n1) as Hn21.
  { eapply fresh_heap_ne. apply lookup_same. }
  assert (n2 ≠ p) as Hn2p.
  { eapply fresh_heap_ne. by rewrite lookup_other. }
  subst n1 n2. mrun. do 2 f_equal.
  rewrite <- !release_block_insert_ne by done. f_equal. heap_eq.
Qed.

Lemma swap_eq c other w p q v u k1 k2 bq :
  c ≠ other →
  vectors w !! c = Some (Cow p false) →
  vectors w !! other = Some (Cow q false) →
  heap w !! p = Some (Block v k1) →
  heap w !! q = Some (Block u k2) →
  release_block p (heap w) !! q = Some bq →
  let n1 := fresh (dom (heap w)) in
  let n2 := fresh (dom (<[n1 := Block (vec_copy v) 1]> (heap w))) in
  fe.swap c other w =
    Ok tt (publish_at n2 other q (vec_copy v)
             (publish_at n1 c p (vec_copy u) w)).
Proof.
  intros Hne Hc Ho Hp Hq Hsurv n1 n2.
  assert (other ≠ c) as Hne' by done.
  pose proof (fresh_heap_ne _ _ _ Hp) as Hn1p.
  pose proof (fresh_heap_ne _ _ _ Hq) as Hn1q.
  assert (n2 ≠ n1) as Hn21.
  { eapply fresh_heap_ne. apply lookup_same. }
  assert (n2 ≠ q) as Hn2q.
  { eapply fresh_heap_ne. by rewrite lookup_other. }
  unfold fe.swap.
  erewrite lock_guard_Ok; [|exact Hc| |].
  2:{ erewrite lock_guard_Ok; [|by lookups| |].
      2:{ projections.
          etrans;
            [exact (swap_copies c other w p q v u k1 k2 Hne Hc Ho Hp Hq _
                      (λ n, set_shared_container other n))|].
          fold n1 n2. eapply set_shared_container_Ok; [by lookups|].
          lookups. exact Hsurv. }
      2:{ by lookups. }
      done. }
  2:{ by lookups. }
  unfold publish_at. projections. f_equal. f_equal.
  - rewrite (release_block_insert_ne _ p n1) by done. done.
  - vectors_eq.
Qed.

Lemma swap_returns c other w r w' :
  fe.swap c other w = Ok r w' →
  c ≠ other ∧ ∃ p q,
    vectors w !! c = Some (Cow p false)
    ∧ vectors w !! other = Some (Cow q false).
Proof.
  intros Hrun. destruct (lock_guard_returns _ _ _ _ _ Hrun) as [p Hc].
  destruct (lock_guard_body_returns _ _ _ _ _ _ Hc Hrun) as [w1 Hinner].
  destruct (lock_guard_returns _ _ _ _ _ Hinner) as [q Ho].
  cbn [heap vectors] in Ho.
  assert (c ≠ other) as Hne.
  { intros ->. by rewrite lookup_same in Ho. }
  rewrite lookup_other in Ho by done. eauto.
Qed.

Lemma swap_raw_eq c other w p v k :
  vectors w !! c = Some (Cow p false) →
  heap w !! p = Some (Block v k) →
  fe.swap_raw c other w = Ok (vec_copy v) (published c p other w).
Proof.
  intros Hc Hp. unfold fe.swap_raw.
  erewrite lock_guard_Ok; [|exact Hc| |].
  2:{ mrun. }
  2:{ side. }
  unfold published, publish_at. by lookups.
Qed.

(** ** What a published copy looks like *)

Lemma published_current c p v v' k w :
  vectors w !! c = Some (Cow p false) →
  heap w !! p = Some (Block v k) →
  current (published c p v' w) c (fresh (dom (heap w))) v'.
Proof.
  intros Hc Hp. exists 0. unfold published, publish_at. projections.
  split; [apply lookup_same|].
  rewrite release_block_insert_ne by (by eapply fresh_heap_ne).
  apply lookup_same.
Qed.

Lemma current_buffer w c p v : current w c p v → buffer w c = Some p.
Proof. intros (k & Hc & _). unfold buffer. by rewrite Hc. Qed.

Lemma current_contents w c p v :
  current w c p v → contents w c = Some (elems v).
Proof.
  intros (k & Hc & Hp). unfold contents, buffer. rewrite Hc. simpl.
  by rewrite Hp.
Qed.

Lemma current_fresh w c p v : current w c p v → fresh (dom (heap w)) ≠ p.
Proof. intros (k & _ & Hp). by eapply fresh_heap_ne. Qed.

Lemma count_equal_to (value : T) (l : list T) :
  length (List.filter (equal_to value) l)
    = count_occ (λ x y : T, decide (x = y)) l value.
Proof.
  induction l as [|x l IH]; simpl; [done|]. unfold equal_to at 1.
  destruct (decide (x = value)) as [->|Hne].
  - rewrite bool_decide_eq_true_2 by done. simpl. by rewrite IH.
  - by rewrite bool_decide_eq_false_2.
Qed.

Lemma filter_none (test : T → bool) (l : list T) :
  (∀ x, x ∈ l → test x = false) → List.filter test l = [].
Proof.
  induction l as [|x l IH]; intros Hall; simpl; [done|].
  rewrite (Hall x) by apply list_elem_of_here.
  apply IH. intros y Hy. apply Hall. by apply list_elem_of_further.
Qed.

Lemma filter_all (test : T → bool) (l : list T) :
  (∀ x, x ∈ l → test x = true) → List.filter test l = l.
Proof.
  induction l as [|x l IH]; intros Hall; simpl; [done|].
  rewrite (Hall x) by apply list_elem_of_here.
  f_equal. apply IH. intros y Hy. apply Hall. by apply list_elem_of_further.
Qed.

Lemma add_absent_present (v : container_type T) (l : list T) :
  (∀ x, x ∈ l → x ∈ elems v) → foldl add_absent (v, 0) l = (v, 0).
Proof.
  induction l as [|x l IH]; intros Hall; simpl; [done|].
  assert (add_absent (v, 0) x = (v, 0)) as ->.
  { unfold add_absent. cbn [fst snd]. rewrite decide_False; [done|].
    unfold vec_size. rewrite std_find_end. intros Hnin. apply Hnin.
    apply Hall, list_elem_of_here. }
  apply IH. intros y Hy. apply Hall. by apply list_elem_of_further.
Qed.
(** ** Properties of single calls *)

(** C7. erase(value) on a container none of whose elements equals the
    value returns false and leaves the store exactly as it was: the
    container refers to the same block as before, no block is allocated
    and no use count changes. *)
Theorem erase_absent_same_buffer w c p v value :
  current w c p v → value ∉ elems v →
  fe.erase c value w = Ok false w
  ∧ buffer w c = Some p.
Proof.
  intros Hcur Hnin. split; [|by eapply current_buffer].
  destruct Hcur as (k & Hc & Hp).
  rewrite (erase_eq _ _ _ _ _ _ Hc Hp). cbv zeta.
  rewrite decide_True; [done|]. by apply std_find_end.
Qed.

(** C6. Two calls of push_back_if_absent(v) in succession: both return,
    the second returns false and changes nothing, and the size after the
    two calls exceeds the size before them by at most one. *)
Theorem push_back_if_absent_twice w c p v value :
  current w c p v →
  ∃ r1 w1 xs1,
    fe.push_back_if_absent c value w = Ok r1 w1
    ∧ fe.push_back_if_absent c value w1 = Ok false w1
    ∧ contents w1 c = Some xs1
    ∧ length xs1 ≤ S (vec_size v).
Proof.
  intros Hcur. destruct (Hcur) as (k & Hc & Hp).
  rewrite (push_back_if_absent_eq _ _ _ _ _ _ Hc Hp).
  destruct (decide (std_find value (elems v) ≠ vec_size v)) as [Hin|Hnin].
  - exists false, w, (elems v).
    rewrite (push_back_if_absent_eq _ _ _ _ _ _ Hc Hp).
    rewrite decide_True by done.
    split_and!; [done|done|by eapply current_contents|unfold vec_size; lia].
  - pose proof (published_current c p v (vec_push_back value (vec_copy v))
                  _ w Hc Hp) as Hcur'.
    destruct (Hcur') as (k' & Hc' & Hp').
    eexists true, _, _. split; [done|].
    rewrite (push_back_if_absent_eq _ _ _ _ _ _ Hc' Hp').
    rewrite decide_True; cycle 1.
    { unfold vec_size. rewrite std_find_end. intros Habs. apply Habs.
      cbn [vec_push_back vec_fit elems vec_copy vec_of_list].
      apply elem_of_app. right. apply list_elem_of_here. }
    split; [done|]. split; [by eapply current_contents|].
    cbn [vec_push_back vec_fit elems vec_copy vec_of_list].
    rewrite length_app. unfold vec_size. simpl. lia.
Qed.

Lemma replaced_all_gone (test : T → bool) (value : T) (l : list T) x :
  test value = false → x ∈ map (replaced test value) l → test x = false.
Proof.
  intros Hvalue (y & -> & _)%list_elem_of_fmap. unfold replaced.
  by destruct (test y) eqn:Hy.
Qed.

(** C5. replace_all(old, new) returns the number of elements equal to old
    before the call, the container then holds the sequence with every such
    element replaced by new, and, unless new equals old, no element of the
    container equals old afterwards. *)
Theorem replace_all_count w c p v old_value new_value :
  current w c p v →
  ∃ w' xs',
    fe.replace_all c old_value new_value w
      = Ok (count_occ (λ x y : T, decide (x = y)) (elems v) old_value) w'
    ∧ contents w' c = Some xs'
    ∧ xs' = map (λ x, if decide (x = old_value) then new_value else x)
                (elems v)
    ∧ (new_value ≠ old_value → old_value ∉ xs').
Proof.
  intros Hcur. destruct (Hcur) as (k & Hc & Hp).
  rewrite (replace_all_eq _ _ _ _ _ _ _ Hc Hp). cbv zeta.
  rewrite count_equal_to.
  assert (map (replaced (equal_to old_value) new_value) (elems v)
          = map (λ x, if decide (x = old_value) then new_value else x)
                (elems v)) as Hmap.
  { apply map_ext. intros x. unfold replaced, equal_to.
    case_bool_decide; by case_decide. }
  assert (new_value ≠ old_value →
          old_value ∉ map (replaced (equal_to old_value) new_value) (elems v))
    as Hgone.
  { intros Hne Hin.
    apply (replaced_all_gone (equal_to old_value) new_value) in Hin.
    - unfold equal_to in Hin. by rewrite bool_decide_eq_false in Hin.
    - unfold equal_to. by apply bool_decide_eq_false. }
  case_decide as Hzero.
  - exists w, (elems v). split; [by rewrite Hzero|].
    split; [by eapply current_contents|].
    assert (old_value ∉ elems v) as Hnin.
    { intros Hin%list_elem_of_In.
      apply (count_occ_In (λ x y : T, decide (x = y))) in Hin. lia. }
    split; [|done]. rewrite <- Hmap.
    clear -Hnin. induction (elems v) as [|x l IH]; [done|].
    apply not_elem_of_cons in Hnin as [Hx Hl]. simpl.
    rewrite <- IH by done. unfold replaced, equal_to.
    by rewrite bool_decide_eq_false_2 by done.
  - eexists _, _. split; [done|].
    split; [eapply current_contents; by eapply published_current|].
    cbn [elems]. by rewrite <- Hmap.
Qed.

(** C9. at(n) on a container reads the n-th element when n is below the
    size and throws out_of_range otherwise; either way the store is the one
    before the call.  at(n) on a snapshot does the same on the block the
    snapshot holds. *)
Theorem at_bounds_checked w c p v s b n :
  current w c p v →
  heap w !! snapshot_shared_container s = Some b →
  (vec_size v ≤ n → fe.at_ c n w = Throw out_of_range w)
  ∧ (n < vec_size v →
       ∃ x, elems v !! n = Some x ∧ fe.at_ c n w = Ok x w)
  ∧ (vec_size (object b) ≤ n → fe.snapshot_at s n w = Throw out_of_range w)
  ∧ (n < vec_size (object b) →
       ∃ x, elems (object b) !! n = Some x ∧ fe.snapshot_at s n w = Ok x w).
Proof.
  intros (k & Hc & Hp) Hs. unfold vec_size. split_and!.
  - intros Hn. unfold fe.at_.
    eapply (with_lock_Throw c _ (Cow p false) v k); [done..|].
    intros w' Hw'. rewrite (snapshot_at_eq (Snapshot _) _ _ _ Hw').
    cbn [object]. by rewrite lookup_ge_None_2.
  - intros Hn. destruct (lookup_lt_is_Some_2 _ _ Hn) as [x Hx].
    exists x. split; [done|]. unfold fe.at_.
    eapply (with_lock_Ok c _ (Cow p false) v k); [done..|].
    intros w' Hw'. rewrite (snapshot_at_eq (Snapshot _) _ _ _ Hw').
    cbn [object]. by rewrite Hx.
  - intros Hn. rewrite (snapshot_at_eq _ _ _ _ Hs).
    by rewrite lookup_ge_None_2.
  - intros Hn. destruct (lookup_lt_is_Some_2 _ _ Hn) as [x Hx].
    exists x. split; [done|]. rewrite (snapshot_at_eq _ _ _ _ Hs).
    by rewrite Hx.
Qed.

(** C10. clear() on a container of capacity C: afterwards size() is 0 and
    capacity() is at least C.  The new block is an empty vector on which
    reserve(C) was called; the elements are not copied. *)
Theorem clear_keeps_capacity w c p v :
  current w c p v →
  ∃ w' C',
    fe.capacity c w = Ok (vec_capacity v) w
    ∧ fe.clear c w = Ok tt w'
    ∧ w' = published c p (vec_reserve (vec_capacity v) vec_empty) w
    ∧ fe.size c w' = Ok 0 w'
    ∧ fe.capacity c w' = Ok C' w'
    ∧ vec_capacity v ≤ C'.
Proof.
  intros (k & Hc & Hp).
  pose proof (published_current c p v
                (vec_reserve (vec_capacity v) vec_empty) _ w Hc Hp)
    as (k' & Hc' & Hp').
  eexists _, _. split; [by eapply capacity_eq|].
  split; [by apply (clear_eq _ _ _ _ _ Hc Hp)|]. split; [done|].
  split; [by rewrite (size_eq _ _ _ _ _ Hc' Hp')|].
  split; [by rewrite (capacity_eq _ _ _ _ _ Hc' Hp')|].
  unfold vec_reserve. cbn [vec_capacity]. case_decide; [done|].
  apply cap_reserve_ge.
Qed.

Lemma release_block_lookup_ne h p q :
  q ≠ p → release_block p h !! q = h !! q.
Proof.
  intros Hne. unfold release_block. destruct (h !! p) as [b|]; [|done].
  case_decide.
  - by rewrite lookup_delete_ne.
  - by rewrite lookup_other.
Qed.

Lemma publish_at_lookup_new n c p v' w :
  n ≠ p → heap (publish_at n c p v' w) !! n = Some (Block v' 1).
Proof.
  intros Hne. unfold publish_at. projections.
  rewrite release_block_lookup_ne by done. apply lookup_same.
Qed.

Lemma publish_at_lookup_other n c p v' w q :
  q ≠ n → q ≠ p → heap (publish_at n c p v' w) !! q = heap w !! q.
Proof.
  intros Hn Hp. unfold publish_at. projections.
  rewrite release_block_lookup_ne by done. by rewrite lookup_other.
Qed.

Lemma publish_at_vectors n c p v' w :
  vectors (publish_at n c p v' w) = <[c := Cow n false]> (vectors w).
Proof. done. Qed.

(** C2, as the code has it.  The index-based mutators do not check the
    index.  With an index out of range the call breaks the precondition of
    the vector operation it forwards to: its behaviour is undefined, no
    error is signalled and nothing is promised about the container. *)
Theorem index_out_of_range_undefined w c p v :
  current w c p v →
  (∀ index value,
     vec_size v < index → fe.insert_at c index value w = Undefined)
  ∧ (∀ index value,
       vec_size v ≤ index → fe.replace_at c index value w = Undefined)
  ∧ (∀ index, vec_size v ≤ index → fe.erase_at c index w = Undefined)
  ∧ (∀ first last,
       last < first ∨ vec_size v < last →
       fe.erase_range c first last w = Undefined).
Proof.
  intros (k & Hc & Hp). split_and!.
  - intros index value Hi. unfold fe.insert_at.
    rewrite (copy_modify_publish_eq _ _ _ _ _ _ Hc Hp).
    unfold vec_insert. by rewrite decide_False by (unfold vec_size in *; simpl; lia).
  - intros index value Hi. unfold fe.replace_at.
    rewrite (copy_modify_publish_eq _ _ _ _ _ _ Hc Hp).
    unfold vec_set. by rewrite decide_False by (unfold vec_size in *; simpl; lia).
  - intros index Hi. unfold fe.erase_at.
    rewrite (copy_modify_publish_eq _ _ _ _ _ _ Hc Hp).
    unfold vec_erase. by rewrite decide_False by (unfold vec_size in *; simpl; lia).
  - intros first last Hi. unfold fe.erase_range.
    rewrite (copy_modify_publish_eq _ _ _ _ _ _ Hc Hp).
    unfold vec_erase_range.
    by rewrite decide_False by (unfold vec_size in *; simpl; lia).
Qed.

(* in range the same mutators publish the changed copy *)
Lemma index_in_range_publishes w c p v :
  current w c p v →
  (∀ index value,
     index ≤ vec_size v →
     ∃ w', fe.insert_at c index value w = Ok tt w'
           ∧ contents w' c
             = Some (take index (elems v) ++ value :: drop index (elems v)))
  ∧ (∀ index value,
       index < vec_size v →
       ∃ w', fe.replace_at c index value w = Ok tt w'
             ∧ contents w' c = Some (<[index := value]> (elems v)))
  ∧ (∀ index,
       index < vec_size v →
       ∃ w', fe.erase_at c index w = Ok tt w'
             ∧ contents w' c = Some (delete index (elems v))).
Proof.
  intros (k & Hc & Hp). split_and!.
  - intros index value Hi. unfold fe.insert_at.
    rewrite (copy_modify_publish_eq _ _ _ _ _ _ Hc Hp).
    unfold vec_insert. rewrite decide_True by done.
    eexists. split; [done|].
    by erewrite current_contents by (by eapply published_current).
  - intros index value Hi. unfold fe.replace_at.
    rewrite (copy_modify_publish_eq _ _ _ _ _ _ Hc Hp).
    rewrite vec_set_copy by done.
    eexists. split; [done|].
    by erewrite current_contents by (by eapply published_current).
  - intros index Hi. unfold fe.erase_at.
    rewrite (copy_modify_publish_eq _ _ _ _ _ _ Hc Hp).
    rewrite vec_erase_copy by done.
    eexists. split; [done|].
    by erewrite current_contents by (by eapply published_current).
Qed.

(** C4, as the code has it.  replace_all, replace_all_if and the ranged
    push_back_if_absent copy on the first element they change: when they
    change none they return 0 and leave the store exactly as it was, the
    container on the same block.  erase_all and erase_all_if copy before
    they search: when they erase none they return 0 as well, but the
    container then refers to a new block that holds an equal sequence. *)
Theorem bulk_mutators_without_effect w c p v :
  current w c p v →
  (∀ old_value new_value,
     old_value ∉ elems v →
     fe.replace_all c old_value new_value w = Ok 0 w)
  ∧ (∀ pred value,
       (∀ x, x ∈ elems v → pred x = false) →
       fe.replace_all_if c pred value w = Ok 0 w)
  ∧ (∀ l,
       (∀ x, x ∈ l → x ∈ elems v) →
       fe.push_back_if_absent_range c l w = Ok 0 w)
  ∧ (∀ value,
       value ∉ elems v →
       ∃ w', fe.erase_all c value w = Ok 0 w'
             ∧ contents w' c = Some (elems v)
             ∧ buffer w' c = Some (fresh (dom (heap w)))
             ∧ buffer w' c ≠ buffer w c)
  ∧ (∀ pred,
       (∀ x, x ∈ elems v → pred x = false) →
       ∃ w', fe.erase_all_if c pred w = Ok 0 w'
             ∧ contents w' c = Some (elems v)
             ∧ buffer w' c = Some (fresh (dom (heap w)))
             ∧ buffer w' c ≠ buffer w c).
Proof.
  intros Hcur. destruct (Hcur) as (k & Hc & Hp).
  assert (∀ pred,
    (∀ x, x ∈ elems v → pred x = false) →
    ∃ w', fe.remove_erase c pred w = Ok 0 w'
          ∧ contents w' c = Some (elems v)
          ∧ buffer w' c = Some (fresh (dom (heap w)))
          ∧ buffer w' c ≠ buffer w c) as Heager.
  { intros pred Hall.
    rewrite (remove_erase_eq _ _ _ _ _ _ Hc Hp).
    rewrite filter_none by done.
    rewrite filter_all by (intros x Hx; by rewrite Hall).
    eexists. split; [done|].
    pose proof (published_current c p v
      (Vec (elems v) (vec_capacity (vec_copy v))) _ w Hc Hp) as Hcur'.
    rewrite (current_contents _ _ _ _ Hcur').
    rewrite (current_buffer _ _ _ _ Hcur'), (current_buffer _ _ _ _ Hcur).
    split_and!; [done..|]. intros [= Heq].
    by apply (current_fresh _ _ _ _ Hcur). }
  split_and!.
  - intros old_value new_value Hnin.
    rewrite (replace_all_eq _ _ _ _ _ _ _ Hc Hp). cbv zeta.
    rewrite decide_True; [done|]. rewrite filter_none; [done|].
    intros x Hx. unfold equal_to. apply bool_decide_eq_false. by intros ->.
  - intros pred value Hall.
    rewrite (replace_all_if_eq _ _ _ _ _ _ _ Hc Hp). cbv zeta.
    rewrite decide_True; [done|]. by rewrite filter_none.
  - intros l Hall.
    rewrite (push_back_if_absent_range_eq _ _ _ _ _ _ Hc Hp). cbv zeta.
    rewrite add_absent_present by done. by rewrite decide_True.
  - intros value Hnin. apply Heager.
    intros x Hx. unfold equal_to. apply bool_decide_eq_false. by intros ->.
  - intros pred Hall. by apply Heager.
Qed.

(** C8. a.swap(b) for two different containers of a store in which every
    container has its own block: the call returns, a then holds the
    sequence b held and b the sequence a held. *)
Theorem swap_exchanges w c other p q v u :
  owned w → c ≠ other →
  current w c p v → current w other q u →
  ∃ w', fe.swap c other w = Ok tt w'
        ∧ contents w' c = Some (elems u)
        ∧ contents w' other = Some (elems v).
Proof.
  intros [_ Hown] Hne (k1 & Ha & Hp) (k2 & Hb & Hq).
  assert (p ≠ q) as Hpq.
  { intros ->. apply Hne. by eapply (Hown c other). }
  pose proof (fresh_heap_ne _ _ _ Hp) as Hn1p.
  pose proof (fresh_heap_ne _ _ _ Hq) as Hn1q.
  set (n1 := fresh (dom (heap w))) in *.
  set (n2 := fresh (dom (<[n1 := Block (vec_copy v) 1]> (heap w)))).
  assert (n2 ≠ n1) as Hn21.
  { eapply fresh_heap_ne. apply lookup_same. }
  assert (n2 ≠ p) as Hn2p.
  { eapply fresh_heap_ne. by rewrite lookup_other. }
  assert (n2 ≠ q) as Hn2q.
  { eapply fresh_heap_ne. by rewrite lookup_other. }
  eexists. split.
  { eapply (swap_eq c other w p q v u); [done..|].
    by rewrite release_block_lookup_ne. }
  fold n1 n2. unfold contents, buffer. split.
  - rewrite !publish_at_vectors.
    rewrite lookup_other, lookup_same by done. simpl.
    rewrite release_block_lookup_ne, lookup_other by done.
    by rewrite release_block_lookup_ne, lookup_same by done.
  - rewrite !publish_at_vectors. rewrite lookup_same. simpl.
    by rewrite release_block_lookup_ne, lookup_same by done.
Qed.

(** ** Sequences of calls and the blocks that snapshots hold *)

Lemma effect_owned w w' : effect w w' → owned w → owned w'.
Proof.
  induction 1 as [w|w n c p b v' Hc Hp Hn|w1 w2 w3 _ IH1 _ IH2]; [done| |auto].
  intros [Halive Hown].
  assert (n ≠ p) as Hnp by (intros ->; congruence).
  split.
  - intros c' o'. rewrite publish_at_vectors.
    destruct (decide (c = c')) as [<-|Hne].
    + rewrite lookup_same. intros [= <-]. cbn [_shared_container].
      exists v', 0. by apply publish_at_lookup_new.
    + rewrite lookup_other by done. intros Hc'.
      destruct (Halive _ _ Hc') as (v1 & k1 & Hp').
      exists v1, k1. rewrite publish_at_lookup_other; [done| |].
      * intros Heq. congruence.
      * intros Heq. apply Hne. eapply Hown; [done..|]. by rewrite Heq.
  - intros c1 c2 o1 o2. rewrite !publish_at_vectors.
    destruct (decide (c = c1)) as [<-|Hne1];
      destruct (decide (c = c2)) as [<-|Hne2]; [done|..].
    + rewrite lookup_same, lookup_other by done.
      intros [= <-] Hc2 Heq. cbn [_shared_container] in Heq.
      destruct (Halive _ _ Hc2) as (v1 & k1 & Hp'). congruence.
    + rewrite lookup_same, lookup_other by done.
      intros Hc1 [= <-] Heq. cbn [_shared_container] in Heq.
      destruct (Halive _ _ Hc1) as (v1 & k1 & Hp'). congruence.
    + rewrite !lookup_other by done. apply Hown.
Qed.

Lemma effect_held w w' l v :
  effect w w' → owned w → held w l v → held w' l v.
Proof.
  induction 1 as [w|w n c p b v' Hc Hp Hn|w1 w2 w3 H1 IH1 H2 IH2];
    [done| |].
  - intros [Halive Hown] (k & Hl & Hk).
    assert (n ≠ p) as Hnp by (intros ->; congruence).
    assert (l ≠ n) as Hln by (intros ->; congruence).
    destruct (decide (l = p)) as [->|Hlp].
    + destruct k as [|k]; [exfalso; apply (Nat.lt_irrefl 0); eauto|].
      exists k. split.
      * unfold publish_at. projections.
        rewrite release_block_insert_ne, lookup_other by done.
        unfold release_block. rewrite Hl. cbn [use_count object].
        destruct (decide (S (S k) ≤ 1)); [lia|]. rewrite lookup_same.
        by replace (S (S k) - 1) with (S k) by lia.
      * intros (c' & o' & Hc' & Ho'). exfalso.
        rewrite publish_at_vectors in Hc'.
        destruct (decide (c = c')) as [<-|Hne].
        -- rewrite lookup_same in Hc'. by simplify_eq.
        -- rewrite lookup_other in Hc' by done. apply Hne.
           by eapply Hown.
    + exists k. split.
      * by rewrite publish_at_lookup_other.
      * intros (c' & o' & Hc' & Ho'). apply Hk.
        rewrite publish_at_vectors in Hc'.
        destruct (decide (c = c')) as [<-|Hne].
        -- rewrite lookup_same in Hc'. by simplify_eq.
        -- rewrite lookup_other in Hc' by done. eauto.
  - intros Hown Hheld. apply IH2; [by eapply effect_owned|by apply IH1].
Qed.

Lemma owned_current w c p :
  owned w → vectors w !! c = Some (Cow p false) →
  ∃ v k, heap w !! p = Some (Block v (S k)).
Proof. intros [Halive _] Hc. apply (Halive _ _ Hc). Qed.

Lemma effect_published w c p v' b :
  vectors w !! c = Some (Cow p false) → heap w !! p = Some b →
  effect w (published c p v' w).
Proof.
  intros Hc Hp. eapply effect_publish; [done..|apply fresh_heap_None].
Qed.

(* the calls whose store after the call is the one before or a published
   copy *)
Ltac by_cases_of Heq :=
  intros Hown Hrun;
  destruct (lock_guard_returns _ _ _ _ _ Hrun) as [p Hc];
  destruct (owned_current _ _ _ Hown Hc) as (v & k & Hp);
  revert Hrun; rewrite (Heq _ _ _ _ Hc Hp); cbv zeta;
  repeat case_decide; intros [= _ <-];
  first [apply effect_none | by eapply effect_published].

Lemma copy_modify_publish_effect c f w r w' :
  owned w → fe.copy_modify_publish c f w = Ok r w' → effect w w'.
Proof.
  intros Hown Hrun.
  destruct (lock_guard_returns _ _ _ _ _ Hrun) as [p Hc].
  destruct (owned_current _ _ _ Hown Hc) as (v & k & Hp).
  revert Hrun. rewrite (copy_modify_publish_eq _ _ _ _ _ _ Hc Hp).
  destruct (f (vec_copy v)); [|done]. intros [= _ <-].
  by eapply effect_published.
Qed.

Lemma copy_modify_publish_or_throw_effect c f w r w' :
  owned w → fe.copy_modify_publish_or_throw c f w = Ok r w' → effect w w'.
Proof.
  intros Hown Hrun.
  destruct (lock_guard_returns _ _ _ _ _ Hrun) as [p Hc].
  destruct (owned_current _ _ _ Hown Hc) as (v & k & Hp).
  revert Hrun. rewrite (copy_modify_publish_or_throw_eq _ _ _ _ _ _ Hc Hp).
  destruct (f (vec_copy v)) as [[e|v']|]; [done| |done]. intros [= _ <-].
  by eapply effect_published.
Qed.

Lemma replace_effect c old_value new_value w r w' :
  owned w → fe.replace c old_value new_value w = Ok r w' → effect w w'.
Proof. by_cases_of (λ w, replace_eq c old_value new_value w). Qed.

Lemma replace_if_effect c pred value w r w' :
  owned w → fe.replace_if c pred value w = Ok r w' → effect w w'.
Proof. by_cases_of (λ w, replace_if_eq c pred value w). Qed.

Lemma replace_all_if_effect c pred value w r w' :
  owned w → fe.replace_all_if c pred value w = Ok r w' → effect w w'.
Proof. by_cases_of (λ w, replace_all_if_eq c pred value w). Qed.

Lemma erase_effect c value w r w' :
  owned w → fe.erase c value w = Ok r w' → effect w w'.
Proof. by_cases_of (λ w, erase_eq c value w). Qed.

Lemma erase_if_effect c pred w r w' :
  owned w → fe.erase_if c pred w = Ok r w' → effect w w'.
Proof. by_cases_of (λ w, erase_if_eq c pred w). Qed.

Lemma remove_erase_effect c test w r w' :
  owned w → fe.remove_erase c test w = Ok r w' → effect w w'.
Proof. by_cases_of (λ w, remove_erase_eq c test w). Qed.

Lemma push_back_if_absent_effect c value w r w' :
  owned w → fe.push_back_if_absent c value w = Ok r w' → effect w w'.
Proof. by_cases_of (λ w, push_back_if_absent_eq c value w). Qed.

Lemma push_back_if_absent_range_effect c l w r w' :
  owned w → fe.push_back_if_absent_range c l w = Ok r w' → effect w w'.
Proof. by_cases_of (λ w, push_back_if_absent_range_eq c l w). Qed.

Lemma clear_effect c w r w' :
  owned w → fe.clear c w = Ok r w' → effect w w'.
Proof. by_cases_of (λ w, clear_eq c w). Qed.

Lemma swap_raw_effect c other w r w' :
  owned w → fe.swap_raw c other w = Ok r w' → effect w w'.
Proof. by_cases_of (λ w, swap_raw_eq c other w). Qed.

Lemma swap_effect c other w r w' :
  owned w → fe.swap c other w = Ok r w' → effect w w'.
Proof.
  intros Hown Hrun.
  destruct (swap_returns _ _ _ _ _ Hrun) as (Hne & p & q & Hc & Ho).
  destruct (owned_current _ _ _ Hown Hc) as (v & k1 & Hp).
  destruct (owned_current _ _ _ Hown Ho) as (u & k2 & Hq).
  assert (p ≠ q) as Hpq.
  { intros ->. apply Hne. by eapply (proj2 Hown c other). }
  pose proof (fresh_heap_ne _ _ _ Hp) as Hn1p.
  pose proof (fresh_heap_ne _ _ _ Hq) as Hn1q.
  revert Hrun.
  erewrite (swap_eq c other w p q v u); [|done..|]; cycle 1.
  { by rewrite release_block_lookup_ne. }
  cbv zeta. set (n1 := fresh (dom (heap w))) in *.
  set (n2 := fresh (dom (<[n1 := Block (vec_copy v) 1]> (heap w)))).
  assert (n2 ≠ n1) as Hn21.
  { eapply fresh_heap_ne. apply lookup_same. }
  assert (n2 ≠ p) as Hn2p.
  { eapply fresh_heap_ne. by rewrite lookup_other. }
  assert (heap w !! n2 = None) as Hn2.
  { pose proof (fresh_heap_None (<[n1 := Block (vec_copy v) 1]> (heap w)))
      as Hnone. fold n2 in Hnone. by rewrite lookup_other in Hnone. }
  intros [= _ <-].
  apply (effect_then _ (publish_at n1 c p (vec_copy u) w)).
  - eapply (effect_publish w n1); [done..|apply fresh_heap_None].
  - eapply effect_publish.
    + rewrite publish_at_vectors. by rewrite lookup_other.
    + by rewrite publish_at_lookup_other.
    + by rewrite publish_at_lookup_other.
Qed.

Lemma dropped_result {A} (m : M T A) w r w' :
  (m ≫= λ _, mret tt) w = Ok r w' → ∃ a, m w = Ok a w'.
Proof.
  unfold mbind, M_bind, bind. destruct (m w) as [a w1| |]; [|done..].
  intros [= _ <-]. eauto.
Qed.

Lemma call_effect c m w r w' :
  owned w → call c m w = Ok r w' → effect w w'.
Proof.
  intros Hown.
  destruct m; cbn [call];
    try (by apply copy_modify_publish_effect);
    try (by apply copy_modify_publish_or_throw_effect);
    try (intros [a Hrun]%dropped_result; revert Hrun);
    eauto using replace_effect, replace_if_effect, replace_all_if_effect,
      erase_effect, erase_if_effect, remove_erase_effect,
      push_back_if_absent_effect, push_back_if_absent_range_effect,
      clear_effect, swap_raw_effect, swap_effect.
Qed.

Lemma calls_effect ops :
  ∀ w r w', owned w → calls ops w = Ok r w' → effect w w'.
Proof.
  induction ops as [|[c m] ops IH]; intros w r w' Hown.
  - intros [= _ <-]. apply effect_none.
  - cbn [calls]. unfold mbind, M_bind, bind.
    destruct (call c m w) as [[] w1| |] eqn:Hcall; [|done..].
    intros Hrest. pose proof (call_effect _ _ _ _ _ Hown Hcall) as Hstep.
    eapply effect_then; [done|].
    eapply IH; [by eapply effect_owned|done].
Qed.

(** X30. Snapshot isolation under the member functions that take the
    mutex.  A snapshot taken by lock() from a container that holds the
    vector v reads the size and the elements of v, and after any sequence
    of calls of these mutators, on this container or on others of the
    store, that runs to its end it still reads the same size and the same
    elements: the block it holds is alive and unchanged.  The assignment
    operators and the move constructor are not among these calls. *)
Theorem snapshot_isolation w c p v s w1 ops w2 :
  owned w → current w c p v →
  fe.lock c w = Ok s w1 →
  calls ops w1 = Ok tt w2 →
  (fe.snapshot_size s w1 = Ok (vec_size v) w1
   ∧ fe.snapshot_elements s w1 = Ok (elems v) w1)
  ∧ (fe.snapshot_size s w2 = Ok (vec_size v) w2
     ∧ fe.snapshot_elements s w2 = Ok (elems v) w2
     ∧ ∀ n, fe.snapshot_at s n w2
            = match elems v !! n with
              | Some x => Ok x w2
              | None => Throw out_of_range w2
              end).
Proof.
  intros Hown (k & Hc & Hp) Hlock Hcalls.
  rewrite (lock_Ok _ _ _ _ _ Hc Hp) in Hlock.
  cbn [_shared_container] in Hlock. injection Hlock as <- <-.
  set (w1 := World (<[p := Block v (S (S k))]> (heap w)) (vectors w)) in *.
  assert (owned w1) as Hown1.
  { destruct Hown as [Halive Hunshared]. split; [|done].
    intros c' o' Hc'. cbn [w1 heap vectors] in *.
    destruct (decide (_shared_container o' = p)) as [->|Hne].
    - rewrite lookup_same. eauto.
    - rewrite lookup_other by done. eauto. }
  assert (held w1 p v) as Hheld1.
  { exists (S k). split; [apply lookup_same|lia]. }
  pose proof (calls_effect _ _ _ _ Hown1 Hcalls) as Heffect.
  destruct (effect_held _ _ _ _ Heffect Hown1 Hheld1) as (k2 & Hp2 & _).
  assert (heap w1 !! p = Some (Block v (S (S k)))) as Hp1
    by apply lookup_same.
  split.
  - by rewrite (snapshot_size_eq (Snapshot p) _ _ Hp1),
               (snapshot_elements_eq (Snapshot p) _ _ Hp1).
  - by rewrite (snapshot_size_eq (Snapshot p) _ _ Hp2),
               (snapshot_elements_eq (Snapshot p) _ _ Hp2);
      split_and!; [done..|];
      intros n; rewrite (snapshot_at_eq (Snapshot p) n _ _ Hp2).
Qed.

(** ** Stores built by the constructors *)

Lemma owned_empty : owned (World (T:=T) ∅ ∅).
Proof.
  split; [intros c o Hc|intros c1 c2 o1 o2 Hc]; cbn [vectors] in Hc;
    by rewrite (lookup_empty (M:=gmap nat)) in Hc.
Qed.

(* constructing a container keeps every container on a block of its own *)
Lemma construct_owned l w :
  owned w →
  ∃ c w',
    fe.construct l w = Ok c w'
    ∧ owned w'
    ∧ current w' c (fresh (dom (heap w))) (vec_of_list l)
    ∧ vectors w !! c = None.
Proof.
  intros [Halive Hown]. unfold fe.construct.
  rewrite (bind_Ok _ _ _ _ _ (make_shared_Ok _ _)). cbv zeta. projections.
  set (n := fresh (dom (heap w))). set (c := fresh (dom (vectors w))).
  assert (vectors w !! c = None) as Hc.
  { apply not_elem_of_dom, is_fresh. }
  assert (heap w !! n = None) as Hn by apply fresh_heap_None.
  eexists _, _. split; [done|]. split_and!; [|by exists 0; lookups|done].
  split.
  - intros c' o'. projections.
    destruct (decide (c = c')) as [<-|Hne].
    + rewrite lookup_same. intros [= <-]. projections.
      rewrite lookup_same. eauto.
    + rewrite lookup_other by done. intros Hc'.
      destruct (Halive _ _ Hc') as (v1 & k1 & Hp).
      rewrite lookup_other by congruence. eauto.
  - intros c1 c2 o1 o2. projections.
    destruct (decide (c = c1)) as [<-|Hne1];
      destruct (decide (c = c2)) as [<-|Hne2]; [done|..].
    + rewrite lookup_same, lookup_other by done.
      intros [= <-] Hc2 Heq. cbn [_shared_container] in Heq.
      destruct (Halive _ _ Hc2) as (v1 & k1 & Hp). congruence.
    + rewrite lookup_same, lookup_other by done.
      intros Hc1 [= <-] Heq. cbn [_shared_container] in Heq.
      destruct (Halive _ _ Hc1) as (v1 & k1 & Hp). congruence.
    + rewrite !lookup_other by done. apply Hown.
Qed.

(* every mutator keeps every container on a block of its own *)
Lemma calls_owned ops w r w' :
  owned w → calls ops w = Ok r w' → owned w'.
Proof.
  intros Hown Hrun. eapply effect_owned; [|done]. by eapply calls_effect.
Qed.

(** ** Further properties of the member functions *)

(** *** What a published copy leaves alone *)

Lemma published_contents c p v v' k w :
  vectors w !! c = Some (Cow p false) →
  heap w !! p = Some (Block v k) →
  contents (published c p v' w) c = Some (elems v').
Proof. intros Hc Hp. by eapply current_contents, published_current. Qed.

Lemma published_buffer c p v' w :
  buffer (published c p v' w) c = Some (fresh (dom (heap w))).
Proof.
  unfold buffer, published. by rewrite publish_at_vectors, lookup_same.
Qed.

Lemma published_other c p v' w c' :
  owned w → vectors w !! c = Some (Cow p false) → c' ≠ c →
  buffer (published c p v' w) c' = buffer w c'
  ∧ contents (published c p v' w) c' = contents w c'.
Proof.
  intros [Halive Hown] Hc Hne. unfold contents, buffer, published.
  rewrite publish_at_vectors, lookup_other by done. split; [done|].
  destruct (vectors w !! c') as [o'|] eqn:Hc'; [|done].
  cbn -[publish_at].
  destruct (Halive _ _ Hc') as (v1 & k1 & Hq).
  rewrite publish_at_lookup_other; [done| |].
  - apply not_eq_sym. by eapply fresh_heap_ne.
  - intros Heq. apply Hne. by eapply Hown.
Qed.

(* a plain mutator on a container in use *)
Lemma plain_mutator w c p v f v' :
  current w c p v → f (vec_copy v) = Some v' →
  fe.copy_modify_publish c f w = Ok tt (published c p v' w)
  ∧ current (published c p v' w) c (fresh (dom (heap w))) v'.
Proof.
  intros (k & Hc & Hp) Hf.
  rewrite (copy_modify_publish_eq _ _ _ _ _ _ Hc Hp), Hf.
  split; [done|]. by eapply published_current.
Qed.

(* a mutator that can throw, on a container in use *)
Lemma checked_mutator w c p v f :
  current w c p v →
  match f (vec_copy v) with
  | Some (inr v') =>
      fe.copy_modify_publish_or_throw c f w = Ok tt (published c p v' w)
      ∧ current (published c p v' w) c (fresh (dom (heap w))) v'
  | Some (inl e) => fe.copy_modify_publish_or_throw c f w = Throw e w
  | None => fe.copy_modify_publish_or_throw c f w = Undefined
  end.
Proof.
  intros (k & Hc & Hp).
  rewrite (copy_modify_publish_or_throw_eq _ _ _ _ _ _ Hc Hp).
  destruct (f (vec_copy v)) as [[e|v']|]; [done| |done].
  split; [done|]. by eapply published_current.
Qed.

Lemma size_current w c p v : current w c p v → fe.size c w = Ok (vec_size v) w.
Proof. intros (k & Hc & Hp). by eapply size_eq. Qed.

Lemma capacity_current w c p v :
  current w c p v → fe.capacity c w = Ok (vec_capacity v) w.
Proof. intros (k & Hc & Hp). by eapply capacity_eq. Qed.

Lemma push_back_all_elems (l : list T) :
  ∀ v, elems (foldl (λ v x, vec_push_back x v) v l) = elems v ++ l.
Proof.
  induction l as [|x l IH]; intros v; simpl; [by rewrite app_nil_r|].
  rewrite IH. simpl. by rewrite <- app_assoc.
Qed.

Lemma at_current w c p v n x :
  current w c p v → elems v !! n = Some x → fe.at_ c n w = Ok x w.
Proof.
  intros (k & Hc & Hp) Hx. unfold fe.at_.
  eapply (with_lock_Ok c _ (Cow p false) v k); [done..|].
  intros w' Hw'. rewrite (snapshot_at_eq (Snapshot _) _ _ _ Hw').
  cbn [object]. by rewrite Hx.
Qed.

(** *** Appending and removing at the end *)

(** X1. push_back(value) and emplace_back(value) on a container in use
    return, the container then holds the former sequence followed by the
    value, and size() is one more than before. *)
Theorem push_back_appends w c p v value :
  current w c p v →
  ∃ w', fe.push_back c value w = Ok tt w'
        ∧ fe.emplace_back c value w = Ok tt w'
        ∧ contents w' c = Some (elems v ++ [value])
        ∧ fe.size c w' = Ok (S (vec_size v)) w'.
Proof.
  intros Hcur.
  destruct (plain_mutator w c p v (λ v, Some (vec_push_back value v)) _
              Hcur eq_refl) as [Hrun Hcur'].
  eexists. split_and!; [exact Hrun|exact Hrun|..].
  - by rewrite (current_contents _ _ _ _ Hcur').
  - rewrite (size_current _ _ _ _ Hcur'). f_equal.
    unfold vec_size. simpl. rewrite length_app. simpl. lia.
Qed.

(** X2. push_back(first, last) appends the range in order, and leaves the
    container with the same sequence as one push_back per element of the
    range does. *)
Theorem push_back_range_appends w c p v (l : list T) :
  current w c p v →
  ∃ w1 w2,
    fe.push_back_range c l w = Ok tt w1
    ∧ calls (map (λ x, (c, PushBack x)) l) w = Ok tt w2
    ∧ contents w1 c = Some (elems v ++ l)
    ∧ contents w2 c = Some (elems v ++ l).
Proof.
  intros Hcur.
  destruct (plain_mutator w c p v
              (λ v, Some (foldl (λ v x, vec_push_back x v) v l)) _
              Hcur eq_refl) as [Hrun Hcur'].
  assert (∃ w2 q u, calls (map (λ x, (c, PushBack x)) l) w = Ok tt w2
                    ∧ current w2 c q u ∧ elems u = elems v ++ l)
    as (w2 & q & u & Hcalls & Hcur2 & Hu).
  { clear Hrun Hcur'. revert w p v Hcur.
    induction l as [|x l IH]; intros w p v Hcur.
    - exists w, p, v. by rewrite app_nil_r.
    - destruct (plain_mutator w c p v (λ v, Some (vec_push_back x v)) _
                  Hcur eq_refl) as [Hrun Hcur'].
      destruct (IH _ _ _ Hcur') as (w2 & q & u & Hcalls & Hcur2 & Hu).
      exists w2, q, u. split_and!; [|done|].
      + cbn [map calls call]. unfold fe.push_back.
        by rewrite (bind_Ok _ _ _ _ _ Hrun).
      + rewrite Hu. simpl. by rewrite <- app_assoc. }
  eexists _, w2. split_and!; [exact Hrun|exact Hcalls|..].
  - rewrite (current_contents _ _ _ _ Hcur'). f_equal.
    by rewrite push_back_all_elems.
  - by rewrite (current_contents _ _ _ _ Hcur2), Hu.
Qed.

(** X3. pop_back() does not check for an empty container: on an empty
    container the call is undefined; on a container that holds l followed
    by x it returns and leaves l. *)
Theorem pop_back_removes_last w c p v :
  current w c p v →
  (elems v = [] → fe.pop_back c w = Undefined)
  ∧ (∀ l x, elems v = l ++ [x] →
       ∃ w', fe.pop_back c w = Ok tt w' ∧ contents w' c = Some l).
Proof.
  intros Hcur. split.
  - intros Hempty. destruct Hcur as (k & Hc & Hp). unfold fe.pop_back.
    rewrite (copy_modify_publish_eq _ _ _ _ _ _ Hc Hp).
    unfold vec_pop_back, vec_size. simpl. by rewrite Hempty.
  - intros l x Hv.
    destruct (plain_mutator w c p v vec_pop_back
                (Vec l (vec_capacity (vec_copy v))) Hcur) as [Hrun Hcur'].
    { unfold vec_pop_back, vec_size. simpl. rewrite Hv, length_app. simpl.
      rewrite decide_False by lia. do 2 f_equal.
      replace (length l + 1 - 1) with (length l) by lia.
      by rewrite take_app_length. }
    eexists. split; [exact Hrun|].
    by rewrite (current_contents _ _ _ _ Hcur').
Qed.

(** X4. push_back(value) followed by pop_back() returns and leaves the
    container with the sequence it held before. *)
Theorem push_back_pop_back w c p v value :
  current w c p v →
  ∃ w', (fe.push_back c value;; fe.pop_back c) w = Ok tt w'
        ∧ contents w' c = Some (elems v).
Proof.
  intros Hcur.
  destruct (plain_mutator w c p v (λ v, Some (vec_push_back value v)) _
              Hcur eq_refl) as [Hrun Hcur1].
  set (w1 := published c p (vec_push_back value (vec_copy v)) w) in *.
  destruct (plain_mutator w1 c _ _ vec_pop_back
              (Vec (elems v)
                   (vec_capacity
                      (vec_copy (vec_push_back value (vec_copy v)))))
              Hcur1) as [Hrun2 Hcur2].
  { unfold vec_pop_back, vec_size. simpl. rewrite length_app. simpl.
    rewrite decide_False by lia. do 2 f_equal.
    replace (length (elems v) + 1 - 1) with (length (elems v)) by lia.
    by rewrite take_app_length. }
  eexists. split.
  - unfold fe.push_back at 1. rewrite (bind_Ok _ _ _ _ _ Hrun).
    exact Hrun2.
  - by rewrite (current_contents _ _ _ _ Hcur2).
Qed.

(** *** Insertion and erasure by index *)

(** X5. insert_at(index, value) with an index up to the size, followed by
    erase_at(index), returns and leaves the container with the sequence it
    held before; in between the value stands at the index. *)
Theorem insert_at_erase_at w c p v index value :
  current w c p v → index ≤ vec_size v →
  ∃ w1 w2,
    fe.insert_at c index value w = Ok tt w1
    ∧ fe.at_ c index w1 = Ok value w1
    ∧ fe.erase_at c index w1 = Ok tt w2
    ∧ contents w2 c = Some (elems v).
Proof.
  intros Hcur Hi.
  destruct (plain_mutator w c p v (vec_insert index [value])
              (vec_fit (vec_copy v)
                 (take index (elems v) ++ value :: drop index (elems v)))
              Hcur) as [Hrun1 Hcur1].
  { unfold vec_insert. by rewrite decide_True. }
  match type of Hcur1 with current ?a _ _ ?b =>
    set (w1 := a) in *; set (v1 := b) in * end.
  assert (length (take index (elems v)) = index) as Hlen.
  { rewrite length_take. unfold vec_size in Hi. lia. }
  assert (elems v1 !! index = Some value) as Hat.
  { cbn [v1 vec_fit elems]. rewrite <- Hlen at 1. apply list_lookup_middle.
    done. }
  destruct (plain_mutator w1 c _ v1 (vec_erase index)
              (Vec (elems v) (vec_capacity (vec_copy v1))) Hcur1)
    as [Hrun2 Hcur2].
  { rewrite vec_erase_copy.
    - do 2 f_equal. cbn [v1 vec_fit elems]. rewrite <- Hlen at 1.
      rewrite delete_middle. apply take_drop.
    - by eapply lookup_lt_Some. }
  eexists _, _. split_and!; [exact Hrun1| |exact Hrun2|].
  - by eapply at_current.
  - by rewrite (current_contents _ _ _ _ Hcur2).
Qed.


(** *** The first match and all matches *)

Lemma std_find_if_first (pred : T → bool) (pre post : list T) x :
  (∀ y, y ∈ pre → pred y = false) → pred x = true →
  std_find_if pred (pre ++ x :: post) = length pre.
Proof.
  intros Hpre Hx. induction pre as [|y pre IH]; simpl; [by rewrite Hx|].
  rewrite (Hpre y) by apply list_elem_of_here. f_equal. apply IH.
  intros z Hz. apply Hpre. by apply list_elem_of_further.
Qed.

Lemma insert_middle (pre post : list T) x value :
  <[length pre := value]> (pre ++ x :: post) = pre ++ value :: post.
Proof.
  rewrite insert_app_r_alt by done. by rewrite Nat.sub_diag.
Qed.

(** X7. replace_if and erase_if act on the first element that satisfies
    the predicate and on no other: when x is the first such element, with
    pre before it and post after it, replace_if leaves pre, the value,
    post and erase_if leaves pre, post, and both return true.  When no
    element satisfies the predicate both return false and the store is as
    before. *)
Theorem replace_if_erase_if_first_match w c p v pred :
  current w c p v →
  (∀ (pre post : list T) x,
     elems v = pre ++ x :: post →
     (∀ y, y ∈ pre → pred y = false) → pred x = true →
     (∀ value,
        ∃ w', fe.replace_if c pred value w = Ok true w'
              ∧ contents w' c = Some (pre ++ value :: post))
     ∧ ∃ w', fe.erase_if c pred w = Ok true w'
             ∧ contents w' c = Some (pre ++ post))
  ∧ ((∀ y, y ∈ elems v → pred y = false) →
     (∀ value, fe.replace_if c pred value w = Ok false w)
     ∧ fe.erase_if c pred w = Ok false w).
Proof.
  intros (k & Hc & Hp). split.
  - intros pre post x Hv Hpre Hx.
    assert (std_find_if pred (elems v) = length pre) as Hfind.
    { rewrite Hv. by apply std_find_if_first. }
    assert (length pre ≠ vec_size v) as Hne.
    { unfold vec_size. rewrite Hv, length_app. simpl. lia. }
    split.
    + intros value. rewrite (replace_if_eq _ _ _ _ _ _ _ Hc Hp).
      cbv zeta. rewrite Hfind, decide_False by done.
      eexists. split; [done|].
      erewrite published_contents by done. simpl.
      by rewrite Hv, insert_middle.
    + rewrite (erase_if_eq _ _ _ _ _ _ Hc Hp).
      cbv zeta. rewrite Hfind, decide_False by done.
      eexists. split; [done|].
      erewrite published_contents by done. simpl.
      by rewrite Hv, delete_middle.
  - intros Hnone.
    assert (std_find_if pred (elems v) = vec_size v) as Hfind
      by (by apply std_find_if_end).
    split.
    + intros value. rewrite (replace_if_eq _ _ _ _ _ _ _ Hc Hp).
      cbv zeta. by rewrite decide_True.
    + rewrite (erase_if_eq _ _ _ _ _ _ Hc Hp).
      cbv zeta. by rewrite decide_True.
Qed.

Lemma equal_to_true (value x : T) : equal_to value x = true ↔ x = value.
Proof. unfold equal_to. apply bool_decide_eq_true. Qed.

Lemma equal_to_false (value x : T) : equal_to value x = false ↔ x ≠ value.
Proof. unfold equal_to. apply bool_decide_eq_false. Qed.

(** X8. replace(old, new) changes the first element equal to old and
    erase(old) removes it, the later occurrences stay; replace returns
    false and leaves the store as it is when no element equals old. *)
Theorem replace_erase_first_occurrence w c p v old_value :
  current w c p v →
  (∀ (pre post : list T),
     elems v = pre ++ old_value :: post → old_value ∉ pre →
     (∀ new_value,
        ∃ w', fe.replace c old_value new_value w = Ok true w'
              ∧ contents w' c = Some (pre ++ new_value :: post))
     ∧ ∃ w', fe.erase c old_value w = Ok true w'
             ∧ contents w' c = Some (pre ++ post))
  ∧ (old_value ∉ elems v →
     ∀ new_value, fe.replace c old_value new_value w = Ok false w).
Proof.
  intros (k & Hc & Hp). split.
  - intros pre post Hv Hpre.
    assert (std_find old_value (elems v) = length pre) as Hfind.
    { rewrite Hv. apply std_find_if_first; [|by apply equal_to_true].
      intros y Hy. apply equal_to_false. by intros ->. }
    assert (length pre ≠ vec_size v) as Hne.
    { unfold vec_size. rewrite Hv, length_app. simpl. lia. }
    split.
    + intros new_value. rewrite (replace_eq _ _ _ _ _ _ _ Hc Hp).
      cbv zeta. rewrite Hfind, decide_False by done.
      eexists. split; [done|].
      erewrite published_contents by done. simpl.
      by rewrite Hv, insert_middle.
    + rewrite (erase_eq _ _ _ _ _ _ Hc Hp).
      cbv zeta. rewrite Hfind, decide_False by done.
      eexists. split; [done|].
      erewrite published_contents by done. simpl.
      by rewrite Hv, delete_middle.
  - intros Habsent new_value. rewrite (replace_eq _ _ _ _ _ _ _ Hc Hp).
    cbv zeta. rewrite decide_True; [done|]. by apply std_find_end.
Qed.

(** X9. erase_all_if(pred) removes exactly the elements that satisfy the
    predicate, keeps the others in their order and returns the number
    removed, which is the loss in size; erase_all(value) does so for the
    elements equal to the value. *)
Theorem erase_all_if_removes_matches w c p v :
  current w c p v →
  (∀ pred,
     ∃ w' xs,
       fe.erase_all_if c pred w
         = Ok (length (List.filter pred (elems v))) w'
       ∧ contents w' c = Some xs
       ∧ xs = List.filter (λ x, negb (pred x)) (elems v)
       ∧ (∀ x, x ∈ xs → pred x = false)
       ∧ length xs + length (List.filter pred (elems v)) = vec_size v)
  ∧ (∀ value,
       ∃ w' xs,
         fe.erase_all c value w
           = Ok (count_occ (λ x y : T, decide (x = y)) (elems v) value) w'
         ∧ contents w' c = Some xs
         ∧ xs = List.filter (λ x, negb (equal_to value x)) (elems v)
         ∧ value ∉ xs).
Proof.
  intros (k & Hc & Hp).
  assert (∀ test (x : T),
            x ∈ List.filter (λ x, negb (test x)) (elems v) →
            test x = false) as Hkept.
  { intros test x [_ Hx]%list_elem_of_In%List.filter_In.
    by apply negb_true_iff. }
  split.
  - intros pred. unfold fe.erase_all_if.
    rewrite (remove_erase_eq _ _ _ _ _ _ Hc Hp).
    eexists _, _. split_and!; [done| |done|..].
    + by erewrite published_contents by done.
    + apply Hkept.
    + pose proof (filter_split_length pred (elems v)). unfold vec_size. lia.
  - intros value. unfold fe.erase_all.
    rewrite (remove_erase_eq _ _ _ _ _ _ Hc Hp).
    eexists _, _. split_and!; [by rewrite count_equal_to| |done|].
    + by erewrite published_contents by done.
    + intros Hin. apply Hkept in Hin. by apply equal_to_false in Hin.
Qed.

(** X10. replace_all_if(pred, value) returns the number of elements that
    satisfy the predicate, puts the value in the place of each of them and
    keeps the size. *)
Theorem replace_all_if_count w c p v pred value :
  current w c p v →
  ∃ w' xs,
    fe.replace_all_if c pred value w
      = Ok (length (List.filter pred (elems v))) w'
    ∧ contents w' c = Some xs
    ∧ xs = map (λ x, if pred x then value else x) (elems v)
    ∧ length xs = vec_size v.
Proof.
  intros Hcur. pose proof Hcur as (k & Hc & Hp).
  rewrite (replace_all_if_eq _ _ _ _ _ _ _ Hc Hp). cbv zeta.
  case_decide as Hcount.
  - rewrite Hcount. eexists _, _. split_and!; [done| |done|].
    + rewrite (current_contents _ _ _ _ Hcur). f_equal.
      assert (∀ x, x ∈ elems v → pred x = false) as Hnone.
      { intros x Hx. destruct (pred x) eqn:Hpx; [|done]. exfalso.
        assert (x ∈ List.filter pred (elems v)) as Hin.
        { apply list_elem_of_In, List.filter_In.
          by rewrite <- list_elem_of_In. }
        apply length_zero_iff_nil in Hcount. rewrite Hcount in Hin.
        by apply elem_of_nil in Hin. }
      clear -Hnone. induction (elems v) as [|x l IH]; [done|]. simpl.
      rewrite (Hnone x) by apply list_elem_of_here. f_equal. apply IH.
      intros y Hy. apply Hnone. by apply list_elem_of_further.
    + by rewrite length_map.
  - eexists _, _. split_and!; [done| |done|].
    + by erewrite published_contents by done.
    + by rewrite length_map.
Qed.

(** *** The container as a set: push_back_if_absent *)

Lemma std_find_found (value : T) (l : list T) :
  std_find value l ≠ length l ↔ value ∈ l.
Proof.
  split.
  - intros Hne. destruct (decide (value ∈ l)) as [|Hnot]; [done|].
    by apply std_find_end in Hnot.
  - intros Hin Heq. by apply std_find_end in Heq.
Qed.

(** X11. push_back_if_absent(value) returns true exactly when no element
    equals the value; afterwards the value is an element of the container,
    appended at the end if it was absent, and a container without
    repeated elements stays without. *)
Theorem push_back_if_absent_keeps_distinct w c p v value :
  current w c p v →
  ∃ w' xs,
    fe.push_back_if_absent c value w
      = Ok (bool_decide (value ∉ elems v)) w'
    ∧ contents w' c = Some xs
    ∧ xs = (if bool_decide (value ∈ elems v) then elems v
            else elems v ++ [value])
    ∧ value ∈ xs
    ∧ (NoDup (elems v) → NoDup xs).
Proof.
  intros Hcur. pose proof Hcur as (k & Hc & Hp).
  rewrite (push_back_if_absent_eq _ _ _ _ _ _ Hc Hp).
  case_decide as Hfind.
  - apply std_find_found in Hfind.
    rewrite bool_decide_eq_false_2 by (by intros Hnot).
    rewrite bool_decide_eq_true_2 by done.
    eexists _, _. split_and!; [done| |done..].
    by rewrite (current_contents _ _ _ _ Hcur).
  - assert (value ∉ elems v) as Hnot.
    { intros Hin. by apply std_find_found in Hin. }
    rewrite bool_decide_eq_true_2 by done.
    rewrite bool_decide_eq_false_2 by done.
    eexists _, _. split_and!; [done| |done|..].
    + by erewrite published_contents by done.
    + apply elem_of_app. right. apply list_elem_of_here.
    + intros Hnodup. apply NoDup_app. split_and!; [done| |].
      * intros x Hx ->%list_elem_of_singleton. done.
      * apply NoDup_singleton.
Qed.

Lemma add_absent_spec (l : list T) :
  ∀ (s : container_type T * nat),
    ∃ added,
      elems (foldl add_absent s l).1 = elems s.1 ++ added
      ∧ (foldl add_absent s l).2 = s.2 + length added
      ∧ (∀ x, x ∈ l → x ∈ elems s.1 ++ added)
      ∧ (∀ x, x ∈ added → x ∈ l)
      ∧ (NoDup (elems s.1) → NoDup (elems s.1 ++ added)).
Proof.
  induction l as [|x l IH]; intros s.
  - exists []. simpl. rewrite app_nil_r. split_and!; [done|lia| |done..].
    intros x Hx. by apply elem_of_nil in Hx.
  - cbn [foldl]. unfold add_absent at 2 4.
    destruct (decide (std_find x (elems s.1) = vec_size s.1)) as [Hfind|Hfind].
    + destruct (IH (vec_push_back x s.1, S s.2))
        as (added & Helems & Hcount & Hin & Hfrom & Hnodup).
      cbn [fst snd vec_push_back vec_fit elems] in *.
      exists (x :: added). rewrite Helems, Hcount.
      rewrite <- app_assoc in *. simpl in *.
      split_and!; [done|lia| | |].
      * intros y [->|Hy]%elem_of_cons; [|by apply Hin].
        apply elem_of_app. right. apply list_elem_of_here.
      * intros y [->|Hy]%elem_of_cons; [apply list_elem_of_here|].
        apply list_elem_of_further. by apply Hfrom.
      * intros Hs. apply Hnodup. apply NoDup_app. split_and!; [done| |].
        -- intros y Hy ->%list_elem_of_singleton.
           by apply std_find_end in Hfind.
        -- apply NoDup_singleton.
    + destruct (IH s) as (added & Helems & Hcount & Hin & Hfrom & Hnodup).
      exists added. split_and!; [done..| | |done].
      * intros y [->|Hy]%elem_of_cons; [|by apply Hin].
        apply elem_of_app. left. by apply std_find_found.
      * intros y Hy. apply list_elem_of_further. by apply Hfrom.
Qed.

(** X12. push_back_if_absent(first, last) keeps the former sequence as a
    prefix and appends elements of the range only; afterwards every
    element of the range is an element of the container, the count
    returned is the gain in size, and a container without repeated
    elements stays without. *)
Theorem push_back_if_absent_range_union w c p v (l : list T) :
  current w c p v →
  ∃ w' n added,
    fe.push_back_if_absent_range c l w = Ok n w'
    ∧ contents w' c = Some (elems v ++ added)
    ∧ n = length added
    ∧ (∀ x, x ∈ l → x ∈ elems v ++ added)
    ∧ (∀ x, x ∈ added → x ∈ l)
    ∧ (NoDup (elems v) → NoDup (elems v ++ added)).
Proof.
  intros Hcur. pose proof Hcur as (k & Hc & Hp).
  rewrite (push_back_if_absent_range_eq _ _ _ _ _ _ Hc Hp). cbv zeta.
  destruct (add_absent_spec l (vec_copy v, 0))
    as (added & Helems & Hcount & Hin & Hfrom & Hnodup).
  cbn [fst snd vec_copy vec_of_list elems] in *.
  case_decide as Hzero.
  - rewrite Hzero in Hcount.
    assert (added = []) as -> by (apply length_zero_iff_nil; lia).
    exists w, 0, []. split_and!; [done| |done..].
    rewrite app_nil_r. by rewrite (current_contents _ _ _ _ Hcur).
  - eexists _, _, added. split_and!; [done| |done..].
    erewrite published_contents by done. by rewrite Helems.
Qed.

(** *** Replacing the whole contents and resizing *)



(** X14. resize(count, value) leaves the first count elements of the
    former sequence, followed by copies of the value up to the size count;
    resize(count) does so with the default value of the element type.
    Growth beyond max_size() throws length_error and leaves the store as
    it is. *)
Theorem resize_truncates_or_pads w c p v count :
  current w c p v →
  (count ≤ vec_size v ∨ within_max_size count →
   (∀ value,
      ∃ w', fe.resize_fill c count value w = Ok tt w'
            ∧ contents w' c
              = Some (take count (elems v)
                      ++ replicate (count - vec_size v) value)
            ∧ fe.size c w' = Ok count w')
   ∧ ∃ w', fe.resize c count w = Ok tt w'
           ∧ contents w' c
             = Some (take count (elems v)
                     ++ replicate (count - vec_size v) elt_default))
  ∧ (vec_size v < count → ¬ within_max_size count →
     (∀ value, fe.resize_fill c count value w = Throw length_error w)
     ∧ fe.resize c count w = Throw length_error w).
Proof.
  intros Hcur.
  assert (∀ value,
            elems (vec_resize count value (vec_copy v))
            = take count (elems v) ++ replicate (count - vec_size v) value)
    as Helems.
  { intros value. unfold vec_resize, vec_size. simpl.
    case_decide as Hle; simpl.
    - replace (count - length (elems v)) with 0 by lia.
      by rewrite app_nil_r.
    - by rewrite take_ge by lia. }
  split.
  - intros Hfits.
    assert (∀ value,
              fe.copy_modify_publish_or_throw c
                (vec_resize_checked count value) w
              = Ok tt (published c p
                         (vec_resize count value (vec_copy v)) w)
              ∧ current (published c p
                           (vec_resize count value (vec_copy v)) w)
                  c (fresh (dom (heap w)))
                  (vec_resize count value (vec_copy v))) as Hrun.
    { intros value.
      pose proof (checked_mutator w c p v (vec_resize_checked count value)
                    Hcur) as Hrun.
      unfold vec_resize_checked in Hrun.
      by rewrite decide_True in Hrun by done. }
    split.
    + intros value. destruct (Hrun value) as [Hok Hcur'].
      eexists. split_and!; [exact Hok|..].
      * by rewrite (current_contents _ _ _ _ Hcur'), Helems.
      * rewrite (size_current _ _ _ _ Hcur'). f_equal.
        unfold vec_size at 1. rewrite Helems, length_app, length_take,
          length_replicate. unfold vec_size. lia.
    + destruct (Hrun elt_default) as [Hok Hcur'].
      eexists. split; [exact Hok|].
      by rewrite (current_contents _ _ _ _ Hcur'), Helems.
  - intros Hgrow Hlarge.
    assert (∀ value,
              fe.copy_modify_publish_or_throw c
                (vec_resize_checked count value) w
              = Throw length_error w) as Hrun.
    { intros value.
      pose proof (checked_mutator w c p v (vec_resize_checked count value)
                    Hcur) as Hrun.
      unfold vec_resize_checked in Hrun.
      rewrite decide_False in Hrun; [done|].
      unfold vec_size. simpl. intros [Hle|Hfits]; [|done].
      unfold vec_size in Hgrow. lia. }
    split; [exact Hrun|exact (Hrun elt_default)].
Qed.

(** X15. reserve(new_cap) with new_cap within max_size() and
    shrink_to_fit() keep the element sequence and put it in a new block;
    the capacity after reserve is at least new_cap, and after both at
    least the size.  reserve(new_cap) beyond max_size() throws
    length_error and leaves the store as it is, the container on its
    block. *)
Theorem reserve_shrink_keep_contents w c p v :
  current w c p v →
  (∀ new_cap,
     within_max_size new_cap →
     ∃ w' C',
       fe.reserve c new_cap w = Ok tt w'
       ∧ contents w' c = Some (elems v)
       ∧ fe.capacity c w' = Ok C' w'
       ∧ new_cap ≤ C' ∧ vec_size v ≤ C'
       ∧ buffer w' c ≠ buffer w c)
  ∧ (∀ new_cap,
       ¬ within_max_size new_cap →
       fe.reserve c new_cap w = Throw length_error w
       ∧ buffer w c = Some p)
  ∧ ∃ w' C',
      fe.shrink_to_fit c w = Ok tt w'
      ∧ contents w' c = Some (elems v)
      ∧ fe.capacity c w' = Ok C' w'
      ∧ vec_size v ≤ C'
      ∧ buffer w' c ≠ buffer w c.
Proof.
  intros Hcur.
  assert (Some (fresh (dom (heap w))) ≠ Some p) as Hnew.
  { intros [= Heq]. by apply (current_fresh _ _ _ _ Hcur). }
  split_and!.
  - intros new_cap Hfits.
    pose proof (checked_mutator w c p v (vec_reserve_checked new_cap) Hcur)
      as Hrun.
    unfold vec_reserve_checked in Hrun. rewrite decide_True in Hrun by done.
    destruct Hrun as [Hrun Hcur'].
    eexists _, _. split_and!; [exact Hrun| | | | |].
    + by rewrite (current_contents _ _ _ _ Hcur').
    + by rewrite (capacity_current _ _ _ _ Hcur').
    + unfold vec_reserve. simpl.
      destruct (decide (new_cap ≤ cap_construct (length (elems v))));
        [done|apply cap_reserve_ge].
    + unfold vec_reserve. simpl.
      pose proof (cap_construct_ge (length (elems v))).
      unfold vec_size.
      destruct (decide (new_cap ≤ cap_construct (length (elems v))));
        [done|].
      pose proof (cap_reserve_ge (cap_construct (length (elems v))) new_cap).
      lia.
    + by rewrite (current_buffer _ _ _ _ Hcur'),
        (current_buffer _ _ _ _ Hcur).
  - intros new_cap Hlarge.
    pose proof (checked_mutator w c p v (vec_reserve_checked new_cap) Hcur)
      as Hrun.
    unfold vec_reserve_checked in Hrun.
    rewrite decide_False in Hrun by done.
    split; [exact Hrun|by eapply current_buffer].
  - destruct (plain_mutator w c p v (λ v, Some (vec_shrink_to_fit v)) _
                Hcur eq_refl) as [Hrun Hcur'].
    eexists _, _. split_and!; [exact Hrun| | | |].
    + by rewrite (current_contents _ _ _ _ Hcur').
    + by rewrite (capacity_current _ _ _ _ Hcur').
    + simpl. apply cap_shrink_ge.
    + by rewrite (current_buffer _ _ _ _ Hcur'),
        (current_buffer _ _ _ _ Hcur).
Qed.

(** *** swap *)

(** X16. a.swap(a) locks the mutex of a twice: the call is undefined. *)
Theorem swap_with_itself_undefined w c p v :
  current w c p v → fe.swap c c w = Undefined.
Proof.
  intros (k & Hc & Hp). unfold fe.swap.
  eapply lock_guard_Undefined; [exact Hc|].
  unfold lock_guard at 1. apply bind_Undefined.
  unfold mutex_lock. projections. by rewrite lookup_same.
Qed.

Lemma swap_spec w c other p q v u :
  owned w → c ≠ other →
  current w c p v → current w other q u →
  ∃ w' n1 n2,
    fe.swap c other w = Ok tt w'
    ∧ owned w'
    ∧ current w' c n1 (vec_copy u)
    ∧ current w' other n2 (vec_copy v).
Proof.
  intros Hown Hne (k1 & Ha & Hp) (k2 & Hb & Hq).
  assert (p ≠ q) as Hpq.
  { intros ->. apply Hne. by eapply (proj2 Hown c other). }
  pose proof (fresh_heap_ne _ _ _ Hp) as Hn1p.
  pose proof (fresh_heap_ne _ _ _ Hq) as Hn1q.
  assert (fe.swap c other w =
            Ok tt (publish_at
                     (fresh (dom (<[fresh (dom (heap w))
                                    := Block (vec_copy v) 1]> (heap w))))
                     other q (vec_copy v)
                     (publish_at (fresh (dom (heap w))) c p (vec_copy u) w)))
    as Hrun.
  { eapply (swap_eq c other w p q v u); [done..|].
    by rewrite release_block_lookup_ne. }
  set (n1 := fresh (dom (heap w))) in *.
  set (n2 := fresh (dom (<[n1 := Block (vec_copy v) 1]> (heap w)))) in *.
  assert (n2 ≠ n1) as Hn21.
  { eapply fresh_heap_ne. apply lookup_same. }
  assert (n2 ≠ p) as Hn2p.
  { eapply fresh_heap_ne. by rewrite lookup_other. }
  assert (n2 ≠ q) as Hn2q.
  { eapply fresh_heap_ne. by rewrite lookup_other. }
  eexists _, n1, n2. split; [exact Hrun|]. split_and!.
  - eapply effect_owned; [|exact Hown]. by eapply swap_effect.
  - exists 0. rewrite !publish_at_vectors.
    rewrite lookup_other, lookup_same by done. split; [done|].
    rewrite publish_at_lookup_other by done.
    by apply publish_at_lookup_new.
  - exists 0. rewrite !publish_at_vectors. rewrite lookup_same.
    split; [done|]. by apply publish_at_lookup_new.
Qed.

(** X17. Swapping two different containers twice gives each of them the
    sequence it held at first. *)
Theorem swap_twice_restores w c other p q v u :
  owned w → c ≠ other →
  current w c p v → current w other q u →
  ∃ w', (fe.swap c other;; fe.swap c other) w = Ok tt w'
        ∧ contents w' c = Some (elems v)
        ∧ contents w' other = Some (elems u).
Proof.
  intros Hown Hne Hc Ho.
  destruct (swap_spec _ _ _ _ _ _ _ Hown Hne Hc Ho)
    as (w1 & n1 & n2 & Hrun1 & Hown1 & Hc1 & Ho1).
  destruct (swap_spec _ _ _ _ _ _ _ Hown1 Hne Hc1 Ho1)
    as (w2 & m1 & m2 & Hrun2 & _ & Hc2 & Ho2).
  exists w2. split_and!.
  - by rewrite (bind_Ok _ _ _ _ _ Hrun1).
  - by rewrite (current_contents _ _ _ _ Hc2).
  - by rewrite (current_contents _ _ _ _ Ho2).
Qed.

(** X18. swap with a vector of the caller hands the caller the sequence of
    the container and the container the sequence of the vector; swapping
    the same vector in again restores both. *)
Theorem swap_raw_exchanges w c p v other :
  current w c p v →
  ∃ r1 w1 r2 w2,
    fe.swap_raw c other w = Ok r1 w1
    ∧ elems r1 = elems v
    ∧ contents w1 c = Some (elems other)
    ∧ fe.swap_raw c r1 w1 = Ok r2 w2
    ∧ elems r2 = elems other
    ∧ contents w2 c = Some (elems v).
Proof.
  intros (k & Hc & Hp).
  pose proof (published_current c p v other _ w Hc Hp) as (k1 & Hc1 & Hp1).
  eexists _, _, _, _. split_and!.
  - apply (swap_raw_eq _ _ _ _ _ _ Hc Hp).
  - done.
  - by erewrite published_contents by done.
  - apply (swap_raw_eq _ _ _ _ _ _ Hc1 Hp1).
  - done.
  - by erewrite published_contents by done.
Qed.

(** *** What a call on one container does to the store *)

Lemma republished_effect c w w' : republished c w w' → effect w w'.
Proof.
  intros [->|(p & b & v' & Hc & Hp & ->)]; [apply effect_none|].
  by eapply effect_published.
Qed.

Ltac by_cases_republished Heq :=
  intros Hown Hrun;
  destruct (lock_guard_returns _ _ _ _ _ Hrun) as [p Hc];
  destruct (owned_current _ _ _ Hown Hc) as (v & k & Hp);
  revert Hrun; rewrite (Heq _ _ _ _ Hc Hp); cbv zeta;
  repeat case_decide; intros [= _ <-];
  first [by left | right; by eexists _, _, _].

Lemma copy_modify_publish_republished c f w r w' :
  owned w → fe.copy_modify_publish c f w = Ok r w' → republished c w w'.
Proof.
  intros Hown Hrun.
  destruct (lock_guard_returns _ _ _ _ _ Hrun) as [p Hc].
  destruct (owned_current _ _ _ Hown Hc) as (v & k & Hp).
  revert Hrun. rewrite (copy_modify_publish_eq _ _ _ _ _ _ Hc Hp).
  destruct (f (vec_copy v)); [|done]. intros [= _ <-].
  right. by eexists _, _, _.
Qed.

Lemma copy_modify_publish_or_throw_republished c f w r w' :
  owned w → fe.copy_modify_publish_or_throw c f w = Ok r w' →
  republished c w w'.
Proof.
  intros Hown Hrun.
  destruct (lock_guard_returns _ _ _ _ _ Hrun) as [p Hc].
  destruct (owned_current _ _ _ Hown Hc) as (v & k & Hp).
  revert Hrun. rewrite (copy_modify_publish_or_throw_eq _ _ _ _ _ _ Hc Hp).
  destruct (f (vec_copy v)) as [[e|v']|]; [done| |done]. intros [= _ <-].
  right. by eexists _, _, _.
Qed.

Lemma call_republished c m w r w' :
  owned w → (∀ other, m ≠ Swap other) → call c m w = Ok r w' →
  republished c w w'.
Proof.
  intros Hown Hm.
  destruct m; cbn [call];
    try (by apply copy_modify_publish_republished);
    try (by apply copy_modify_publish_or_throw_republished);
    try (intros [a Hrun]%dropped_result; revert Hrun);
    unfold fe.erase_all, fe.erase_all_if; revert Hown.
  - by_cases_republished (λ w, clear_eq c w).
  - by_cases_republished (λ w, replace_eq c old_value new_value w).
  - by_cases_republished (λ w, replace_all_eq c old_value new_value w).
  - by_cases_republished (λ w, replace_if_eq c pred value w).
  - by_cases_republished (λ w, replace_all_if_eq c pred value w).
  - by_cases_republished (λ w, erase_eq c value w).
  - by_cases_republished (λ w, remove_erase_eq c (equal_to value) w).
  - by_cases_republished (λ w, erase_if_eq c pred w).
  - by_cases_republished (λ w, remove_erase_eq c pred w).
  - by_cases_republished (λ w, push_back_if_absent_eq c value w).
  - by_cases_republished (λ w, push_back_if_absent_range_eq c l w).
  - by destruct (Hm other).
  - by_cases_republished (λ w, swap_raw_eq c other w).
Qed.

Lemma publish_at_other n c p v' w c' :
  owned w → vectors w !! c = Some (Cow p false) → heap w !! n = None →
  c' ≠ c →
  buffer (publish_at n c p v' w) c' = buffer w c'
  ∧ contents (publish_at n c p v' w) c' = contents w c'.
Proof.
  intros [Halive Hown] Hc Hn Hne. unfold contents, buffer.
  rewrite publish_at_vectors, lookup_other by done. split; [done|].
  destruct (vectors w !! c') as [o'|] eqn:Hc'; [|done].
  cbn -[publish_at].
  destruct (Halive _ _ Hc') as (v1 & k1 & Hq).
  rewrite publish_at_lookup_other; [done| |].
  - intros Heq. congruence.
  - intros Heq. apply Hne. by eapply Hown.
Qed.

Lemma call_frame w c m r w' c' :
  owned w → c' ≠ c → (∀ other, m = Swap other → c' ≠ other) →
  call c m w = Ok r w' →
  buffer w' c' = buffer w c' ∧ contents w' c' = contents w c'.
Proof.
  intros Hown Hne Hm Hrun.
  assert ((∃ other, m = Swap other) ∨ ∀ other, m ≠ Swap other)
    as [[other ->]|Hnot].
  { destruct m; try (by right); left; eauto. }
  - cbn [call] in Hrun. specialize (Hm other eq_refl).
    destruct (swap_returns _ _ _ _ _ Hrun) as (Hco & p & q & Hc & Ho).
    destruct (owned_current _ _ _ Hown Hc) as (v & k1 & Hp).
    destruct (owned_current _ _ _ Hown Ho) as (u & k2 & Hq).
    assert (p ≠ q) as Hpq.
    { intros ->. apply Hco. by eapply (proj2 Hown c other). }
    pose proof (fresh_heap_ne _ _ _ Hp) as Hn1p.
    pose proof (fresh_heap_ne _ _ _ Hq) as Hn1q.
    revert Hrun.
    erewrite (swap_eq c other w p q v u); [|done..|]; cycle 1.
    { by rewrite release_block_lookup_ne. }
    cbv zeta. set (n1 := fresh (dom (heap w))) in *.
    set (n2 := fresh (dom (<[n1 := Block (vec_copy v) 1]> (heap w)))).
    assert (n2 ≠ n1) as Hn21.
    { eapply fresh_heap_ne. apply lookup_same. }
    assert (n2 ≠ p) as Hn2p.
    { eapply fresh_heap_ne. by rewrite lookup_other. }
    assert (heap w !! n2 = None) as Hn2.
    { pose proof (fresh_heap_None (<[n1 := Block (vec_copy v) 1]> (heap w)))
        as Hnone. fold n2 in Hnone. by rewrite lookup_other in Hnone. }
    assert (heap w !! n1 = None) as Hn1 by apply fresh_heap_None.
    intros [= _ <-].
    set (w1 := publish_at n1 c p (vec_copy u) w).
    assert (owned w1) as Hown1.
    { eapply effect_owned; [|exact Hown]. by eapply (effect_publish w n1). }
    destruct (publish_at_other n1 c p (vec_copy u) w c' Hown Hc Hn1 Hne)
      as [Hb1 Hc1].
    destruct (publish_at_other n2 other q (vec_copy v) w1 c' Hown1)
      as [Hb2 Hc2]; [| |done|].
    + unfold w1. by rewrite publish_at_vectors, lookup_other.
    + unfold w1. by rewrite publish_at_lookup_other.
    + by rewrite Hb2, Hc2.
  - assert (republished c w w') as [->|(p & b & v' & Hc & Hp & ->)]; [|done|].
    { by eapply call_republished. }
    apply publish_at_other; [done..|apply fresh_heap_None|done].
Qed.

(** X19. Mutator calls on other containers do not reach a container: a
    sequence of calls none of which is made on the container c' or swaps
    with it leaves c' on its block, with its sequence. *)
Theorem calls_leave_others ops c' :
  ∀ w r w',
    owned w →
    (∀ c m, (c, m) ∈ ops → c ≠ c' ∧ ∀ other, m = Swap other → other ≠ c') →
    calls ops w = Ok r w' →
    buffer w' c' = buffer w c' ∧ contents w' c' = contents w c'.
Proof.
  induction ops as [|[c m] ops IH]; intros w r w' Hown Hops.
  - by intros [= _ <-].
  - cbn [calls]. unfold mbind, M_bind, bind.
    destruct (call c m w) as [[] w1| |] eqn:Hcall; [|done..].
    intros Hrest.
    destruct (Hops c m) as [Hne Hswap]; [apply list_elem_of_here|].
    destruct (call_frame w c m tt w1 c' Hown) as [Hbuffer Hcontents];
      [done| |done|].
    { intros other Hm. apply not_eq_sym. by apply Hswap. }
    destruct (IH w1 r w') as [Hbuffer' Hcontents']; [| |done|].
    + eapply effect_owned; [|done]. by eapply call_effect.
    + intros c0 m0 Hin. apply Hops. by apply list_elem_of_further.
    + by rewrite Hbuffer', Hcontents'.
Qed.

(** *** Invariants of the store under sequences of calls *)

Lemma effect_idle w w' :
  effect w w' →
  idle w → idle w' ∧ dom (vectors w') = dom (vectors w).
Proof.
  induction 1 as [w|w n c p b v' Hc Hp Hn|w1 w2 w3 _ IH1 _ IH2]; [done| |].
  - intros Hidle. split.
    + intros c' o'. rewrite publish_at_vectors.
      destruct (decide (c = c')) as [<-|Hne].
      * rewrite lookup_same. by intros [= <-].
      * rewrite lookup_other by done. apply Hidle.
    + rewrite publish_at_vectors. by apply dom_insert_lookup_L.
  - intros Hidle. destruct (IH1 Hidle) as [Hidle2 Hdom2].
    destruct (IH2 Hidle2) as [Hidle3 Hdom3]. split; [done|congruence].
Qed.

(** X20. Every sequence of mutator calls that runs to its end keeps the
    store well formed: each container still refers to a live block that
    no other container refers to, every mutex is released again, and the
    containers of the store are the same as before. *)
Theorem calls_keep_store ops w r w' :
  owned w → idle w → calls ops w = Ok r w' →
  owned w' ∧ idle w' ∧ dom (vectors w') = dom (vectors w).
Proof.
  intros Hown Hidle Hrun.
  pose proof (calls_effect _ _ _ _ Hown Hrun) as Heffect.
  split; [by eapply effect_owned|by apply effect_idle].
Qed.

Lemma effect_tight w w' : effect w w' → owned w → tight w → tight w'.
Proof.
  induction 1 as [w|w n c p b v' Hc Hp Hn|w1 w2 w3 H1 IH1 H2 IH2]; [done| |].
  - intros [Halive Hown] Htight q bq.
    assert (n ≠ p) as Hnp by (intros ->; congruence).
    destruct (Htight _ _ Hp) as [Hone _].
    unfold publish_at. projections.
    rewrite release_block_insert_ne by done.
    destruct (decide (q = n)) as [->|Hqn].
    + rewrite lookup_same. intros [= <-]. split; [done|].
      exists c, (Cow n false). by rewrite lookup_same.
    + rewrite lookup_other by done.
      unfold release_block. rewrite Hp, decide_True by lia.
      destruct (decide (q = p)) as [->|Hqp].
      * by rewrite (lookup_delete_eq (M:=gmap nat)).
      * rewrite (lookup_delete_ne (M:=gmap nat)) by done. intros Hq.
        destruct (Htight _ _ Hq) as [Hcount (c' & o' & Hc' & Ho')].
        split; [done|]. exists c', o'. split; [|done].
        rewrite lookup_other; [done|]. intros Heq. subst.
        rewrite Hc in Hc'. by simplify_eq.
  - intros Hown Htight. apply IH2; [by eapply effect_owned|by apply IH1].
Qed.

(** X21. While no snapshot or iterator is alive, a sequence of mutator
    calls leaks no block and keeps none alive: if every block of the store
    is the block of a container and has one reference, this is so after
    the calls; the block a container referred to before a copy is
    freed. *)
Theorem calls_leak_nothing ops w r w' :
  owned w → tight w → calls ops w = Ok r w' → tight w'.
Proof.
  intros Hown Htight Hrun. eapply effect_tight; [|done..].
  by eapply calls_effect.
Qed.

(** *** Snapshots and the life time of a block *)

(** X22. lock() takes no mutex: it returns a snapshot of the block of the
    container whether the mutex is held or not; the snapshot reads the
    sequence of the container, and destroying it gives back the store
    before lock(). *)
Theorem lock_then_destroy w c o v k :
  vectors w !! c = Some o →
  heap w !! _shared_container o = Some (Block v (S k)) →
  ∃ s w1,
    fe.lock c w = Ok s w1
    ∧ fe.snapshot_elements s w1 = Ok (elems v) w1
    ∧ fe.snapshot_destroy s w1 = Ok tt w.
Proof.
  intros Hc Hp. eexists _, _. split_and!.
  - by apply (lock_Ok _ _ _ _ _ Hc Hp).
  - by erewrite (snapshot_elements_eq (Snapshot _))
      by (projections; apply lookup_same).
  - unfold fe.snapshot_destroy. projections.
    erewrite shared_ptr_release_Ok by (projections; apply lookup_same).
    projections. rewrite release_after_copy.
    rewrite (insert_same (heap w)) by done. by destruct w.
Qed.

(** X23. The block a container referred to is freed by the mutator that
    publishes a copy when the container held the only reference; when a
    snapshot holds it too, the block stays, unchanged, until the snapshot
    is destroyed, and is freed then. *)
Theorem old_block_freed_with_last_reference w c p v value :
  vectors w !! c = Some (Cow p false) →
  heap w !! p = Some (Block v 1) →
  (∃ w', fe.push_back c value w = Ok tt w' ∧ heap w' !! p = None)
  ∧ ∃ s w1 w2 w3,
      fe.lock c w = Ok s w1
      ∧ fe.push_back c value w1 = Ok tt w2
      ∧ heap w2 !! p = Some (Block v 1)
      ∧ fe.snapshot_destroy s w2 = Ok tt w3
      ∧ heap w3 !! p = None
      ∧ contents w3 c = Some (elems v ++ [value]).
Proof.
  intros Hc Hp.
  pose proof (fresh_heap_ne _ _ _ Hp) as Hnp.
  split.
  - eexists. split.
    + unfold fe.push_back.
      by rewrite (copy_modify_publish_eq _ _ _ _ _ _ Hc Hp).
    + unfold published, publish_at. projections.
      rewrite release_block_insert_ne, lookup_other by done.
      unfold release_block. rewrite Hp. simpl.
      by rewrite (lookup_delete_eq (M:=gmap nat)).
  - set (w1 := World (<[p := Block v 2]> (heap w)) (vectors w)).
    assert (heap w1 !! p = Some (Block v 2)) as Hp1 by apply lookup_same.
    assert (fresh (dom (heap w1)) ≠ p) as Hn1p by (by eapply fresh_heap_ne).
    set (v' := vec_push_back value (vec_copy v)).
    set (w2 := published c p v' w1).
    assert (heap w2 !! p = Some (Block v 1)) as Hp2.
    { unfold w2, published, publish_at. projections.
      rewrite release_block_insert_ne, lookup_other by done.
      unfold w1. projections. rewrite release_after_copy. apply lookup_same. }
    exists (Snapshot p), w1, w2. eexists. split_and!.
    + by rewrite (lock_Ok _ _ _ _ _ Hc Hp).
    + unfold fe.push_back.
      by rewrite (copy_modify_publish_eq c _ w1 p v 2 Hc Hp1).
    + done.
    + unfold fe.snapshot_destroy. projections.
      by erewrite shared_ptr_release_Ok by exact Hp2.
    + projections. unfold release_block. rewrite Hp2. simpl.
      by rewrite (lookup_delete_eq (M:=gmap nat)).
    + unfold contents, buffer. projections. unfold w2, published.
      rewrite publish_at_vectors, lookup_same.
      cbn -[publish_at release_block].
      rewrite release_block_lookup_ne by done.
      by rewrite publish_at_lookup_new.
Qed.

(** *** Reading without a bounds check *)

Lemma with_lock_Undefined {A} c (f : snapshot → M T A) o v k w :
  vectors w !! c = Some o →
  heap w !! _shared_container o = Some (Block v (S k)) →
  (∀ w', heap w' !! _shared_container o = Some (Block v (S (S k))) →
         f (Snapshot (_shared_container o)) w' = Undefined) →
  fe.with_lock c f w = Undefined.
Proof.
  intros Hc Hp Hf. unfold fe.with_lock.
  rewrite (bind_Ok _ _ _ _ _ (lock_Ok _ _ _ _ _ Hc Hp)).
  apply finally_Undefined. apply Hf. projections. apply lookup_same.
Qed.

(* the body of lock().f() changes the store *)
Lemma with_lock_run {A} c (f : snapshot → M T A) o v k a w w2 b :
  vectors w !! c = Some o →
  heap w !! _shared_container o = Some (Block v k) →
  f (Snapshot (_shared_container o))
    (World (<[_shared_container o := Block v (S k)]> (heap w)) (vectors w))
    = Ok a w2 →
  heap w2 !! _shared_container o = Some b →
  fe.with_lock c f w =
    Ok a (World (release_block (_shared_container o) (heap w2))
                (vectors w2)).
Proof.
  intros Hc Hp Hf Hb. unfold fe.with_lock.
  rewrite (bind_Ok _ _ _ _ _ (lock_Ok _ _ _ _ _ Hc Hp)).
  eapply finally_Ok; [exact Hf|].
  unfold fe.snapshot_destroy. projections.
  by apply (shared_ptr_release_Ok _ b).
Qed.

(** X24. operator[], front() and back() do not check: operator[] reads the
    element at an index below the size, as at() does, and is undefined
    from the size on, where at() throws; front() and back() read the first
    and the last element and are undefined on an empty container; empty()
    tells whether the size is 0.  None of them changes the store. *)
Theorem unchecked_access w c p v :
  current w c p v →
  (∀ n x, elems v !! n = Some x →
     fe.subscript c n w = Ok x w ∧ fe.at_ c n w = Ok x w)
  ∧ (∀ n, vec_size v ≤ n →
       fe.subscript c n w = Undefined
       ∧ fe.at_ c n w = Throw out_of_range w)
  ∧ (elems v = [] →
       fe.front c w = Undefined ∧ fe.back c w = Undefined
       ∧ fe.empty c w = Ok true w)
  ∧ (∀ x (l : list T), elems v = x :: l →
       fe.front c w = Ok x w ∧ fe.empty c w = Ok false w)
  ∧ (∀ (l : list T) x, elems v = l ++ [x] → fe.back c w = Ok x w).
Proof.
  intros Hcur. pose proof Hcur as (k & Hc & Hp).
  assert (∀ A (f : snapshot → M T A) a,
            (∀ w', f (Snapshot p) w' = (deref p ≫= λ u, a u) w') →
            ∀ r, a v = mret r → fe.with_lock c f w = Ok r w) as Hreads.
  { intros A f a Hf r Hr.
    eapply (with_lock_Ok c _ (Cow p false) v k); [done..|].
    intros w' Hw'. rewrite Hf, (bind_Ok _ _ _ _ _ (deref_Ok _ _ _ Hw')).
    cbn [object]. by rewrite Hr. }
  assert (∀ A (f : snapshot → M T A) a,
            (∀ w', f (Snapshot p) w' = (deref p ≫= λ u, a u) w') →
            a v = undefined → fe.with_lock c f w = Undefined) as Hfails.
  { intros A f a Hf Hr.
    eapply (with_lock_Undefined c _ (Cow p false) v k); [done..|].
    intros w' Hw'. rewrite Hf, (bind_Ok _ _ _ _ _ (deref_Ok _ _ _ Hw')).
    cbn [object]. by rewrite Hr. }
  split_and!.
  - intros n x Hx. split; [|by eapply at_current].
    eapply (Hreads _ _ (λ u, match vec_subscript n u with
                             | Some x => mret x | None => undefined end));
      [done|]. unfold vec_subscript. by rewrite Hx.
  - intros n Hn. split.
    + eapply (Hfails _ _ (λ u, match vec_subscript n u with
                               | Some x => mret x | None => undefined end));
        [done|]. unfold vec_subscript. by rewrite lookup_ge_None_2.
    + unfold fe.at_.
      eapply (with_lock_Throw c _ (Cow p false) v k); [done..|].
      intros w' Hw'. rewrite (snapshot_at_eq (Snapshot _) _ _ _ Hw').
      cbn [object]. by rewrite lookup_ge_None_2.
  - intros Hempty. split_and!.
    + eapply (Hfails _ _ (λ u, match vec_front u with
                               | Some x => mret x | None => undefined end));
        [done|]. unfold vec_front. by rewrite Hempty.
    + eapply (Hfails _ _ (λ u, match vec_back u with
                               | Some x => mret x | None => undefined end));
        [done|]. unfold vec_back. by rewrite Hempty.
    + eapply (Hreads _ _ (λ u, mret (bool_decide (vec_size u = 0))));
        [done|]. unfold vec_size. by rewrite Hempty.
  - intros x l Hv. split.
    + eapply (Hreads _ _ (λ u, match vec_front u with
                               | Some x => mret x | None => undefined end));
        [done|]. unfold vec_front. by rewrite Hv.
    + eapply (Hreads _ _ (λ u, mret (bool_decide (vec_size u = 0))));
        [done|]. unfold vec_size. by rewrite Hv.
  - intros l x Hv.
    eapply (Hreads _ _ (λ u, match vec_back u with
                             | Some x => mret x | None => undefined end));
      [done|]. unfold vec_back. by rewrite Hv, last_snoc.
Qed.

(** *** Copying and moving containers *)

Lemma new_container_Ok p w :
  fe.new_container p w =
    Ok (fresh (dom (vectors w)))
       (World (heap w) (<[fresh (dom (vectors w)) := Cow p false]> (vectors w))).
Proof. done. Qed.

Lemma copy_construct_eq other q u w :
  current w other q u →
  fe.copy_construct other w =
    Ok (fresh (dom (vectors w)))
       (World (<[fresh (dom (heap w)) := Block (vec_copy u) 1]> (heap w))
              (<[fresh (dom (vectors w)) := Cow (fresh (dom (heap w))) false]>
                 (vectors w))).
Proof.
  intros (k & Hc & Hp). unfold fe.copy_construct.
  pose proof (fresh_heap_ne _ _ _ Hp) as Hnq.
  pose proof (dom_insert_live _ _ _ (Block u (S (S k))) Hp) as Hdom.
  set (n := fresh (dom (heap w))) in *.
  set (w1 := World (<[q := Block u (S (S k))]> (heap w)) (vectors w)).
  assert ((v ← deref q; p ← make_shared (vec_copy v); fe.new_container p) w1
          = Ok (fresh (dom (vectors w)))
               (World (<[n := Block (vec_copy u) 1]> (heap w1))
                      (<[fresh (dom (vectors w)) := Cow n false]>
                         (vectors w)))) as Hf.
  { unfold w1. mrun. rewrite new_container_Ok. projections.
    by rewrite Hdom. }
  erewrite (with_lock_run other _ (Cow q false) u (S k) _ w _ _ Hc Hp Hf).
  2: { unfold w1. projections. rewrite lookup_other by done.
       apply lookup_same. }
  unfold w1. projections.
  rewrite release_block_insert_ne, release_after_copy by done.
  by rewrite (insert_same (heap w)).
Qed.

Lemma owned_add w n c v :
  owned w → heap w !! n = None → vectors w !! c = None →
  owned (World (<[n := Block v 1]> (heap w))
               (<[c := Cow n false]> (vectors w))).
Proof.
  intros [Halive Hown] Hn Hc. split.
  - intros c' o'. projections.
    destruct (decide (c = c')) as [<-|Hne].
    + rewrite lookup_same. intros [= <-]. projections.
      rewrite lookup_same. eauto.
    + rewrite lookup_other by done. intros Hc'.
      destruct (Halive _ _ Hc') as (v1 & k1 & Hp).
      rewrite lookup_other by congruence. eauto.
  - intros c1 c2 o1 o2. projections.
    destruct (decide (c = c1)) as [<-|Hne1];
      destruct (decide (c = c2)) as [<-|Hne2]; [done|..].
    + rewrite lookup_same, lookup_other by done.
      intros [= <-] Hc2 Heq. cbn [_shared_container] in Heq.
      destruct (Halive _ _ Hc2) as (v1 & k1 & Hp). congruence.
    + rewrite lookup_same, lookup_other by done.
      intros Hc1 [= <-] Heq. cbn [_shared_container] in Heq.
      destruct (Halive _ _ Hc1) as (v1 & k1 & Hp). congruence.
    + rewrite !lookup_other by done. apply Hown.
Qed.

Lemma equal_eq lhs rhs p q v u w :
  current w lhs p v → current w rhs q u →
  fe.equal lhs rhs w = Ok (bool_decide (elems v = elems u)) w
  ∧ fe.not_equal lhs rhs w = Ok (negb (bool_decide (elems v = elems u))) w.
Proof.
  intros (k1 & Hl & Hp) (k2 & Hr & Hq).
  unfold fe.equal, fe.not_equal, fe.compare. split; by mrun.
Qed.

(** X25. The copy constructor makes a new container with a block of its
    own that holds the sequence of the source; the source keeps its block
    and its sequence, operator== finds the two equal, and a later mutator
    call on either of them leaves the sequence of the other as it is. *)
Theorem copy_construct_independent w other q u :
  owned w → current w other q u →
  ∃ c w',
    fe.copy_construct other w = Ok c w'
    ∧ vectors w !! c = None
    ∧ owned w'
    ∧ contents w' c = Some (elems u)
    ∧ contents w' other = Some (elems u)
    ∧ buffer w' other = Some q
    ∧ buffer w' c ≠ buffer w' other
    ∧ fe.equal c other w' = Ok true w'
    ∧ (∀ m r w'',
         (∀ o, m = Swap o → o ≠ other) → call c m w' = Ok r w'' →
         contents w'' other = Some (elems u))
    ∧ (∀ m r w'',
         (∀ o, m = Swap o → o ≠ c) → call other m w' = Ok r w'' →
         contents w'' c = Some (elems u)).
Proof.
  intros Hown Hcur. pose proof Hcur as (k & Ho & Hq).
  pose proof (fresh_heap_ne _ _ _ Hq) as Hnq.
  assert (vectors w !! fresh (dom (vectors w)) = None) as Hc.
  { apply not_elem_of_dom, is_fresh. }
  assert (fresh (dom (vectors w)) ≠ other) as Hne by (intros Heq; congruence).
  set (c := fresh (dom (vectors w))) in *.
  set (n := fresh (dom (heap w))) in *.
  set (w' := World (<[n := Block (vec_copy u) 1]> (heap w))
                   (<[c := Cow n false]> (vectors w))).
  assert (owned w') as Hown'.
  { apply owned_add; [done|apply fresh_heap_None|done]. }
  assert (current w' c n (vec_copy u)) as Hcur1.
  { exists 0. unfold w'. projections. by rewrite !lookup_same. }
  assert (current w' other q u) as Hcur2.
  { exists k. unfold w'. projections. by rewrite !lookup_other. }
  exists c, w'. split_and!.
  - apply (copy_construct_eq _ _ _ _ Hcur).
  - done.
  - done.
  - by rewrite (current_contents _ _ _ _ Hcur1).
  - by rewrite (current_contents _ _ _ _ Hcur2).
  - by rewrite (current_buffer _ _ _ _ Hcur2).
  - rewrite (current_buffer _ _ _ _ Hcur1), (current_buffer _ _ _ _ Hcur2).
    by intros [= Heq].
  - destruct (equal_eq _ _ _ _ _ _ _ Hcur1 Hcur2) as [-> _].
    by rewrite bool_decide_eq_true_2.
  - intros m r w'' Hm Hrun.
    destruct (call_frame w' c m r w'' other Hown') as [_ ->]; [done| |done|].
    + intros o Ho'. apply not_eq_sym. by apply Hm.
    + by rewrite (current_contents _ _ _ _ Hcur2).
  - intros m r w'' Hm Hrun.
    destruct (call_frame w' other m r w'' c Hown') as [_ ->]; [done| |done|].
    + intros o Ho'. apply not_eq_sym. by apply Hm.
    + by rewrite (current_contents _ _ _ _ Hcur1).
Qed.






Lemma owned_insert w q u k :
  owned w → owned (World (<[q := Block u (S k)]> (heap w)) (vectors w)).
Proof.
  intros [Halive Hown]. split; [|done].
  intros c o Hc. projections.
  destruct (decide (_shared_container o = q)) as [->|Hne].
  - rewrite lookup_same. eauto.
  - rewrite lookup_other by done. by eapply Halive.
Qed.


(** *** Iterating over a snapshot while the container changes *)

Lemma effect_held_by m w w' l v :
  effect w w' → owned w → held_by (S m) w l v → held_by (S m) w' l v.
Proof.
  induction 1 as [w|w n c p b v' Hc Hp Hn|w1 w2 w3 H1 IH1 H2 IH2];
    [done| |].
  - intros [Halive Hown] (k & Hl & Hm & Hk).
    assert (n ≠ p) as Hnp by (intros ->; congruence).
    assert (l ≠ n) as Hln by (intros ->; congruence).
    destruct (decide (l = p)) as [->|Hlp].
    + assert (S m < k) as Hlt by (apply Hk; eauto).
      destruct k as [|[|k]]; [lia..|].
      exists (S k). split_and!; [|lia|].
      * unfold publish_at. projections.
        rewrite release_block_insert_ne, lookup_other by done.
        unfold release_block. rewrite Hl. cbn [use_count object].
        destruct (decide (S (S k) ≤ 1)); [lia|]. rewrite lookup_same.
        by replace (S (S k) - 1) with (S k) by lia.
      * intros (c' & o' & Hc' & Ho'). exfalso.
        rewrite publish_at_vectors in Hc'.
        destruct (decide (c = c')) as [<-|Hne].
        -- rewrite lookup_same in Hc'. by simplify_eq.
        -- rewrite lookup_other in Hc' by done. apply Hne.
           by eapply Hown.
    + exists k. split_and!; [|done|].
      * by rewrite publish_at_lookup_other.
      * intros (c' & o' & Hc' & Ho'). apply Hk.
        rewrite publish_at_vectors in Hc'.
        destruct (decide (c = c')) as [<-|Hne].
        -- rewrite lookup_same in Hc'. by simplify_eq.
        -- rewrite lookup_other in Hc' by done. eauto.
  - intros Hown Hheld. apply IH2; [by eapply effect_owned|by apply IH1].
Qed.

(* an iterator or a snapshot gives up its reference to a block that others
   hold too *)
Lemma release_held m w p v :
  owned w → held_by (S (S m)) w p v →
  ∃ w',
    shared_ptr_release p w = Ok tt w'
    ∧ owned w'
    ∧ held_by (S m) w' p v
    ∧ (∀ c q u, current w c q u → current w' c q u)
    ∧ ∀ n, heap w !! p = Some (Block v (S n)) →
           heap w' !! p = Some (Block v n).
Proof.
  intros Hown (k & Hp & Hm & Hk).
  destruct k as [|[|k]]; [lia..|].
  assert (release_block p (heap w) = <[p := Block v (S k)]> (heap w)) as Hrel.
  { unfold release_block. rewrite Hp. cbn [use_count object].
    rewrite decide_False by lia.
    by replace (S (S k) - 1) with (S k) by lia. }
  eexists. split_and!.
  - by apply (shared_ptr_release_Ok _ _ _ Hp).
  - rewrite Hrel. by apply owned_insert.
  - rewrite Hrel. exists (S k). projections. rewrite lookup_same.
    split_and!; [done|lia|]. intros Hcont. apply Hk in Hcont. lia.
  - intros c q u (k' & Hc & Hq). rewrite Hrel. projections.
    destruct (decide (q = p)) as [->|Hne].
    + exists k. unfold current. projections. rewrite lookup_same.
      split; [done|]. congruence.
    + exists k'. unfold current. projections. by rewrite lookup_other.
  - intros n Hn. rewrite Hrel. projections. rewrite lookup_same.
    congruence.
Qed.

Lemma cursor_not_equal_Ok p' p'' p i j w :
  fe.cursor_not_equal (fe.Cursor p' (Iter p i)) (fe.Cursor p'' (Iter p j)) w
    = Ok (bool_decide (i ≠ j)) w.
Proof.
  unfold fe.cursor_not_equal. cbn [fe.cursor_itr it_container it_index].
  by rewrite decide_True.
Qed.

Lemma cursor_increment_Ok p' p i b w :
  heap w !! p = Some b → i < vec_size (object b) →
  fe.cursor_increment (fe.Cursor p' (Iter p i)) w
    = Ok (fe.Cursor p' (Iter p (S i))) w.
Proof.
  intros Hp Hi. unfold fe.cursor_increment.
  cbn [fe.cursor_itr fe.cursor_shared_container it_container it_index].
  rewrite (bind_Ok _ _ _ _ _ (deref_Ok _ _ _ Hp)).
  by rewrite decide_True.
Qed.

(* The loop with push_back on c as its body.  Next to the snapshot and the
   two iterators the block p has m references; the container adds one as
   long as it is on p, and it leaves p in the first round. *)
Lemma range_for_loop_push_back c p v (f : T → T) m (rest : list T) :
  ∀ (pre seen : list T) w q u,
    elems v = pre ++ rest →
    owned w → held_by 3 w p v → current w c q u →
    0 < m →
    heap w !! p = Some (Block v (if decide (q = p) then S m else m)) →
    ∃ w' q' u',
      fe.range_for_loop (length rest)
          (fe.Cursor p (Iter p (length pre))) (fe.Cursor p (Iter p (vec_size v)))
          (λ elem, fe.push_back c (f elem)) seen w
        = Ok (seen ++ rest) w'
      ∧ owned w' ∧ held_by 3 w' p v ∧ current w' c q' u'
      ∧ elems u' = elems u ++ map f rest
      ∧ heap w' !! p = Some (Block v (if decide (q' = p) then S m else m))
      ∧ (rest = [] → q' = q) ∧ (rest ≠ [] → q' ≠ p).
Proof.
  induction rest as [|x rest IH];
    intros pre seen w q u Hv Hown Hheld Hcur Hm Hcount.
  - exists w, q, u. rewrite !app_nil_r. split_and!; [|done..].
    cbn [fe.range_for_loop length].
    rewrite (bind_Ok _ _ _ _ _ (cursor_not_equal_Ok _ _ _ _ _ _)).
    rewrite bool_decide_eq_false_2; [done|].
    unfold vec_size. rewrite Hv, app_nil_r. by intros Hne.
  - pose proof Hheld as (k & Hp & _).
    assert (length pre < vec_size v) as Hlt.
    { unfold vec_size. rewrite Hv, length_app. simpl. lia. }
    assert (elems v !! length pre = Some x) as Hx.
    { rewrite Hv. apply list_lookup_middle. done. }
    destruct (plain_mutator w c q u (λ v, Some (vec_push_back (f x) v)) _
                Hcur eq_refl) as [Hrun Hcur1].
    pose proof (fresh_heap_ne _ _ _ Hp) as Hnp.
    set (q1 := fresh (dom (heap w))) in *.
    set (w1 := published c q (vec_push_back (f x) (vec_copy u)) w) in *.
    assert (effect w w1) as Heffect.
    { destruct Hcur as (k' & Hc & Hq). by eapply effect_published. }
    pose proof (effect_owned _ _ Heffect Hown) as Hown1.
    pose proof (effect_held_by _ _ _ _ _ Heffect Hown Hheld) as Hheld1.
    pose proof Hheld1 as (k1 & Hp1 & _).
    assert (heap w1 !! p
            = Some (Block v (if decide (q1 = p) then S m else m)))
      as Hcount1.
    { assert (q1 ≠ q) as Hnq.
      { destruct Hcur as (k' & _ & Hq). by eapply fresh_heap_ne. }
      rewrite decide_False by done. unfold w1, published, publish_at.
      projections. fold q1.
      rewrite release_block_insert_ne, lookup_other by done.
      destruct (decide (q = p)) as [->|Hqp].
      - unfold release_block. rewrite Hcount. cbn [use_count object].
        rewrite decide_False by lia. rewrite lookup_same.
        by replace (S m - 1) with m by lia.
      - rewrite release_block_lookup_ne by done. exact Hcount. }
    assert (elems v = (pre ++ [x]) ++ rest) as Hv'
      by (by rewrite <- app_assoc).
    destruct (IH (pre ++ [x]) (seen ++ [x]) w1 _ _ Hv' Hown1 Hheld1 Hcur1
                Hm Hcount1)
      as (w' & q' & u' & Hloop & Hown' & Hheld' & Hcur' & Hu' & Hcount'
          & Hsame & Hleft).
    exists w', q', u'. split_and!; [|done..| |done| |].
    + cbn [fe.range_for_loop length].
      rewrite (bind_Ok _ _ _ _ _ (cursor_not_equal_Ok _ _ _ _ _ _)).
      rewrite bool_decide_eq_true_2 by lia.
      unfold fe.cursor_read at 1. cbn [fe.cursor_itr].
      rewrite (bind_Ok _ _ _ _ _ (iter_read_Ok _ _ _ _ _ Hp Hx)).
      unfold fe.push_back at 1. rewrite (bind_Ok _ _ _ _ _ Hrun).
      rewrite (bind_Ok _ _ _ _ _
                 (cursor_increment_Ok _ _ _ _ _ Hp1 Hlt)).
      rewrite length_app in Hloop. simpl in Hloop.
      replace (length pre + 1) with (S (length pre)) in Hloop by lia.
      rewrite <- app_assoc in Hloop. exact Hloop.
    + rewrite Hu'. simpl. by rewrite <- app_assoc.
    + done.
    + intros _. destruct rest as [|y rest].
      * by rewrite Hsame.
      * by apply Hleft.
Qed.

(** X28. The example of the class documentation: a range-based for over a
    snapshot whose body calls push_back on the container.  The loop
    returns after visiting exactly the elements the container held when
    the snapshot was taken, in order; the container has received one
    element per round; the snapshot still reads the former sequence.  The
    references of the two iterators are given back: the block of the
    snapshot ends with the use count it had before the loop, less the
    reference of the container, which leaves the block in the first
    round. *)
Theorem range_for_unaffected_by_push_back w c p v (f : T → T) :
  owned w → current w c p v →
  ∃ s w1 w2,
    fe.lock c w = Ok s w1
    ∧ fe.range_for s (λ elem, fe.push_back c (f elem)) w1 = Ok (elems v) w2
    ∧ contents w2 c = Some (elems v ++ map f (elems v))
    ∧ fe.snapshot_elements s w2 = Ok (elems v) w2
    ∧ owned w2
    ∧ ∀ n, heap w1 !! p = Some (Block v n) →
           heap w2 !! p
           = Some (Block v (if decide (elems v = []) then n else n - 1)).
Proof.
  intros Hown Hcur. pose proof Hcur as (k & Hc & Hp).
  set (w0 := World (<[p := Block v (S (S (S (S k))))]> (heap w)) (vectors w)).
  assert (owned w0) as Hown0 by (by apply owned_insert).
  assert (held_by 3 w0 p v) as Hheld0.
  { exists (S (S (S (S k)))). unfold w0. projections. rewrite lookup_same.
    split_and!; [done|lia..]. }
  assert (current w0 c p v) as Hcur0.
  { exists (S (S (S k))). unfold w0. projections. by rewrite lookup_same. }
  assert (heap w0 !! p
          = Some (Block v (if decide (p = p) then S (S (S (S k)))
                           else S (S (S k))))) as Hcount0.
  { rewrite decide_True by done. unfold w0. projections.
    apply lookup_same. }
  destruct (range_for_loop_push_back c p v f (S (S (S k))) (elems v) [] []
              w0 p v eq_refl Hown0 Hheld0 Hcur0)
    as (w' & q' & u' & Hloop & Hown' & Hheld' & Hcur' & Hu' & Hcount'
        & Hsame & Hleft); [lia|exact Hcount0|].
  destruct (release_held 1 w' p v Hown' Hheld')
    as (wa & Hrel1 & Howna & Hhelda & Hcura & Hcounta).
  destruct (release_held 0 wa p v Howna Hhelda)
    as (wb & Hrel2 & Hownb & Hheldb & Hcurb & Hcountb).
  exists (Snapshot p),
    (World (<[p := Block v (S (S k))]> (heap w)) (vectors w)), wb.
  split_and!.
  - by rewrite (lock_Ok _ _ _ _ _ Hc Hp).
  - unfold fe.range_for, fe.snapshot_begin, fe.snapshot_end. mrun.
    rewrite !insert_twice. fold w0.
    rewrite (bind_Ok _ _ _ _ _ Hloop).
    unfold fe.cursor_destroy. cbn [fe.cursor_shared_container].
    rewrite (bind_Ok _ _ _ _ _ Hrel1), (bind_Ok _ _ _ _ _ Hrel2).
    done.
  - rewrite (current_contents _ _ _ _ (Hcurb _ _ _ (Hcura _ _ _ Hcur'))).
    by rewrite Hu'.
  - destruct Hheldb as (kb & Hpb & _).
    by rewrite (snapshot_elements_eq (Snapshot p) _ _ Hpb).
  - done.
  - intros n. projections. rewrite lookup_same. intros [= <-].
    destruct (decide (elems v = [])) as [Hempty|Hsome].
    + rewrite (Hsame Hempty), decide_True in Hcount' by done.
      by apply Hcountb, Hcounta.
    + rewrite decide_False in Hcount' by (by apply Hleft).
      apply Hcountb, Hcounta. exact Hcount'.
Qed.

(** X29. An iterator owns a reference to the block of its snapshot: after
    the snapshot is destroyed and the container has published a copy, the
    iterator still reads the element it points at, from the block
    the container referred to before; that block is freed when the
    iterator is destroyed. *)
Theorem iterator_keeps_block_alive w c p v x (l : list T) value :
  vectors w !! c = Some (Cow p false) →
  heap w !! p = Some (Block v 1) →
  elems v = x :: l →
  ∃ it w1 w2,
    (s ← fe.lock c;
     it ← fe.snapshot_begin s;
     fe.snapshot_destroy s;;
     fe.push_back c value;;
     mret it) w = Ok it w1
    ∧ fe.cursor_read it w1 = Ok x w1
    ∧ heap w1 !! p = Some (Block v 1)
    ∧ contents w1 c = Some (elems v ++ [value])
    ∧ fe.cursor_destroy it w1 = Ok tt w2
    ∧ heap w2 !! p = None.
Proof.
  intros Hc Hp Hv.
  set (wa := World (<[p := Block v 2]> (heap w)) (vectors w)).
  assert (heap wa !! p = Some (Block v 2)) as Hpa by apply lookup_same.
  assert (fresh (dom (heap wa)) ≠ p) as Hnp by (by eapply fresh_heap_ne).
  set (w1 := published c p (vec_push_back value (vec_copy v)) wa).
  assert (heap w1 !! p = Some (Block v 1)) as Hp1.
  { unfold w1, published, publish_at. projections.
    rewrite release_block_insert_ne, lookup_other by done.
    unfold wa. projections. rewrite release_after_copy. apply lookup_same. }
  exists (fe.Cursor p (Iter p 0)), w1. eexists. split_and!.
  - rewrite (bind_Ok _ _ _ _ _ (lock_Ok _ _ _ _ _ Hc Hp)).
    unfold fe.snapshot_begin, fe.snapshot_destroy. mrun.
    rewrite release_after_copy, insert_twice. fold wa.
    assert (fe.push_back c value wa = Ok tt w1) as Hrun.
    { unfold fe.push_back.
      by rewrite (copy_modify_publish_eq c _ wa p v 2 Hc Hpa). }
    by rewrite (bind_Ok _ _ _ _ _ Hrun).
  - unfold fe.cursor_read. cbn [fe.cursor_itr].
    apply (iter_read_Ok _ _ _ _ _ Hp1). cbn [object]. by rewrite Hv.
  - done.
  - unfold contents, buffer, w1, published.
    rewrite publish_at_vectors, lookup_same. cbn -[publish_at].
    by rewrite publish_at_lookup_new.
  - unfold fe.cursor_destroy. cbn [fe.cursor_shared_container].
    by apply (shared_ptr_release_Ok _ _ _ Hp1).
  - projections. unfold release_block. rewrite Hp1. simpl.
    by rewrite (lookup_delete_eq (M:=gmap nat)).
Qed.
End theory.

(** ** The scenarios of the specification, over int elements *)

Section scenarios.
Context `{!CapacityPolicy}.
#[local] Existing Instance Z_element.
Open Scope Z_scope.

(** C3, as the code has it.  On a container holding [1,3,3,5], with a
    predicate that matches the elements equal to 3: erase_all_if erases both
    and returns the count 2, the container then holds [1,5]; erase_if erases
    the first match only and returns true, the container then holds
    [1,3,5]. *)
Theorem erase_if_scenario (w : world Z) c p v (pred : Z → bool) :
  current w c p v → elems v = [1; 3; 3; 5] →
  (∀ x, pred x = bool_decide (x = 3)) →
  (∃ w', fe.erase_all_if c pred w = Ok 2%nat w'
         ∧ contents w' c = Some [1; 5])
  ∧ (∃ w', fe.erase_if c pred w = Ok true w'
           ∧ contents w' c = Some [1; 3; 5]).
Proof.
  intros Hcur Hv Hpred. destruct (Hcur) as (k & Hc & Hp). split.
  - unfold fe.erase_all_if. rewrite (remove_erase_eq _ _ _ _ _ _ Hc Hp).
    rewrite Hv. cbn [List.filter]. rewrite !Hpred.
    eexists. split; [done|].
    by erewrite current_contents by (by eapply published_current).
  - rewrite (erase_if_eq _ _ _ _ _ _ Hc Hp). cbv zeta.
    unfold vec_size. rewrite Hv. cbn [std_find_if]. rewrite !Hpred.
    eexists. split; [done|].
    by erewrite current_contents by (by eapply published_current).
Qed.
End scenarios.

(** ** Concrete stores *)

Section concrete.
#[local] Existing Instance Z_element.
#[local] Existing Instance libstdcxx_policy.
#[local] Existing Instance libstdcxx_library.
Open Scope Z_scope.

Lemma store_constructed l :
  fe.construct l (World ∅ ∅) = Ok 0%nat (store l).
Proof. done. Qed.

Lemma store2_constructed la lb :
  (fe.construct la ≫= λ _, fe.construct lb) (World ∅ ∅)
    = Ok 1%nat (store2 la lb).
Proof. vm_compute. reflexivity. Qed.

Lemma store_owned l : owned (store l).
Proof.
  destruct (construct_owned l _ owned_empty) as (c & w' & Hrun & Hown & _).
  rewrite store_constructed in Hrun. by injection Hrun as <- <-.
Qed.

Lemma store2_owned la lb : owned (store2 la lb).
Proof.
  destruct (construct_owned la _ owned_empty) as (c & w' & Hrun & Hown & _).
  rewrite store_constructed in Hrun. injection Hrun as <- <-.
  destruct (construct_owned lb _ Hown) as (c & w' & Hrun & Hown' & _).
  pose proof (store2_constructed la lb) as Hboth.
  rewrite (bind_Ok _ _ _ _ _ (store_constructed la)) in Hboth.
  rewrite Hboth in Hrun. by injection Hrun as <- <-.
Qed.

Lemma store_current l : current (store l) 0 0 (vec_of_list l).
Proof. exists 0%nat. split; apply lookup_singleton_eq. Qed.

Lemma store2_current la lb :
  current (store2 la lb) 0 0 (vec_of_list la)
  ∧ current (store2 la lb) 1 1 (vec_of_list lb).
Proof.
  split; exists 0%nat; split; cbn [store2 heap vectors].
  - apply lookup_insert_eq.
  - apply lookup_insert_eq.
  - by rewrite lookup_insert_ne, lookup_singleton_eq.
  - by rewrite lookup_insert_ne, lookup_singleton_eq.
Qed.

(** *** Where the code departs from the specification *)

(** C2 fails: insert_at with index 5 on [1,2] signals nothing; the call is
    undefined. *)
Lemma insert_at_out_of_range_not_signalled :
  fe.insert_at 0 5 9 (store [1; 2]) = Undefined
  ∧ ¬ ∃ e w', fe.insert_at 0 5 9 (store [1; 2]) = Throw e w'.
Proof.
  assert (fe.insert_at 0 5 9 (store [1; 2]) = Undefined) as Hrun
    by (vm_compute; reflexivity).
  split; [done|]. intros (e & w' & Hthrow). congruence.
Qed.

(** C3 fails: erase_if erases the first 3 only and returns a flag. *)
Lemma erase_if_erases_first_only :
  ∃ w', fe.erase_if 0 (λ x, bool_decide (x = 3)) (store [1; 3; 3; 5])
          = Ok true w'
        ∧ contents w' 0 = Some [1; 3; 5]
        ∧ contents w' 0 ≠ Some [1; 5].
Proof.
  eexists. split; [vm_compute; reflexivity|].
  split; [vm_compute; reflexivity|]. vm_compute. discriminate.
Qed.

(** C4 fails: erase_all of a value that does not occur makes the container
    refer to a new block. *)
Lemma erase_all_copies_without_match :
  ∃ w', fe.erase_all 0 9 (store [1; 2]) = Ok 0%nat w'
        ∧ buffer (store [1; 2]) 0 = Some 0%nat
        ∧ buffer w' 0 = Some 1%nat
        ∧ buffer w' 0 ≠ buffer (store [1; 2]) 0.
Proof.
  eexists. split; [vm_compute; reflexivity|].
  split; [vm_compute; reflexivity|].
  split; [vm_compute; reflexivity|]. vm_compute. discriminate.
Qed.

(** C1 fails, against the documentation of the class.  Move assignment
    and move construction do not copy: they move the vector out of the
    shared block in place.  A snapshot of container 0, taken while it
    holds [2,3,5], reads the size 3 and the elements [2,3,5]; after
    vec = std::move(vec), after other = std::move(vec) and after the
    construction of a container from std::move(vec) the same snapshot
    reads the size 0 and no elements. *)
Lemma snapshot_emptied_by_move :
  ∃ s w1,
    fe.lock 0 (store2 [2; 3; 5] [7]) = Ok s w1
    ∧ fe.snapshot_size s w1 = Ok 3%nat w1
    ∧ fe.snapshot_elements s w1 = Ok [2; 3; 5] w1
    ∧ (∃ w2, fe.move_assign 0 0 w1 = Ok tt w2
             ∧ fe.snapshot_size s w2 = Ok 0%nat w2
             ∧ fe.snapshot_elements s w2 = Ok [] w2
             ∧ contents w2 0 = Some [2; 3; 5])
    ∧ (∃ w2, fe.move_assign 1 0 w1 = Ok tt w2
             ∧ fe.snapshot_size s w2 = Ok 0%nat w2
             ∧ fe.snapshot_elements s w2 = Ok [] w2
             ∧ contents w2 1 = Some [2; 3; 5])
    ∧ (∃ c w2, fe.move_construct 0 w1 = Ok c w2
               ∧ fe.snapshot_size s w2 = Ok 0%nat w2
               ∧ fe.snapshot_elements s w2 = Ok [] w2
               ∧ contents w2 c = Some [2; 3; 5]).
Proof.
  eexists _, _. split; [vm_compute; reflexivity|].
  split; [vm_compute; reflexivity|]. split; [vm_compute; reflexivity|].
  split_and!.
  - eexists. split; [vm_compute; reflexivity|].
    split_and!; vm_compute; reflexivity.
  - eexists. split; [vm_compute; reflexivity|].
    split_and!; vm_compute; reflexivity.
  - eexists _, _. split; [vm_compute; reflexivity|].
    split_and!; vm_compute; reflexivity.
Qed.

(** *** The theorems at concrete stores *)

(* the scenario of the specification: [2,3,5], a snapshot, push_back(7)
   three times *)
Lemma snapshot_isolation_witness :
  ∃ s w1 w2,
    fe.lock 0 (store [2; 3; 5]) = Ok s w1
    ∧ calls [(0%nat, PushBack 7); (0%nat, PushBack 7); (0%nat, PushBack 7)]
        w1 = Ok tt w2
    ∧ fe.size 0 w2 = Ok 6%nat w2
    ∧ fe.snapshot_size s w2 = Ok 3%nat w2
    ∧ fe.snapshot_elements s w2 = Ok [2; 3; 5] w2.
Proof.
  eassert (fe.lock 0 (store [2; 3; 5]) = Ok (Snapshot 0) _) as Hlock
    by (vm_compute; reflexivity).
  lazymatch type of Hlock with
  | _ = Ok _ ?w1 =>
      eassert (calls [(0%nat, PushBack 7); (0%nat, PushBack 7);
                      (0%nat, PushBack 7)] w1 = Ok tt _) as Hcalls
        by (vm_compute; reflexivity)
  end.
  destruct (snapshot_isolation _ _ _ _ _ _ _ _
              (store_owned [2; 3; 5]) (store_current [2; 3; 5])
              Hlock Hcalls) as [_ (Hsize & Helems & _)].
  eexists _, _, _.
  split; [exact Hlock|]. split; [exact Hcalls|].
  split; [vm_compute; reflexivity|].
  split; [exact Hsize|exact Helems].
Defined.

Lemma index_out_of_range_undefined_witness :
  fe.insert_at 0 5 9 (store [1; 2]) = Undefined
  ∧ fe.replace_at 0 2 9 (store [1; 2]) = Undefined
  ∧ fe.erase_at 0 2 (store [1; 2]) = Undefined
  ∧ fe.erase_range 0 1 3 (store [1; 2]) = Undefined.
Proof.
  destruct (index_out_of_range_undefined (store [1; 2]) 0%nat 0%nat
              (vec_of_list [1; 2]) (store_current [1; 2]))
    as (Hinsert & Hreplace & Herase & Hrange).
  split_and!.
  - apply Hinsert. vm_compute. lia.
  - apply Hreplace. vm_compute. lia.
  - apply Herase. vm_compute. lia.
  - apply Hrange. right. vm_compute. lia.
Defined.

Lemma erase_if_scenario_witness :
  (∃ w', fe.erase_all_if 0 (λ x, bool_decide (x = 3)) (store [1; 3; 3; 5])
           = Ok 2%nat w'
         ∧ contents w' 0 = Some [1; 5])
  ∧ (∃ w', fe.erase_if 0 (λ x, bool_decide (x = 3)) (store [1; 3; 3; 5])
             = Ok true w'
           ∧ contents w' 0 = Some [1; 3; 5]).
Proof.
  apply (erase_if_scenario (store [1; 3; 3; 5]) 0%nat 0%nat
           (vec_of_list [1; 3; 3; 5]) (λ x, bool_decide (x = 3))).
  - apply store_current.
  - reflexivity.
  - reflexivity.
Defined.

Lemma bulk_mutators_without_effect_witness :
  fe.replace_all 0 9 4 (store [1; 2]) = Ok 0%nat (store [1; 2])
  ∧ fe.replace_all_if 0 (λ x, bool_decide (x = 9)) 4 (store [1; 2])
    = Ok 0%nat (store [1; 2])
  ∧ fe.push_back_if_absent_range 0 [2; 1; 2] (store [1; 2])
    = Ok 0%nat (store [1; 2])
  ∧ (∃ w', fe.erase_all 0 9 (store [1; 2]) = Ok 0%nat w'
           ∧ contents w' 0 = Some [1; 2]
           ∧ buffer w' 0 = Some 1%nat
           ∧ buffer w' 0 ≠ buffer (store [1; 2]) 0).
Proof.
  destruct (bulk_mutators_without_effect (store [1; 2]) 0%nat 0%nat
              (vec_of_list [1; 2]) (store_current [1; 2]))
    as (Hreplace & Hreplace_if & Hpush & Herase & _).
  split_and!.
  - apply Hreplace. by apply (bool_decide_unpack _).
  - apply Hreplace_if. intros x Hx. apply bool_decide_eq_false. intros ->.
    revert Hx. by apply (bool_decide_unpack _).
  - apply Hpush. apply Forall_forall. by apply (bool_decide_unpack _).
  - apply Herase. by apply (bool_decide_unpack _).
Defined.

Lemma replace_all_count_witness :
  ∃ w', fe.replace_all 0 2 4 (store [1; 2; 3; 2]) = Ok 2%nat w'
        ∧ contents w' 0 = Some [1; 4; 3; 4]
        ∧ 2 ∉ [1; 4; 3; 4].
Proof.
  destruct (replace_all_count (store [1; 2; 3; 2]) 0%nat 0%nat
              (vec_of_list [1; 2; 3; 2]) 2 4 (store_current [1; 2; 3; 2]))
    as (w' & xs' & Hrun & Hcontents & Hxs & Hgone).
  exists w'. split; [exact Hrun|]. rewrite Hcontents, Hxs.
  split; [reflexivity|]. rewrite Hxs in Hgone. apply Hgone. lia.
Defined.

Lemma push_back_if_absent_twice_witness :
  ∃ r1 w1 xs1,
    fe.push_back_if_absent 0 7 (store [1; 2]) = Ok r1 w1
    ∧ fe.push_back_if_absent 0 7 w1 = Ok false w1
    ∧ contents w1 0 = Some xs1
    ∧ (length xs1 ≤ 3)%nat.
Proof.
  exact (push_back_if_absent_twice (store [1; 2]) 0%nat 0%nat
           (vec_of_list [1; 2]) 7 (store_current [1; 2])).
Defined.

Lemma erase_absent_same_buffer_witness :
  fe.erase 0 9 (store [1; 2]) = Ok false (store [1; 2])
  ∧ buffer (store [1; 2]) 0 = Some 0%nat.
Proof.
  apply (erase_absent_same_buffer (store [1; 2]) 0%nat 0%nat
           (vec_of_list [1; 2]) 9 (store_current [1; 2])).
  by apply (bool_decide_unpack _).
Defined.

Lemma swap_exchanges_witness :
  ∃ w', fe.swap 0 1 (store2 [1; 2] [3; 4]) = Ok tt w'
        ∧ contents w' 0 = Some [3; 4]
        ∧ contents w' 1 = Some [1; 2].
Proof.
  apply (swap_exchanges (store2 [1; 2] [3; 4]) 0%nat 1%nat 0%nat 1%nat
           (vec_of_list [1; 2]) (vec_of_list [3; 4])).
  - apply store2_owned.
  - lia.
  - apply store2_current.
  - apply store2_current.
Defined.

Lemma at_bounds_checked_witness :
  fe.at_ 0 5 (store [1; 2]) = Throw out_of_range (store [1; 2])
  ∧ fe.at_ 0 1 (store [1; 2]) = Ok 2 (store [1; 2])
  ∧ fe.snapshot_at (Snapshot 0) 5 (store [1; 2])
    = Throw out_of_range (store [1; 2])
  ∧ fe.snapshot_at (Snapshot 0) 1 (store [1; 2]) = Ok 2 (store [1; 2]).
Proof.
  assert (heap (store [1; 2]) !! 0%nat = Some (Block (vec_of_list [1; 2]) 1))
    as Hheap by reflexivity.
  destruct (at_bounds_checked (store [1; 2]) 0%nat 0%nat
              (vec_of_list [1; 2]) (Snapshot 0) _ 5%nat
              (store_current [1; 2]) Hheap) as (Hthrow & _ & Hsthrow & _).
  destruct (at_bounds_checked (store [1; 2]) 0%nat 0%nat
              (vec_of_list [1; 2]) (Snapshot 0) _ 1%nat
              (store_current [1; 2]) Hheap) as (_ & Hread & _ & Hsread).
  split_and!.
  - apply Hthrow. vm_compute. lia.
  - destruct Hread as (x & Hx & Hrun); [vm_compute; lia|].
    injection Hx as <-. exact Hrun.
  - apply Hsthrow. vm_compute. lia.
  - destruct Hsread as (x & Hx & Hrun); [vm_compute; lia|].
    injection Hx as <-. exact Hrun.
Defined.

Lemma clear_keeps_capacity_witness :
  ∃ w' C',
    fe.capacity 0 (store [1; 2]) = Ok 2%nat (store [1; 2])
    ∧ fe.clear 0 (store [1; 2]) = Ok tt w'
    ∧ w' = published 0 0 (vec_reserve 2 vec_empty) (store [1; 2])
    ∧ fe.size 0 w' = Ok 0%nat w'
    ∧ fe.capacity 0 w' = Ok C' w'
    ∧ (2 ≤ C')%nat.
Proof.
  exact (clear_keeps_capacity (store [1; 2]) 0%nat 0%nat
           (vec_of_list [1; 2]) (store_current [1; 2])).
Defined.

(** *** The further properties at concrete stores *)

(* 2^62 elements are more than max_size() allows *)
Lemma beyond_max_size : ¬ within_max_size (T:=Z) (2 ^ 62).
Proof.
  unfold within_max_size. cbn [max_size libstdcxx_library].
  rewrite Nat2N.inj_pow.
  change (N.of_nat 2) with 2%N. change (N.of_nat 62) with 62%N. lia.
Qed.



Lemma small_lt_huge : (2 < 2 ^ 62)%nat.
Proof.
  apply (Nat.lt_le_trans _ (2 ^ 2)); [simpl; lia|].
  apply Nat.pow_le_mono_r; lia.
Qed.

Lemma store_idle l : idle (store l).
Proof.
  intros c o Hc. cbn [store vectors] in Hc.
  apply (lookup_singleton_Some (M:=gmap nat)) in Hc as [_ <-]. reflexivity.
Qed.

Lemma store_tight l : tight (store l).
Proof.
  intros p b Hp. cbn [store heap] in Hp.
  apply (lookup_singleton_Some (M:=gmap nat)) in Hp as [<- <-].
  split; [reflexivity|]. exists 0%nat, (Cow 0 false). split; reflexivity.
Qed.

Lemma push_back_appends_witness :
  ∃ w', fe.push_back 0 7 (store [1; 2]) = Ok tt w'
        ∧ fe.emplace_back 0 7 (store [1; 2]) = Ok tt w'
        ∧ contents w' 0 = Some [1; 2; 7]
        ∧ fe.size 0 w' = Ok 3%nat w'.
Proof.
  exact (push_back_appends (store [1; 2]) 0%nat 0%nat (vec_of_list [1; 2]) 7
           (store_current [1; 2])).
Defined.

Lemma push_back_range_appends_witness :
  ∃ w1 w2,
    fe.push_back_range 0 [3; 4] (store [1; 2]) = Ok tt w1
    ∧ calls [(0%nat, PushBack 3); (0%nat, PushBack 4)] (store [1; 2])
      = Ok tt w2
    ∧ contents w1 0 = Some [1; 2; 3; 4]
    ∧ contents w2 0 = Some [1; 2; 3; 4].
Proof.
  exact (push_back_range_appends (store [1; 2]) 0%nat 0%nat
           (vec_of_list [1; 2]) [3; 4] (store_current [1; 2])).
Defined.

Lemma pop_back_removes_last_witness :
  fe.pop_back 0 (store []) = Undefined
  ∧ ∃ w', fe.pop_back 0 (store [1; 2]) = Ok tt w'
          ∧ contents w' 0 = Some [1].
Proof.
  destruct (pop_back_removes_last (store []) 0%nat 0%nat (vec_of_list [])
              (store_current [])) as [Hempty _].
  destruct (pop_back_removes_last (store [1; 2]) 0%nat 0%nat
              (vec_of_list [1; 2]) (store_current [1; 2])) as [_ Hlast].
  split.
  - apply Hempty. reflexivity.
  - apply (Hlast [1] 2). reflexivity.
Defined.

Lemma push_back_pop_back_witness :
  ∃ w', (fe.push_back 0 7;; fe.pop_back 0) (store [1; 2]) = Ok tt w'
        ∧ contents w' 0 = Some [1; 2].
Proof.
  exact (push_back_pop_back (store [1; 2]) 0%nat 0%nat (vec_of_list [1; 2])
           7 (store_current [1; 2])).
Defined.

Lemma insert_at_erase_at_witness :
  ∃ w1 w2,
    fe.insert_at 0 1 9 (store [1; 2]) = Ok tt w1
    ∧ fe.at_ 0 1 w1 = Ok 9 w1
    ∧ fe.erase_at 0 1 w1 = Ok tt w2
    ∧ contents w2 0 = Some [1; 2].
Proof.
  apply (insert_at_erase_at (store [1; 2]) 0%nat 0%nat (vec_of_list [1; 2])
           1%nat 9).
  - apply store_current.
  - vm_compute. lia.
Defined.


Lemma replace_if_erase_if_first_match_witness :
  (∃ w', fe.replace_if 0 (λ x, bool_decide (x = 3)) 9 (store [1; 3; 3; 5])
           = Ok true w'
         ∧ contents w' 0 = Some [1; 9; 3; 5])
  ∧ (∃ w', fe.erase_if 0 (λ x, bool_decide (x = 3)) (store [1; 3; 3; 5])
             = Ok true w'
           ∧ contents w' 0 = Some [1; 3; 5])
  ∧ fe.replace_if 0 (λ x, bool_decide (x = 7)) 9 (store [1; 3; 3; 5])
    = Ok false (store [1; 3; 3; 5])
  ∧ fe.erase_if 0 (λ x, bool_decide (x = 7)) (store [1; 3; 3; 5])
    = Ok false (store [1; 3; 3; 5]).
Proof.
  destruct (replace_if_erase_if_first_match (store [1; 3; 3; 5]) 0%nat 0%nat
              (vec_of_list [1; 3; 3; 5]) (λ x, bool_decide (x = 3))
              (store_current [1; 3; 3; 5])) as [Hfirst _].
  destruct (Hfirst [1] [3; 5] 3) as [Hreplace Herase].
  { reflexivity. }
  { intros y ->%list_elem_of_singleton. reflexivity. }
  { reflexivity. }
  destruct (replace_if_erase_if_first_match (store [1; 3; 3; 5]) 0%nat 0%nat
              (vec_of_list [1; 3; 3; 5]) (λ x, bool_decide (x = 7))
              (store_current [1; 3; 3; 5])) as [_ Hnone].
  destruct Hnone as [Hreplace' Herase'].
  { apply Forall_forall. by apply (bool_decide_unpack _). }
  split_and!; [exact (Hreplace 9)|exact Herase|exact (Hreplace' 9)
              |exact Herase'].
Defined.

Lemma replace_erase_first_occurrence_witness :
  (∃ w', fe.replace 0 3 9 (store [1; 3; 3; 5]) = Ok true w'
         ∧ contents w' 0 = Some [1; 9; 3; 5])
  ∧ (∃ w', fe.erase 0 3 (store [1; 3; 3; 5]) = Ok true w'
           ∧ contents w' 0 = Some [1; 3; 5])
  ∧ fe.replace 0 7 9 (store [1; 3; 3; 5]) = Ok false (store [1; 3; 3; 5]).
Proof.
  destruct (replace_erase_first_occurrence (store [1; 3; 3; 5]) 0%nat 0%nat
              (vec_of_list [1; 3; 3; 5]) 3 (store_current [1; 3; 3; 5]))
    as [Hfirst _].
  destruct (Hfirst [1] [3; 5]) as [Hreplace Herase].
  { reflexivity. }
  { by apply (bool_decide_unpack _). }
  destruct (replace_erase_first_occurrence (store [1; 3; 3; 5]) 0%nat 0%nat
              (vec_of_list [1; 3; 3; 5]) 7 (store_current [1; 3; 3; 5]))
    as [_ Hnone].
  split_and!; [exact (Hreplace 9)|exact Herase|].
  apply Hnone. by apply (bool_decide_unpack _).
Defined.

Lemma erase_all_if_removes_matches_witness :
  (∃ w' xs,
     fe.erase_all_if 0 (λ x, bool_decide (x = 3)) (store [1; 3; 3; 5])
       = Ok 2%nat w'
     ∧ contents w' 0 = Some xs
     ∧ xs = [1; 5]
     ∧ (∀ x, x ∈ xs → bool_decide (x = 3) = false)
     ∧ (length xs + 2 = 4)%nat)
  ∧ (∃ w' xs,
       fe.erase_all 0 3 (store [1; 3; 3; 5]) = Ok 2%nat w'
       ∧ contents w' 0 = Some xs
       ∧ xs = [1; 5]
       ∧ 3 ∉ xs).
Proof.
  destruct (erase_all_if_removes_matches (store [1; 3; 3; 5]) 0%nat 0%nat
              (vec_of_list [1; 3; 3; 5]) (store_current [1; 3; 3; 5]))
    as [Hif Hvalue].
  split; [exact (Hif (λ x, bool_decide (x = 3)))|exact (Hvalue 3)].
Defined.

Lemma replace_all_if_count_witness :
  ∃ w' xs,
    fe.replace_all_if 0 (λ x, bool_decide (x = 3)) 9 (store [1; 3; 3; 5])
      = Ok 2%nat w'
    ∧ contents w' 0 = Some xs
    ∧ xs = [1; 9; 9; 5]
    ∧ length xs = 4%nat.
Proof.
  exact (replace_all_if_count (store [1; 3; 3; 5]) 0%nat 0%nat
           (vec_of_list [1; 3; 3; 5]) (λ x, bool_decide (x = 3)) 9
           (store_current [1; 3; 3; 5])).
Defined.

Lemma push_back_if_absent_keeps_distinct_witness :
  ∃ w' xs,
    fe.push_back_if_absent 0 7 (store [1; 2]) = Ok true w'
    ∧ contents w' 0 = Some xs
    ∧ xs = [1; 2; 7]
    ∧ 7 ∈ xs
    ∧ (NoDup [1; 2] → NoDup xs).
Proof.
  exact (push_back_if_absent_keeps_distinct (store [1; 2]) 0%nat 0%nat
           (vec_of_list [1; 2]) 7 (store_current [1; 2])).
Defined.

Lemma push_back_if_absent_range_union_witness :
  ∃ w' n added,
    fe.push_back_if_absent_range 0 [2; 7; 7; 8] (store [1; 2]) = Ok n w'
    ∧ contents w' 0 = Some ([1; 2] ++ added)
    ∧ n = length added
    ∧ (∀ x, x ∈ [2; 7; 7; 8] → x ∈ [1; 2] ++ added)
    ∧ (∀ x, x ∈ added → x ∈ [2; 7; 7; 8])
    ∧ (NoDup [1; 2] → NoDup ([1; 2] ++ added)).
Proof.
  exact (push_back_if_absent_range_union (store [1; 2]) 0%nat 0%nat
           (vec_of_list [1; 2]) [2; 7; 7; 8] (store_current [1; 2])).
Defined.


Lemma resize_truncates_or_pads_witness :
  (∃ w', fe.resize_fill 0 4 9 (store [1; 2]) = Ok tt w'
         ∧ contents w' 0 = Some [1; 2; 9; 9]
         ∧ fe.size 0 w' = Ok 4%nat w')
  ∧ (∃ w', fe.resize 0 4 (store [1; 2]) = Ok tt w'
           ∧ contents w' 0 = Some [1; 2; 0; 0])
  ∧ fe.resize_fill 0 (2 ^ 62) 9 (store [1; 2])
    = Throw length_error (store [1; 2])
  ∧ fe.resize 0 (2 ^ 62) (store [1; 2])
    = Throw length_error (store [1; 2]).
Proof.
  destruct (resize_truncates_or_pads (store [1; 2]) 0%nat 0%nat
              (vec_of_list [1; 2]) 4%nat (store_current [1; 2]))
    as [Hgrow _].
  destruct Hgrow as [Hfill Hdefault]; [right; by vm_compute|].
  destruct (resize_truncates_or_pads (store [1; 2]) 0%nat 0%nat
              (vec_of_list [1; 2]) (2 ^ 62)%nat (store_current [1; 2]))
    as [_ Hthrow].
  destruct Hthrow as [Hthrow_fill Hthrow_default];
    [exact small_lt_huge|exact beyond_max_size|].
  split_and!; [exact (Hfill 9)|exact Hdefault|exact (Hthrow_fill 9)
              |exact Hthrow_default].
Defined.

Lemma reserve_shrink_keep_contents_witness :
  (∃ w' C',
     fe.reserve 0 10 (store [1; 2]) = Ok tt w'
     ∧ contents w' 0 = Some [1; 2]
     ∧ fe.capacity 0 w' = Ok C' w'
     ∧ (10 ≤ C')%nat ∧ (2 ≤ C')%nat
     ∧ buffer w' 0 ≠ buffer (store [1; 2]) 0)
  ∧ (fe.reserve 0 (2 ^ 62) (store [1; 2])
       = Throw length_error (store [1; 2])
     ∧ buffer (store [1; 2]) 0 = Some 0%nat)
  ∧ ∃ w' C',
      fe.shrink_to_fit 0 (store [1; 2]) = Ok tt w'
      ∧ contents w' 0 = Some [1; 2]
      ∧ fe.capacity 0 w' = Ok C' w'
      ∧ (2 ≤ C')%nat
      ∧ buffer w' 0 ≠ buffer (store [1; 2]) 0.
Proof.
  destruct (reserve_shrink_keep_contents (store [1; 2]) 0%nat 0%nat
              (vec_of_list [1; 2]) (store_current [1; 2]))
    as (Hreserve & Hthrow & Hshrink).
  split; [|split].
  - apply (Hreserve 10%nat). by vm_compute.
  - apply Hthrow. exact beyond_max_size.
  - exact Hshrink.
Defined.

Lemma swap_with_itself_undefined_witness :
  fe.swap 0 0 (store [1; 2]) = Undefined.
Proof.
  exact (swap_with_itself_undefined (store [1; 2]) 0%nat 0%nat
           (vec_of_list [1; 2]) (store_current [1; 2])).
Defined.

Lemma swap_twice_restores_witness :
  ∃ w', (fe.swap 0 1;; fe.swap 0 1) (store2 [1; 2] [3; 4]) = Ok tt w'
        ∧ contents w' 0 = Some [1; 2]
        ∧ contents w' 1 = Some [3; 4].
Proof.
  apply (swap_twice_restores (store2 [1; 2] [3; 4]) 0%nat 1%nat 0%nat 1%nat
           (vec_of_list [1; 2]) (vec_of_list [3; 4])).
  - apply store2_owned.
  - lia.
  - apply store2_current.
  - apply store2_current.
Defined.

Lemma swap_raw_exchanges_witness :
  ∃ r1 w1 r2 w2,
    fe.swap_raw 0 (vec_of_list [3; 4]) (store [1; 2]) = Ok r1 w1
    ∧ elems r1 = [1; 2]
    ∧ contents w1 0 = Some [3; 4]
    ∧ fe.swap_raw 0 r1 w1 = Ok r2 w2
    ∧ elems r2 = [3; 4]
    ∧ contents w2 0 = Some [1; 2].
Proof.
  exact (swap_raw_exchanges (store [1; 2]) 0%nat 0%nat (vec_of_list [1; 2])
           (vec_of_list [3; 4]) (store_current [1; 2])).
Defined.

Lemma calls_leave_others_witness :
  ∃ w', calls [(0%nat, PushBack 7); (0%nat, Clear)] (store2 [1; 2] [3; 4])
          = Ok tt w'
        ∧ buffer w' 1 = buffer (store2 [1; 2] [3; 4]) 1
        ∧ contents w' 1 = contents (store2 [1; 2] [3; 4]) 1.
Proof.
  eassert (calls [(0%nat, PushBack 7); (0%nat, Clear)]
             (store2 [1; 2] [3; 4]) = Ok tt _) as Hrun
    by (vm_compute; reflexivity).
  eexists. split; [exact Hrun|].
  apply (calls_leave_others [(0%nat, PushBack 7); (0%nat, Clear)] 1%nat
           (store2 [1; 2] [3; 4]) tt).
  - apply store2_owned.
  - intros c m Hin.
    apply elem_of_cons in Hin as [Heq|Hin];
      [injection Heq as -> ->; split; [lia|discriminate]|].
    apply elem_of_cons in Hin as [Heq|Hin];
      [injection Heq as -> ->; split; [lia|discriminate]|].
    by apply elem_of_nil in Hin.
  - exact Hrun.
Defined.

Lemma calls_keep_store_witness :
  ∃ w', calls [(0%nat, PushBack 7); (0%nat, PopBack)] (store [1; 2])
          = Ok tt w'
        ∧ owned w' ∧ idle w'
        ∧ dom (vectors w') = dom (vectors (store [1; 2])).
Proof.
  eassert (calls [(0%nat, PushBack 7); (0%nat, PopBack)] (store [1; 2])
           = Ok tt _) as Hrun by (vm_compute; reflexivity).
  eexists. split; [exact Hrun|].
  apply (calls_keep_store [(0%nat, PushBack 7); (0%nat, PopBack)]
           (store [1; 2]) tt).
  - apply store_owned.
  - apply store_idle.
  - exact Hrun.
Defined.

Lemma calls_leak_nothing_witness :
  ∃ w', calls [(0%nat, PushBack 7); (0%nat, Erase 1)] (store [1; 2])
          = Ok tt w'
        ∧ tight w'.
Proof.
  eassert (calls [(0%nat, PushBack 7); (0%nat, Erase 1)] (store [1; 2])
           = Ok tt _) as Hrun by (vm_compute; reflexivity).
  eexists. split; [exact Hrun|].
  apply (calls_leak_nothing [(0%nat, PushBack 7); (0%nat, Erase 1)]
           (store [1; 2]) tt).
  - apply store_owned.
  - apply store_tight.
  - exact Hrun.
Defined.

Lemma lock_then_destroy_witness :
  ∃ s w1,
    fe.lock 0 (store [1; 2]) = Ok s w1
    ∧ fe.snapshot_elements s w1 = Ok [1; 2] w1
    ∧ fe.snapshot_destroy s w1 = Ok tt (store [1; 2]).
Proof.
  apply (lock_then_destroy (store [1; 2]) 0%nat (Cow 0 false)
           (vec_of_list [1; 2]) 0%nat).
  - reflexivity.
  - reflexivity.
Defined.

Lemma old_block_freed_with_last_reference_witness :
  (∃ w', fe.push_back 0 7 (store [1; 2]) = Ok tt w'
         ∧ heap w' !! 0%nat = None)
  ∧ ∃ s w1 w2 w3,
      fe.lock 0 (store [1; 2]) = Ok s w1
      ∧ fe.push_back 0 7 w1 = Ok tt w2
      ∧ heap w2 !! 0%nat = Some (Block (vec_of_list [1; 2]) 1)
      ∧ fe.snapshot_destroy s w2 = Ok tt w3
      ∧ heap w3 !! 0%nat = None
      ∧ contents w3 0 = Some [1; 2; 7].
Proof.
  apply (old_block_freed_with_last_reference (store [1; 2]) 0%nat 0%nat
           (vec_of_list [1; 2]) 7).
  - reflexivity.
  - reflexivity.
Defined.

Lemma unchecked_access_witness :
  fe.subscript 0 1 (store [1; 2]) = Ok 2 (store [1; 2])
  ∧ fe.subscript 0 2 (store [1; 2]) = Undefined
  ∧ fe.at_ 0 2 (store [1; 2]) = Throw out_of_range (store [1; 2])
  ∧ fe.front 0 (store []) = Undefined
  ∧ fe.back 0 (store []) = Undefined
  ∧ fe.empty 0 (store []) = Ok true (store [])
  ∧ fe.front 0 (store [1; 2]) = Ok 1 (store [1; 2])
  ∧ fe.empty 0 (store [1; 2]) = Ok false (store [1; 2])
  ∧ fe.back 0 (store [1; 2]) = Ok 2 (store [1; 2]).
Proof.
  destruct (unchecked_access (store [1; 2]) 0%nat 0%nat (vec_of_list [1; 2])
              (store_current [1; 2]))
    as (Hread & Hout & _ & Hfront & Hback).
  destruct (unchecked_access (store []) 0%nat 0%nat (vec_of_list [])
              (store_current [])) as (_ & _ & Hempty & _).
  destruct (Hread 1%nat 2) as [Hsub _]; [reflexivity|].
  destruct (Hout 2%nat) as [Hsub' Hat]; [vm_compute; lia|].
  destruct Hempty as (Hf & Hb & He); [reflexivity|].
  destruct (Hfront 1 [2]) as [Hf' He']; [reflexivity|].
  split_and!; [done..|]. apply (Hback [1] 2). reflexivity.
Defined.

Lemma copy_construct_independent_witness :
  ∃ c w',
    fe.copy_construct 0 (store [1; 2]) = Ok c w'
    ∧ contents w' c = Some [1; 2]
    ∧ contents w' 0 = Some [1; 2]
    ∧ buffer w' c ≠ buffer w' 0
    ∧ fe.equal c 0 w' = Ok true w'.
Proof.
  destruct (copy_construct_independent (store [1; 2]) 0%nat 0%nat
              (vec_of_list [1; 2]) (store_owned [1; 2])
              (store_current [1; 2]))
    as (c & w' & Hrun & _ & _ & Hc & Ho & _ & Hne & Heq & _).
  exists c, w'. split_and!; assumption.
Defined.



Lemma range_for_unaffected_by_push_back_witness :
  ∃ s w1 w2,
    fe.lock 0 (store [2; 3; 5]) = Ok s w1
    ∧ fe.range_for s (λ elem, fe.push_back 0 999) w1 = Ok [2; 3; 5] w2
    ∧ contents w2 0 = Some [2; 3; 5; 999; 999; 999]
    ∧ fe.snapshot_elements s w2 = Ok [2; 3; 5] w2
    ∧ owned w2
    ∧ heap w1 !! 0%nat = Some (Block (vec_of_list [2; 3; 5]) 2)
    ∧ heap w2 !! 0%nat = Some (Block (vec_of_list [2; 3; 5]) 1).
Proof.
  destruct (range_for_unaffected_by_push_back (store [2; 3; 5]) 0%nat 0%nat
              (vec_of_list [2; 3; 5]) (λ _, 999) (store_owned [2; 3; 5])
              (store_current [2; 3; 5]))
    as (s & w1 & w2 & Hlock & Hloop & Hcontents & Hreads & Hown & Hcount).
  assert (heap w1 !! 0%nat = Some (Block (vec_of_list [2; 3; 5]) 2))
    as Hbefore.
  { eassert (fe.lock 0 (store [2; 3; 5]) = Ok _ _) as Hrun
      by (vm_compute; reflexivity).
    rewrite Hrun in Hlock. injection Hlock as <- <-. reflexivity. }
  exists s, w1, w2. split_and!; [done..|].
  exact (Hcount 2%nat Hbefore).
Defined.

Lemma iterator_keeps_block_alive_witness :
  ∃ it w1 w2,
    (s ← fe.lock 0;
     it ← fe.snapshot_begin s;
     fe.snapshot_destroy s;;
     fe.push_back 0 7;;
     mret it) (store [1; 2]) = Ok it w1
    ∧ fe.cursor_read it w1 = Ok 1 w1
    ∧ heap w1 !! 0%nat = Some (Block (vec_of_list [1; 2]) 1)
    ∧ contents w1 0 = Some [1; 2; 7]
    ∧ fe.cursor_destroy it w1 = Ok tt w2
    ∧ heap w2 !! 0%nat = None.
Proof.
  apply (iterator_keeps_block_alive (store [1; 2]) 0%nat 0%nat
           (vec_of_list [1; 2]) 1 [2] 7).
  - reflexivity.
  - reflexivity.
  - reflexivity.
Defined.
End concrete.
